(** * Uptime monitoring bot: the monitoring engine of [uptimemonitoringbot.js]

    A shallow embedding of the probes ([checkWebsite], [checkTcpPort],
    [checkUdpPort]), of the alerting logic and of one monitoring cycle
    ([doMonitoringCycle]), followed by the properties of the engine.

    Conventions of the embedding:
    - JavaScript strings are byte strings (UTF-8 of the source text);
    - configuration numbers are integers ([Z]);
    - the network and Discord are an explicit environment: every awaited
      call takes its outcome from a script, and what the program does to
      the outside world is recorded in a trace;
    - whether Node accepts the arguments of [socket.setTimeout] and
      [socket.connect] is part of the environment of the TCP probe; the
      calls into [dgram] are taken to accept their arguments. *)

From Stdlib Require Import ZArith Ascii String List Bool Lia.
From stdpp Require Import base option strings list gmap pretty.

Local Open Scope list_scope.
Local Open Scope Z_scope.

(** ** JavaScript values read from [config.json] *)

Module Js.

(** A field of a JSON object: absent ([JUndefined]), or a JSON scalar. *)
Inductive JsVal : Type :=
| JUndefined
| JNull
| JBool (b : bool)
| JNum (n : Z)
| JStr (s : string).

(** ToBoolean. *)
Definition truthy (v : JsVal) : bool :=
  match v with
  | JUndefined | JNull => false
  | JBool b => b
  | JNum n => negb (n =? 0)
  | JStr s => negb (String.eqb s "")
  end.

(** [a || b]. *)
Definition or (a b : JsVal) : JsVal := if truthy a then a else b.

(** ToString, as a template literal applies it. *)
Definition toString (v : JsVal) : string :=
  match v with
  | JUndefined => "undefined"
  | JNull => "null"
  | JBool true => "true"
  | JBool false => "false"
  | JNum n => pretty n
  | JStr s => s
  end.

(** [s || d] for a field that is a string when present. *)
Definition strOr (s : option string) (d : string) : string :=
  match s with
  | Some x => if String.eqb x "" then d else x
  | None => d
  end.

Definition lowerAscii (c : ascii) : ascii :=
  let n := N_of_ascii c in
  if ((65 <=? n) && (n <=? 90))%N then ascii_of_N (n + 32) else c.

(** [String.prototype.toLowerCase], on the ASCII letters; bytes of other
    characters are kept. *)
Fixpoint toLowerCase (s : string) : string :=
  match s with
  | EmptyString => EmptyString
  | String c r => String (lowerAscii c) (toLowerCase r)
  end.

(** [s.startsWith(p)]. *)
Definition startsWith (s p : string) : bool := String.prefix p s.

(** [Math.round(x / 1000)] for an integer [x] (halves round up). *)
Definition roundDiv1000 (x : Z) : Z := (x + 500) / 1000.

End Js.

Import Js.

(** ** Configuration *)

Record WebsiteCfg : Type := {
  w_name : option string;
  w_url : string;
  w_verifyTls : option bool;
  w_timeoutMs : JsVal;
  w_id : option string
}.

Record PortCfg : Type := {
  p_name : option string;
  p_host : string;
  p_port : Z;
  p_protocol : JsVal;
  p_timeoutMs : JsVal
}.

Record Config : Type := {
  ownerId : string;
  checkIntervalMs : option Z;
  websites : list WebsiteCfg;
  ports : list PortCfg
}.

Definition CHECK_INTERVAL_MS (c : Config) : Z :=
  match checkIntervalMs c with
  | Some n => if n =? 0 then 600000 else n
  | None => 600000
  end.

Definition WEBSITES (c : Config) : list WebsiteCfg := websites c.
Definition PORTS (c : Config) : list PortCfg := ports c.

(** ** Probe results *)

Inductive State : Type := ok | tls_error | down.

Global Instance State_eq_dec : EqDecision State.
Proof. solve_decision. Defined.

Record ProbeResult : Type := {
  text : string;
  state : State
}.

(** ** The HTTP probe *)

(** An error thrown by [fetch]: [err.code] (absent on abort and type
    errors), [err.name], [err.message]. *)
Record FetchError : Type := {
  err_code : option string;
  err_name : option string;
  err_message : string
}.

(** What the awaited [fetch] does: resolve with a response status, or
    reject. *)
Inductive FetchOutcome : Type :=
| Responded (status : Z)
| Rejected (err : FetchError).

(** [const timeoutMs = cfg.timeoutMs || 5000] *)
Definition checkWebsite_timeoutMs (cfg : WebsiteCfg) : JsVal :=
  Js.or (w_timeoutMs cfg) (JNum 5000).

(** [const verifyTls = cfg.verifyTls !== false] *)
Definition checkWebsite_verifyTls (cfg : WebsiteCfg) : bool :=
  match w_verifyTls cfg with
  | Some false => false
  | _ => true
  end.

(** The condition of the first [if] of the [catch] block. *)
Definition isTlsErrorCode (err : FetchError) : bool :=
  match err_code err with
  | None => false
  | Some c =>
      negb (String.eqb c "") &&
      (startsWith c "CERT_"
       || String.eqb c "UNABLE_TO_VERIFY_LEAF_SIGNATURE"
       || String.eqb c "DEPTH_ZERO_SELF_SIGNED_CERT")
  end.

Definition inOkRange (status : Z) : bool := (200 <=? status) && (status <? 400).

Definition checkWebsite (cfg : WebsiteCfg) (out : FetchOutcome) : ProbeResult :=
  let name := strOr (w_name cfg) "Unbenannt" in
  let url := w_url cfg in
  let timeoutMs := checkWebsite_timeoutMs cfg in
  match out with
  | Responded status =>
      if startsWith (toLowerCase url) "http://" then
        if inOkRange status then
          {| text := "⚠️ **" +:+ name +:+ "** (" +:+ url +:+ ") – HTTP "
                     +:+ pretty status +:+ " (ohne TLS, evtl. unsicher)";
             state := down |}
        else
          {| text := "❌ **" +:+ name +:+ "** (" +:+ url +:+ ") – HTTP "
                     +:+ pretty status +:+ " (ohne TLS)";
             state := down |}
      else if inOkRange status then
        {| text := "✅ **" +:+ name +:+ "** (" +:+ url +:+ ") – HTTP "
                   +:+ pretty status;
           state := ok |}
      else
        {| text := "❌ **" +:+ name +:+ "** (" +:+ url +:+ ") – HTTP "
                   +:+ pretty status;
           state := down |}
  | Rejected err =>
      if isTlsErrorCode err then
        {| text := "🔒❌ **" +:+ name +:+ "** (" +:+ url
                   +:+ ") – TLS/Zertifikatfehler (Website nicht sicher?) – "
                   +:+ default "" (err_code err);
           state := tls_error |}
      else if String.eqb (default "" (err_name err)) "AbortError" then
        {| text := "⏱️ **" +:+ name +:+ "** (" +:+ url +:+ ") – Timeout nach "
                   +:+ Js.toString timeoutMs +:+ "ms";
           state := down |}
      else
        {| text := "❌ **" +:+ name +:+ "** (" +:+ url +:+ ") – Fehler: "
                   +:+ strOr (err_name err) "Error" +:+ ": " +:+ err_message err;
           state := down |}
  end.

(** What [checkWebsite] does before it awaits [fetch]: arm the abort
    timer, and build an agent without certificate validation when
    [verifyTls] is off. *)
Inductive HttpSetup : Type :=
| ArmAbort (ms : JsVal)
| AgentNoVerify.

Definition checkWebsite_setup (cfg : WebsiteCfg) : list HttpSetup :=
  ArmAbort (checkWebsite_timeoutMs cfg)
  :: (if checkWebsite_verifyTls cfg then [] else [AgentNoVerify]).

(** ** The TCP probe *)

(** An error object of a socket: [err.code], [err.message]. *)
Record SockError : Type := {
  se_code : option string;
  se_message : string
}.

(** [err.code || err.message] *)
Definition errLabel (err : SockError) : string :=
  strOr (se_code err) (se_message err).

(** The first event a connecting socket emits; the handler of that event
    removes all three listeners and destroys the socket. *)
Inductive TcpEvent : Type :=
| TcpError (err : SockError)
| TcpConnect
| TcpTimeout.

(** A call on the socket that throws: Node checks the arguments of
    [socket.setTimeout(timeoutMs)] and of [socket.connect(port, host)] and
    throws when it does not accept them (a [timeoutMs] that is negative or
    no number, a [port] outside the range of port numbers). *)
Inductive TcpRefusal : Type :=
| RefusesSetTimeout (err : string)
| RefusesConnect (err : string).

(** What Node and the network do to one run of the probe: whether Node
    accepts the arguments of the two calls (every attempt passes the same
    [timeoutMs], [port] and [host], so there is one answer for the run),
    and the first event on the socket of attempt [n]. *)
Record TcpNet : Type := {
  tcp_refusal : option TcpRefusal;
  tcp_event : Z -> TcpEvent
}.

(** How the promise of the probe settles: [resolve] is called with a
    message, or the executor throws and the promise is rejected. *)
Inductive TcpOutcome : Type :=
| TcpResolved (msg : string)
| TcpRejected (err : string).

(** What the probe does to its sockets, tagged with the attempt. *)
Inductive TcpOp : Type :=
| NewSocket (tryNumber : Z)
| SetTimeout (tryNumber : Z) (ms : JsVal)
| Connect (tryNumber : Z) (port : Z) (host : string)
| Destroy (tryNumber : Z).

(** [const timeoutMs = cfg.timeoutMs || 3000] *)
Definition checkTcpPort_timeoutMs (cfg : PortCfg) : JsVal :=
  Js.or (p_timeoutMs cfg) (JNum 3000).

Definition tcpHead (cfg : PortCfg) : string :=
  "**" +:+ strOr (p_name cfg) "Unbenannt" +:+ "** TCP " +:+ p_host cfg
  +:+ ":" +:+ pretty (p_port cfg).

(** The three messages the promise can resolve with. *)
Definition tcpUnreachable (cfg : PortCfg) (err : SockError) : string :=
  "❌ " +:+ tcpHead cfg +:+ " – nicht erreichbar (" +:+ errLabel err +:+ ")".

Definition tcpReachable (cfg : PortCfg) : string :=
  "✅ " +:+ tcpHead cfg +:+ " – erreichbar".

Definition tcpTimeoutAfterRetry (cfg : PortCfg) : string :=
  "⏱️ " +:+ tcpHead cfg +:+ " – Timeout nach "
  +:+ Js.toString (checkTcpPort_timeoutMs cfg) +:+ "ms (nach Retry)".

(** [attempt(tryNumber)].  The result is the socket operations performed
    and how the promise settles.  A call that throws ends the attempt where
    it stands: the handlers are not registered or the connection is not
    started, the socket is not destroyed, and the exception leaves the
    executor of the promise, which is rejected (a refusal shows in attempt
    1, so attempt 2 is only reached with arguments that Node accepts).
    Otherwise the first event on the socket decides.  The recursion of the
    source ([attempt(2)] from the timeout handler of attempt 1) is bounded
    by [fuel]. *)
Fixpoint attempt (fuel : nat) (cfg : PortCfg) (net : TcpNet)
    (tryNumber : Z) : option (list TcpOp * TcpOutcome) :=
  match fuel with
  | O => None
  | S fuel' =>
      let created :=
        [NewSocket tryNumber;
         SetTimeout tryNumber (checkTcpPort_timeoutMs cfg)] in
      let opened :=
        created ++ [Connect tryNumber (p_port cfg) (p_host cfg)] in
      let cleanup := [Destroy tryNumber] in
      match tcp_refusal net with
      | Some (RefusesSetTimeout err) => Some (created, TcpRejected err)
      | Some (RefusesConnect err) => Some (opened, TcpRejected err)
      | None =>
          match tcp_event net tryNumber with
          | TcpError err =>
              Some (opened ++ cleanup, TcpResolved (tcpUnreachable cfg err))
          | TcpConnect =>
              Some (opened ++ cleanup, TcpResolved (tcpReachable cfg))
          | TcpTimeout =>
              if tryNumber =? 1 then
                match attempt fuel' cfg net 2 with
                | Some (ops, out) => Some (opened ++ cleanup ++ ops, out)
                | None => None
                end
              else
                Some (opened ++ cleanup,
                      TcpResolved (tcpTimeoutAfterRetry cfg))
          end
      end
  end.

(** [checkTcpPort(cfg)]: [attempt()] with its default argument 1. *)
Definition checkTcpPort (cfg : PortCfg) (net : TcpNet)
    : option (list TcpOp * TcpOutcome) :=
  attempt 2 cfg net 1.


Definition timeoutsOf (ops : list TcpOp) : list JsVal :=
  omap (fun o => match o with SetTimeout _ ms => Some ms | _ => None end) ops.


(** ** The UDP probe *)

(** What can happen after [socket.send] was called: the socket emits
    ['error'], the send callback runs (with or without an error), or a
    timer armed by the callback fires. *)
Inductive UdpEvent : Type :=
| UdpSocketError (err : SockError)
| UdpSendCallback (err : option SockError)
| UdpTimerFired.

(** The closure state of one invocation: the [finished] flag, the calls of
    [resolve] and of [socket.close], the timers armed and still pending. *)
Record UdpRun : Type := {
  finished : bool;
  resolved : list string;
  closes : nat;
  armed : list JsVal;
  pending : nat
}.

(** [const timeoutMs = cfg.timeoutMs || 3000] *)
Definition checkUdpPort_timeoutMs (cfg : PortCfg) : JsVal :=
  Js.or (p_timeoutMs cfg) (JNum 3000).

Definition udpHead (cfg : PortCfg) : string :=
  "**" +:+ strOr (p_name cfg) "Unbenannt" +:+ "** UDP " +:+ p_host cfg
  +:+ ":" +:+ pretty (p_port cfg).

Definition udpSocketFailed (cfg : PortCfg) (err : SockError) : string :=
  "❌ " +:+ udpHead cfg +:+ " – Fehler: " +:+ errLabel err.

Definition udpSendFailed (cfg : PortCfg) (err : SockError) : string :=
  "❌ " +:+ udpHead cfg +:+ " – Fehler beim Senden: " +:+ errLabel err.

Definition udpSentNoResponse (cfg : PortCfg) : string :=
  "ℹ️ " +:+ udpHead cfg
  +:+ " – Paket gesendet, keine Antwort (UDP schwer zuverlässig zu prüfen)".

(** [done(msg)] *)
Definition done (msg : string) (r : UdpRun) : UdpRun :=
  if finished r then r
  else {| finished := true;
          resolved := resolved r ++ [msg];
          closes := S (closes r);
          armed := armed r;
          pending := pending r |}.

Definition udpInit : UdpRun :=
  {| finished := false; resolved := []; closes := 0; armed := []; pending := 0 |}.

(** One event delivered to the handlers registered by [checkUdpPort]. *)
Definition udpHandle (cfg : PortCfg) (r : UdpRun) (ev : UdpEvent) : UdpRun :=
  match ev with
  | UdpSocketError err => done (udpSocketFailed cfg err) r
  | UdpSendCallback (Some err) => done (udpSendFailed cfg err) r
  | UdpSendCallback None =>
      {| finished := finished r;
         resolved := resolved r;
         closes := closes r;
         armed := armed r ++ [checkUdpPort_timeoutMs cfg];
         pending := S (pending r) |}
  | UdpTimerFired =>
      match pending r with
      | O => r
      | S n =>
          done (udpSentNoResponse cfg)
            {| finished := finished r;
               resolved := resolved r;
               closes := closes r;
               armed := armed r;
               pending := n |}
      end
  end.

(** [checkUdpPort(cfg)] under the events [evs]. *)
Definition checkUdpPort (cfg : PortCfg) (evs : list UdpEvent) : UdpRun :=
  fold_left (udpHandle cfg) evs udpInit.

(** The value of the promise: that of the first [resolve]. *)
Definition udpResult (r : UdpRun) : option string := head (resolved r).

(** ** The store of last states: a plain JavaScript object *)

Module Store.

(** [lastWebsiteStates] is created as [{}], so a property read falls back
    to [Object.prototype] when the object has no own property of that
    name.  These are the property names of [Object.prototype]; each of them
    holds a function, or for [__proto__] the prototype object itself. *)
Definition objectPrototypeKeys : list string :=
  ["constructor"; "__defineGetter__"; "__defineSetter__"; "hasOwnProperty";
   "__lookupGetter__"; "__lookupSetter__"; "isPrototypeOf";
   "propertyIsEnumerable"; "toString"; "valueOf"; "__proto__";
   "toLocaleString"].

(** What a read of the object yields: a state string stored by an earlier
    iteration, or an inherited function or object. *)
Inductive StoreVal : Type :=
| SState (s : State)
| SInherited (name : string).

Global Instance StoreVal_eq_dec : EqDecision StoreVal.
Proof. solve_decision. Defined.

(** [obj[key]]; [None] is [undefined]. *)
Definition get (obj : gmap string State) (key : string) : option StoreVal :=
  match obj !! key with
  | Some s => Some (SState s)
  | None =>
      if bool_decide (key ∈ objectPrototypeKeys) then Some (SInherited key)
      else None
  end.

(** [obj[key] = s]: creates or overwrites the own property; the setter of
    [__proto__] ignores a string. *)
Definition set (obj : gmap string State) (key : string) (s : State)
    : gmap string State :=
  if String.eqb key "__proto__" then obj else <[key := s]> obj.

End Store.

Import Store.

(** [lastWebsiteStates[key] || "ok"]: the three state strings, functions
    and objects are all truthy, so the default applies to [undefined]
    only. *)
Definition prevStateOf (lastWebsiteStates : gmap string State) (key : string)
    : StoreVal :=
  default (SState ok) (Store.get lastWebsiteStates key).

(** [getWebsiteKey(cfg, index)] *)
Definition getWebsiteKey (cfg : WebsiteCfg) (index : nat) : string :=
  strOr (w_id cfg) (pretty index +:+ ":" +:+ w_url cfg).

(** [result.state !== "ok" && result.state !== prevState] *)
Definition isNewProblem (result : ProbeResult) (prevState : StoreVal) : bool :=
  negb (bool_decide (state result = ok))
  && negb (bool_decide (SState (state result) = prevState)).

(** [result.state === "ok" && prevState !== "ok"] *)
Definition isRecovery (result : ProbeResult) (prevState : StoreVal) : bool :=
  bool_decide (state result = ok)
  && negb (bool_decide (prevState = SState ok)).

(** ** The process state and the outside world *)

Definition Msg : Type := nat.

Record User : Type := { user_id : string }.

(** Calls of the engine's own functions (tagged with the loop index of the
    call site) and operations on Discord and the console. *)
Inductive Effect : Type :=
| CallCheckWebsite (i : nat)
| CallProblemAlert (i : nat) (cfg : WebsiteCfg) (result : ProbeResult)
| CallRecoveryAlert (i : nat) (cfg : WebsiteCfg) (result : ProbeResult)
| CallCheckTcpPort (i : nat)
| CallCheckUdpPort (i : nat)
| FetchOwner
| SendDM (content : string)
| EditMsg (m : Msg) (content : string)
| DeleteOldBotMessages
| ConsoleError (what : string).

(** The module-level variables, and the trace of effects so far. *)
Record World : Type := {
  statusMessage : option Msg;
  ownerUser : option User;
  lastWebsiteStates : gmap string State;
  trace : list Effect
}.

Definition initialWorld : World :=
  {| statusMessage := None; ownerUser := None; lastWebsiteStates := ∅;
     trace := [] |}.

Definition setStatusMessage (m : option Msg) (w : World) : World :=
  {| statusMessage := m; ownerUser := ownerUser w;
     lastWebsiteStates := lastWebsiteStates w; trace := trace w |}.

Definition setOwnerUser (u : option User) (w : World) : World :=
  {| statusMessage := statusMessage w; ownerUser := u;
     lastWebsiteStates := lastWebsiteStates w; trace := trace w |}.

Definition setLastWebsiteStates (s : gmap string State) (w : World) : World :=
  {| statusMessage := statusMessage w; ownerUser := ownerUser w;
     lastWebsiteStates := s; trace := trace w |}.

Definition emit (e : Effect) (w : World) : World :=
  {| statusMessage := statusMessage w; ownerUser := ownerUser w;
     lastWebsiteStates := lastWebsiteStates w; trace := trace w ++ [e] |}.

(** ** A monad for [async] code: state, exceptions, and promises that
    never settle *)

Inductive Outcome (A : Type) : Type :=
| Return (a : A)
| Throw (e : string)
| Pending.

Arguments Return {A} a.
Arguments Throw {A} e.
Arguments Pending {A}.

Definition M (A : Type) : Type := World -> Outcome A * World.

Definition ret {A} (a : A) : M A := fun w => (Return a, w).

Definition bind {A B} (m : M A) (k : A -> M B) : M B :=
  fun w =>
    match m w with
    | (Return a, w') => k a w'
    | (Throw e, w') => (Throw e, w')
    | (Pending, w') => (Pending, w')
    end.

Definition throw {A} (e : string) : M A := fun w => (Throw e, w).

Definition never {A} : M A := fun w => (Pending, w).

(** [try { m } catch (err) { h(err) }] *)
Definition tryCatch {A} (m : M A) (h : string -> M A) : M A :=
  fun w =>
    match m w with
    | (Throw e, w') => h e w'
    | r => r
    end.

Definition act (f : World -> World) : M unit := fun w => (Return tt, f w).

Definition gets {A} (f : World -> A) : M A := fun w => (Return (f w), w).

Notation "x <- m ;; k" := (bind m (fun x => k))
  (at level 100, m at next level, right associativity).
Notation "m ;;; k" := (bind m (fun _ => k))
  (at level 100, right associativity).

(** ** Discord operations *)

(** [await client.users.fetch(OWNER_ID)] *)
Definition usersFetch (res : option User) : M User :=
  act (emit FetchOwner) ;;;
  match res with
  | Some u => ret u
  | None => throw "users.fetch failed"
  end.

(** [if (!ownerUser) { ownerUser = await client.users.fetch(OWNER_ID); }] *)
Definition ensureOwner (res : option User) : M unit :=
  o <- gets ownerUser ;;
  match o with
  | Some _ => ret tt
  | None => u <- usersFetch res ;; act (setOwnerUser (Some u))
  end.

(** [await ownerUser.send(content)] *)
Definition ownerSend (content : string) (res : option Msg) : M Msg :=
  act (emit (SendDM content)) ;;;
  match res with
  | Some m => ret m
  | None => throw "send failed"
  end.

(** [await statusMessage.edit(content)] *)
Definition messageEdit (m : Msg) (content : string) (res : bool) : M unit :=
  act (emit (EditMsg m content)) ;;;
  if res then ret tt else throw "edit failed".

Definition nl : string := String (ascii_of_nat 10) EmptyString.

(** ** Alerts *)

Definition alertTitle (result : ProbeResult) : string :=
  match state result with
  | tls_error => "🔒 SSL / Zertifikatsproblem"
  | down => "⚠️ Seite nicht erreichbar / Fehler"
  | ok => "ℹ️ Info"
  end.

(** The guard at the head of both alert functions:
    [if (!ownerUser) { try { ownerUser = await fetch } catch { log; return } }].
    The result tells whether the function goes on. *)
Definition fetchOwnerOrReturn (fetchRes : option User) (what : string)
    : M bool :=
  o <- gets ownerUser ;;
  match o with
  | Some _ => ret true
  | None =>
      tryCatch
        (u <- usersFetch fetchRes ;; act (setOwnerUser (Some u)) ;;; ret true)
        (fun _ => act (emit (ConsoleError what)) ;;; ret false)
  end.

(** [try { await ownerUser.send(text) } catch (err) { console.error(..) }] *)
Definition sendOrLog (content : string) (sendRes : option Msg) (what : string)
    : M unit :=
  tryCatch
    (_ <- ownerSend content sendRes ;; ret tt)
    (fun _ => act (emit (ConsoleError what))).

(** [sendWebsiteProblemAlert(cfg, result)], called from iteration [i]. *)
Definition sendWebsiteProblemAlert (i : nat) (cfg : WebsiteCfg)
    (result : ProbeResult) (fetchRes : option User) (sendRes : option Msg)
    : M unit :=
  act (emit (CallProblemAlert i cfg result)) ;;;
  go <- fetchOwnerOrReturn fetchRes "Konnte Owner nicht fetchen für Alarm:" ;;
  if negb go then ret tt
  else
    let name := strOr (w_name cfg) "Unbenannt" in
    let url := w_url cfg in
    let content :=
      alertTitle result +:+ nl +:+ "**" +:+ name +:+ "** (" +:+ url +:+ ")"
      +:+ nl +:+ text result in
    sendOrLog content sendRes "Konnte Alarm-DM nicht senden:".

(** [sendWebsiteRecoveryAlert(cfg, result)], called from iteration [i]. *)
Definition sendWebsiteRecoveryAlert (i : nat) (cfg : WebsiteCfg)
    (result : ProbeResult) (fetchRes : option User) (sendRes : option Msg)
    : M unit :=
  act (emit (CallRecoveryAlert i cfg result)) ;;;
  go <- fetchOwnerOrReturn fetchRes "Konnte Owner nicht fetchen für Recovery:" ;;
  if negb go then ret tt
  else
    let name := strOr (w_name cfg) "Unbenannt" in
    let url := w_url cfg in
    let content :=
      "✅ Recovery" +:+ nl +:+ "**" +:+ name +:+ "** (" +:+ url
      +:+ ") ist wieder erreichbar / ohne SSL-Fehler." +:+ nl
      +:+ text result in
    sendOrLog content sendRes "Konnte Recovery-DM nicht senden:".

(** ** One monitoring cycle *)

(** The outcomes of everything one cycle awaits: the fetch of website [i],
    the Discord calls of the alert for website [i], the socket events of
    port entry [i], the clock, and the Discord calls of the report. *)
Record CycleEnv : Type := {
  net_fetch : nat -> FetchOutcome;
  alert_fetchOwner : nat -> option User;
  alert_send : nat -> option Msg;
  tcp_net : nat -> TcpNet;
  udp_net : nat -> list UdpEvent;
  now : string;
  report_edit : bool;
  report_fetchOwner : option User;
  report_send : option Msg
}.

(** The body of the [for] loop over [WEBSITES], at index [i]. *)
Definition websiteBody (env : CycleEnv) (i : nat) (cfg : WebsiteCfg)
    (lines : list string) : M (list string) :=
  act (emit (CallCheckWebsite i)) ;;;
  let result := checkWebsite cfg (net_fetch env i) in
  let lines := lines ++ ["- " +:+ text result] in
  let key := getWebsiteKey cfg i in
  st <- gets lastWebsiteStates ;;
  let prevState := prevStateOf st key in
  (if isNewProblem result prevState
   then sendWebsiteProblemAlert i cfg result
          (alert_fetchOwner env i) (alert_send env i)
   else ret tt) ;;;
  (if isRecovery result prevState
   then sendWebsiteRecoveryAlert i cfg result
          (alert_fetchOwner env i) (alert_send env i)
   else ret tt) ;;;
  act (fun w =>
         setLastWebsiteStates
           (Store.set (lastWebsiteStates w) key (state result)) w) ;;;
  ret lines.

Fixpoint websiteLoop (env : CycleEnv) (i : nat) (cfgs : list WebsiteCfg)
    (lines : list string) : M (list string) :=
  match cfgs with
  | [] => ret lines
  | cfg :: rest =>
      lines' <- websiteBody env i cfg lines ;;
      websiteLoop env (S i) rest lines'
  end.

(** [(cfg.protocol || "tcp").toLowerCase()]: a protocol that is truthy and
    not a string has no [toLowerCase], the call throws. *)
Definition protoOf (cfg : PortCfg) : M string :=
  match Js.or (p_protocol cfg) (JStr "tcp") with
  | JStr s => ret (toLowerCase s)
  | _ => throw "TypeError: toLowerCase is not a function"
  end.

Definition unknownProtocol (cfg : PortCfg) (proto : string) : string :=
  "❓ **" +:+ strOr (p_name cfg) "Unbenannt" +:+ "** – unbekanntes Protokoll: "
  +:+ proto.

(** The body of the [for] loop over [PORTS]; [i] is the position of [cfg]. *)
Definition portBody (env : CycleEnv) (i : nat) (cfg : PortCfg)
    (lines : list string) : M (list string) :=
  proto <- protoOf cfg ;;
  res <-
    (if String.eqb proto "tcp" then
       act (emit (CallCheckTcpPort i)) ;;;
       match checkTcpPort cfg (tcp_net env i) with
       | Some (_, TcpResolved msg) => ret msg
       | Some (_, TcpRejected err) => throw err
       | None => never
       end
     else if String.eqb proto "udp" then
       act (emit (CallCheckUdpPort i)) ;;;
       match udpResult (checkUdpPort cfg (udp_net env i)) with
       | Some msg => ret msg
       | None => never
       end
     else ret (unknownProtocol cfg proto)) ;;
  ret (lines ++ ["- " +:+ res]).

Fixpoint portLoop (env : CycleEnv) (i : nat) (cfgs : list PortCfg)
    (lines : list string) : M (list string) :=
  match cfgs with
  | [] => ret lines
  | cfg :: rest =>
      lines' <- portBody env i cfg lines ;;
      portLoop env (S i) rest lines'
  end.

(** The edit-or-recreate step at the end of the cycle. *)
Definition pushReport (env : CycleEnv) (content : string) : M unit :=
  sm <- gets statusMessage ;;
  match sm with
  | None =>
      ensureOwner (report_fetchOwner env) ;;;
      m <- ownerSend content (report_send env) ;;
      act (setStatusMessage (Some m))
  | Some m0 =>
      tryCatch
        (messageEdit m0 content (report_edit env))
        (fun _ =>
           ensureOwner (report_fetchOwner env) ;;;
           m <- ownerSend content (report_send env) ;;
           act (setStatusMessage (Some m)))
  end.

(** The first part of the [try] block of [doMonitoringCycle]: run the
    checks and assemble [content = lines.join("\n")]. *)
Definition buildReport (c : Config) (env : CycleEnv) : M string :=
  let lines : list string := [] in
  lines <-
    (if (0 <? length (WEBSITES c))%nat then
       l <- websiteLoop env 0 (WEBSITES c)
              (lines ++ ["📡 **Webseiten-Status:**"]) ;;
       ret (l ++ [""])
     else ret lines) ;;
  lines <-
    (if (0 <? length (PORTS c))%nat then
       l <- portLoop env 0 (PORTS c) (lines ++ ["🔌 **Port-Status:**"]) ;;
       ret (l ++ [""])
     else ret lines) ;;
  let lines :=
    lines
    ++ ["⏱️ Nächster Check in " +:+ pretty (roundDiv1000 (CHECK_INTERVAL_MS c))
        +:+ " Sekunden."]
    ++ ["⏱️ Letzter Check um " +:+ now env] in
  ret (String.concat nl lines).

(** The [try] block of [doMonitoringCycle]. *)
Definition cycleBody (c : Config) (env : CycleEnv) : M unit :=
  content <- buildReport c env ;;
  pushReport env content.

(** [doMonitoringCycle()] *)
Definition doMonitoringCycle (c : Config) (env : CycleEnv) : M unit :=
  tryCatch (cycleBody c env)
    (fun _ => act (emit (ConsoleError "Fehler im Monitoring-Cycle:"))).

(** ** Start-up and the sequence of cycles *)

Record ReadyEnv : Type := {
  ready_fetchOwner : option User;
  ready_send : option Msg
}.

Definition greeting (c : Config) : string :=
  "👋 Hi! Ich überwache jetzt " +:+ pretty (length (WEBSITES c))
  +:+ " Webseiten und " +:+ pretty (length (PORTS c)) +:+ " Ports für dich."
  +:+ nl +:+ "Intervall: " +:+ pretty (roundDiv1000 (CHECK_INTERVAL_MS c))
  +:+ " Sekunden." +:+ nl
  +:+ "Ich schicke dir zusätzlich eine PN, wenn ein SSL-/Zertifikatsproblem oder eine Seite nicht erreichbar ist.".

(** The [try] block of the ["ready"] handler, before the first check. *)
Definition startup (c : Config) (renv : ReadyEnv) : M unit :=
  tryCatch
    (u <- usersFetch (ready_fetchOwner renv) ;;
     act (setOwnerUser (Some u)) ;;;
     act (emit DeleteOldBotMessages) ;;;
     m <- ownerSend (greeting c) (ready_send renv) ;;
     act (setStatusMessage (Some m)))
    (fun _ => act (emit (ConsoleError "Konnte DM an Owner nicht schicken:"))).

(** The world a computation leaves behind. *)
Definition exec {A} (m : M A) (w : World) : World := snd (m w).

(** Cycles run one after the other, each on its own environment: the
    first is the direct call of the ["ready"] handler, the later ones are
    the calls of the interval timer.  This is the process as long as every
    cycle has ended when the timer makes its next call; the section on time
    below says when that is so. *)
Definition runCycles (c : Config) (envs : list CycleEnv) (w : World) : World :=
  fold_left (fun w env => exec (doMonitoringCycle c env) w) envs w.

(** The process from the ["ready"] event on. *)
Definition onReady (c : Config) (renv : ReadyEnv) (envs : list CycleEnv)
    : World :=
  runCycles c envs (exec (startup c renv) initialWorld).

(** * Observations on runs *)

(** Predicates and measures on traces and computations, in which the
    properties below are stated. *)

(** What a run has resolved with, in terms of the events delivered. *)
Definition udpExplained (cfg : PortCfg) (evs : list UdpEvent) (m : string)
    : Prop :=
  m = udpSentNoResponse cfg
  \/ (exists err, In (UdpSocketError err) evs /\ m = udpSocketFailed cfg err)
  \/ (exists err, In (UdpSendCallback (Some err)) evs
                  /\ m = udpSendFailed cfg err).

(** The invariant of the closure state. *)
Definition udpInv (cfg : PortCfg) (evs : list UdpEvent) (r : UdpRun) : Prop :=
  if finished r
  then closes r = 1%nat /\ exists m, resolved r = [m] /\ udpExplained cfg evs m
  else closes r = 0%nat /\ resolved r = [].

(** The calls of the two alert functions. *)
Definition isAlert (e : Effect) : bool :=
  match e with
  | CallProblemAlert _ _ _ | CallRecoveryAlert _ _ _ => true
  | _ => false
  end.

(** A call of the problem (recovery) alert from iteration [j]. *)
Definition isProblemCall (j : nat) (e : Effect) : bool :=
  match e with
  | CallProblemAlert i _ _ => Nat.eqb i j
  | _ => false
  end.

Definition isRecoveryCall (j : nat) (e : Effect) : bool :=
  match e with
  | CallRecoveryAlert i _ _ => Nat.eqb i j
  | _ => false
  end.

(** How often the problem (recovery) alert was invoked for the website at
    index [j]. *)
Definition problemCalls (j : nat) (tr : list Effect) : nat :=
  length (List.filter (isProblemCall j) tr).

Definition recoveryCalls (j : nat) (tr : list Effect) : nat :=
  length (List.filter (isRecoveryCall j) tr).

(** The effects of [w'] that were added to those of [w]. *)
Definition newTrace (w w' : World) : list Effect :=
  drop (length (trace w)) (trace w').

(** Computations that, whatever their outcome, only add effects that
    satisfy [P] to the trace. *)
Definition emitsOnly {A} (P : Effect -> Prop) (m : M A) : Prop :=
  forall w, exists new,
    trace (snd (m w)) = trace w ++ new /\ Forall P new.

(** An effect that is no call of an alert function. *)
Definition quiet (e : Effect) : Prop := isAlert e = false.

(** Computations that leave [statusMessage] alone. *)
Definition keepsHandle {A} (m : M A) : Prop :=
  forall w, statusMessage (snd (m w)) = statusMessage w.

(** The edit-or-recreate step inside the [try] of the cycle. *)
Definition reportStep (env : CycleEnv) (content : string) : M unit :=
  tryCatch (pushReport env content)
    (fun _ => act (emit (ConsoleError "Fehler im Monitoring-Cycle:"))).

(** The owner is known, or can be fetched. *)
Definition ownerAvailable (env : CycleEnv) (w : World) : Prop :=
  ownerUser w <> None \/ report_fetchOwner env <> None.

(** * Sample configurations and environments *)

(** Concrete inputs at which the properties are instantiated. *)

(** A certificate failure that Node reports for a chain that contains a
    self-signed certificate. *)
Definition selfSignedInChain : FetchError :=
  {| err_code := Some "SELF_SIGNED_CERT_IN_CHAIN";
     err_name := Some "FetchError";
     err_message := "request to https://selfsigned.example/ failed, reason: self signed certificate in certificate chain" |}.

Definition siteSelfSigned : WebsiteCfg :=
  {| w_name := Some "S"; w_url := "https://selfsigned.example/";
     w_verifyTls := None; w_timeoutMs := JUndefined; w_id := None |}.

Definition sitePlain : WebsiteCfg :=
  {| w_name := Some "P"; w_url := "http://plain.example";
     w_verifyTls := None; w_timeoutMs := JUndefined; w_id := None |}.

Definition portSsh : PortCfg :=
  {| p_name := Some "B"; p_host := "x"; p_port := 22;
     p_protocol := JUndefined; p_timeoutMs := JUndefined |}.

(** Node accepts the arguments; the sockets behave as [events] says. *)
Definition accepted (events : Z -> TcpEvent) : TcpNet :=
  {| tcp_refusal := None; tcp_event := events |}.





(** A port entry with a time-out that [socket.setTimeout] does not accept,
    and what Node does with it. *)
Definition portNegativeTimeout : PortCfg :=
  {| p_name := Some "B"; p_host := "x"; p_port := 22;
     p_protocol := JUndefined; p_timeoutMs := JNum (-1) |}.

Definition netBadTimeout : TcpNet :=
  {| tcp_refusal := Some (RefusesSetTimeout "ERR_OUT_OF_RANGE");
     tcp_event := fun _ => TcpConnect |}.

Definition netBadPort : TcpNet :=
  {| tcp_refusal := Some (RefusesConnect "ERR_SOCKET_BAD_PORT");
     tcp_event := fun _ => TcpConnect |}.

Definition portDns : PortCfg :=
  {| p_name := Some "DNS"; p_host := "resolver.example"; p_port := 53;
     p_protocol := JStr "Udp"; p_timeoutMs := JNum 0 |}.

Definition hostUnreachable : SockError :=
  {| se_code := Some "EHOSTUNREACH";
     se_message := "send EHOSTUNREACH 192.0.2.1:53" |}.

Definition siteZeroTimeout : WebsiteCfg :=
  {| w_name := Some "Z"; w_url := "https://zero.example";
     w_verifyTls := None; w_timeoutMs := JNum 0; w_id := None |}.

Definition portIcmp : PortCfg :=
  {| p_name := Some "Ping"; p_host := "x"; p_port := 7;
     p_protocol := JStr "ICMP"; p_timeoutMs := JUndefined |}.

Definition portUpper : PortCfg :=
  {| p_name := Some "Web"; p_host := "x"; p_port := 443;
     p_protocol := JStr "TCP"; p_timeoutMs := JUndefined |}.

(** An environment in which every probe succeeds and Discord accepts every
    call. *)
Definition envAllUp : CycleEnv :=
  {| net_fetch := fun _ => Responded 200;
     alert_fetchOwner := fun _ => Some {| user_id := "owner" |};
     alert_send := fun i => Some (100 + i)%nat;
     tcp_net := fun _ => accepted (fun _ => TcpConnect);
     udp_net := fun _ => [UdpSendCallback None; UdpTimerFired];
     now := "1.11.2026, 12:00:00";
     report_edit := true;
     report_fetchOwner := Some {| user_id := "owner" |};
     report_send := Some 1%nat |}.

Definition siteGood : WebsiteCfg :=
  {| w_name := Some "A"; w_url := "https://good.example";
     w_verifyTls := None; w_timeoutMs := JUndefined; w_id := None |}.

Definition configAB : Config :=
  {| ownerId := "owner"; checkIntervalMs := None;
     websites := [siteGood]; ports := [portSsh] |}.

Definition certExpired : FetchError :=
  {| err_code := Some "CERT_HAS_EXPIRED"; err_name := Some "FetchError";
     err_message := "certificate has expired" |}.

(** The environment of a cycle in which the website presents an expired
    certificate. *)
Definition envCertExpired : CycleEnv :=
  {| net_fetch := fun _ => Rejected certExpired;
     alert_fetchOwner := alert_fetchOwner envAllUp;
     alert_send := alert_send envAllUp;
     tcp_net := tcp_net envAllUp;
     udp_net := udp_net envAllUp;
     now := "1.11.2026, 12:10:00";
     report_edit := true;
     report_fetchOwner := report_fetchOwner envAllUp;
     report_send := Some 2%nat |}.

Definition siteConstructor : WebsiteCfg :=
  {| w_name := Some "A"; w_url := "https://good.example";
     w_verifyTls := None; w_timeoutMs := JUndefined;
     w_id := Some "constructor" |}.

Definition configConstructor : Config :=
  {| ownerId := "owner"; checkIntervalMs := None;
     websites := [siteConstructor]; ports := [] |}.

Definition owner : User := {| user_id := "owner" |}.

Definition readyOk : ReadyEnv :=
  {| ready_fetchOwner := Some owner; ready_send := Some 0%nat |}.

Definition readySendFails : ReadyEnv :=
  {| ready_fetchOwner := Some owner; ready_send := None |}.

(** The edit of the status message fails (it was deleted); the new message
    is accepted. *)
Definition envEditFails : CycleEnv :=
  {| net_fetch := net_fetch envAllUp;
     alert_fetchOwner := alert_fetchOwner envAllUp;
     alert_send := alert_send envAllUp;
     tcp_net := tcp_net envAllUp;
     udp_net := udp_net envAllUp;
     now := now envAllUp;
     report_edit := false;
     report_fetchOwner := Some owner;
     report_send := Some 2%nat |}.

(** The edit fails, and so does the send of the new message. *)
Definition envEditAndSendFail : CycleEnv :=
  {| net_fetch := net_fetch envAllUp;
     alert_fetchOwner := alert_fetchOwner envAllUp;
     alert_send := alert_send envAllUp;
     tcp_net := tcp_net envAllUp;
     udp_net := udp_net envAllUp;
     now := now envAllUp;
     report_edit := false;
     report_fetchOwner := Some owner;
     report_send := None |}.

Definition worldAfter (renv : ReadyEnv) : World :=
  exec (startup configAB renv) initialWorld.

Definition reportOf (env : CycleEnv) (w : World) : string :=
  match fst (buildReport configAB env w) with
  | Return content => content
  | _ => ""
  end.

(** A second entry for the same URL, with an empty [id]. *)
Definition siteTwin : WebsiteCfg :=
  {| w_name := Some "B"; w_url := "https://good.example";
     w_verifyTls := None; w_timeoutMs := JUndefined; w_id := Some "" |}.

(** * Further observations *)

(** A decimal digit; a string of decimal digits. *)
Definition isDigit (c : ascii) : bool :=
  let n := N_of_ascii c in ((48 <=? n) && (n <=? 57))%N.

Fixpoint allDigits (s : string) : bool :=
  match s with
  | EmptyString => true
  | String c r => isDigit c && allDigits r
  end.

(** The configuration gives the website no usable [id]: [cfg.id] is absent
    or empty, so [getWebsiteKey] falls back to the index and the URL. *)
Definition hasNoId (cfg : WebsiteCfg) : bool :=
  match w_id cfg with
  | None => true
  | Some s => String.eqb s ""
  end.

(** No two websites of the list have the same key. *)
Definition keysDistinct (cfgs : list WebsiteCfg) : Prop :=
  forall k k' cfg cfg',
    cfgs !! k = Some cfg -> cfgs !! k' = Some cfg' ->
    getWebsiteKey cfg k = getWebsiteKey cfg' k' -> k = k'.

(** Computations that leave the observation [f] of the world alone. *)
Definition preserves {A B} (f : World -> B) (m : M A) : Prop :=
  forall w, f (snd (m w)) = f w.

(** What [doMonitoringCycle] does once the website section of the report
    is complete: the port section, the footer, the report, inside the
    [try] of the cycle. *)
Definition afterWebsites (c : Config) (env : CycleEnv) (lines : list string)
    : M unit :=
  tryCatch
    (content <-
       (lines0 <-
          (if (0 <? length (PORTS c))%nat then
             l <- portLoop env 0 (PORTS c) (lines ++ ["🔌 **Port-Status:**"]) ;;
             ret (l ++ [""])
           else ret lines) ;;
        ret (String.concat nl
               (lines0
                ++ ["⏱️ Nächster Check in "
                    +:+ pretty (roundDiv1000 (CHECK_INTERVAL_MS c))
                    +:+ " Sekunden."]
                ++ ["⏱️ Letzter Check um " +:+ now env]))) ;;
     pushReport env content)
    (fun _ => act (emit (ConsoleError "Fehler im Monitoring-Cycle:"))).

(** The website section of the report: nothing when no website is
    configured, else the heading, the lines of the loop and an empty
    line. *)
Definition websitesPart (c : Config) (env : CycleEnv) : M (list string) :=
  if (0 <? length (WEBSITES c))%nat then
    l <- websiteLoop env 0 (WEBSITES c) ([] ++ ["📡 **Webseiten-Status:**"]) ;;
    ret (l ++ [""])
  else ret [].

(** The texts of the direct messages sent, in order. *)
Definition sentDMs (tr : list Effect) : list string :=
  omap (fun e => match e with SendDM content => Some content | _ => None end) tr.

(** The owner after a step that fetches the owner when it is not known. *)
Definition ownerAfter (w : World) (fetchRes : option User) : option User :=
  match ownerUser w with
  | Some u => Some u
  | None => fetchRes
  end.

(** Computations that keep a property of the world, whatever their
    outcome. *)
Definition keeps {A} (I : World -> Prop) (m : M A) : Prop :=
  forall w, I w -> I (snd (m w)).

(** The owner is [u], and since the trace was [tr0] the owner was not
    fetched. *)
Definition ownerKnown (u : User) (tr0 : list Effect) (w : World) : Prop :=
  ownerUser w = Some u /\
  exists new, trace w = tr0 ++ new /\ Forall (fun e => e <> FetchOwner) new.

(** There is a status message. *)
Definition hasHandle (w : World) : Prop := statusMessage w <> None.

(** A status message is only held together with its owner. *)
Definition handleHasOwner (w : World) : Prop :=
  statusMessage w <> None -> ownerUser w <> None.


(** The operations of an attempt up to and including the call that
    throws. *)
Definition refusedOps (cfg : PortCfg) (r : TcpRefusal) : list TcpOp :=
  match r with
  | RefusesSetTimeout _ =>
      [NewSocket 1; SetTimeout 1 (checkTcpPort_timeoutMs cfg)]
  | RefusesConnect _ =>
      [NewSocket 1; SetTimeout 1 (checkTcpPort_timeoutMs cfg);
       Connect 1 (p_port cfg) (p_host cfg)]
  end.

Definition refusalError (r : TcpRefusal) : string :=
  match r with
  | RefusesSetTimeout err | RefusesConnect err => err
  end.

(** What the UDP probe has seen when it may report that the packet was
    sent: a send callback without error, and later a timer. *)
Definition sentThenTimer (evs : list UdpEvent) : Prop :=
  exists pre mid post,
    evs = pre ++ UdpSendCallback None :: mid ++ UdpTimerFired :: post.

(** The report line of the website at index [i]. *)
Definition websiteLine (env : CycleEnv) (i : nat) (cfg : WebsiteCfg) : string :=
  "- " +:+ text (checkWebsite cfg (net_fetch env i)).

(** The website section of the report. *)
Definition websiteSection (c : Config) (env : CycleEnv) : list string :=
  match WEBSITES c with
  | [] => []
  | _ => "📡 **Webseiten-Status:**" :: imap (websiteLine env) (WEBSITES c) ++ [""]
  end.

(** The port section of the report, given the results of the entries. *)
Definition portSection (c : Config) (msgs : list string) : list string :=
  match PORTS c with
  | [] => []
  | _ => "🔌 **Port-Status:**" :: map (fun m => "- " +:+ m) msgs ++ [""]
  end.

(** The two lines that end every report. *)
Definition footer (c : Config) (env : CycleEnv) : list string :=
  ["⏱️ Nächster Check in " +:+ pretty (roundDiv1000 (CHECK_INTERVAL_MS c))
   +:+ " Sekunden.";
   "⏱️ Letzter Check um " +:+ now env].

(** A port entry whose [protocol] is truthy and not a string: the call of
    [toLowerCase] on it throws. *)
Definition isBadProtocol (cfg : PortCfg) : bool :=
  match Js.or (p_protocol cfg) (JStr "tcp") with
  | JStr _ => false
  | _ => true
  end.

(** The loop goes on after the entry at position [i]: its protocol is a
    string, and the probe chosen for it, if any, resolves. *)
Definition passes (env : CycleEnv) (i : nat) (cfg : PortCfg) : bool :=
  match Js.or (p_protocol cfg) (JStr "tcp") with
  | JStr s =>
      if String.eqb (toLowerCase s) "tcp" then
        match checkTcpPort cfg (tcp_net env i) with
        | Some (_, TcpResolved _) => true
        | _ => false
        end
      else if String.eqb (toLowerCase s) "udp" then
        match udpResult (checkUdpPort cfg (udp_net env i)) with
        | Some _ => true
        | None => false
        end
      else true
  | _ => false
  end.

(** A TCP entry, at position [i], whose probe is rejected. *)
Definition isRejectedTcp (env : CycleEnv) (i : nat) (cfg : PortCfg) : bool :=
  match Js.or (p_protocol cfg) (JStr "tcp") with
  | JStr s =>
      String.eqb (toLowerCase s) "tcp" &&
      match checkTcpPort cfg (tcp_net env i) with
      | Some (_, TcpRejected _) => true
      | _ => false
      end
  | _ => false
  end.

(** The call of a probe that belongs to the entry at position [i]: of the
    TCP probe, of the UDP probe, or none for another protocol. *)
Definition probeCall (i : nat) (cfg : PortCfg) : list Effect :=
  match Js.or (p_protocol cfg) (JStr "tcp") with
  | JStr s =>
      if String.eqb (toLowerCase s) "tcp" then [CallCheckTcpPort i]
      else if String.eqb (toLowerCase s) "udp" then [CallCheckUdpPort i]
      else []
  | _ => []
  end.

(** The probe calls of the entries [cfgs], which start at position [i]. *)
Fixpoint probeCalls (i : nat) (cfgs : list PortCfg) : list Effect :=
  match cfgs with
  | [] => []
  | cfg :: rest => probeCall i cfg ++ probeCalls (S i) rest
  end.

(** A call of a port probe. *)
Definition isProbeCall (e : Effect) : bool :=
  match e with
  | CallCheckTcpPort _ | CallCheckUdpPort _ => true
  | _ => false
  end.

(** Effects that belong to the website loop and the alerts: no edit of the
    status message, no call of a port probe. *)
Definition isWebsiteEffect (e : Effect) : bool :=
  match e with
  | EditMsg _ _ | CallCheckTcpPort _ | CallCheckUdpPort _ => false
  | _ => true
  end.

(** A port entry with a numeric protocol, between two TCP entries. *)
Definition portNumeric : PortCfg :=
  {| p_name := Some "N"; p_host := "x"; p_port := 80;
     p_protocol := JNum 6; p_timeoutMs := JUndefined |}.

Definition configBadPort : Config :=
  {| ownerId := "owner"; checkIntervalMs := None;
     websites := [siteGood]; ports := [portSsh; portDns; portNumeric; portUpper] |}.

(** A configuration whose second port entry has a time-out that Node
    refuses, and the environment in which Node does so. *)
Definition configBadTimeout : Config :=
  {| ownerId := "owner"; checkIntervalMs := None;
     websites := [siteGood]; ports := [portSsh; portNegativeTimeout; portUpper] |}.

Definition envBadTimeout : CycleEnv :=
  {| net_fetch := net_fetch envAllUp;
     alert_fetchOwner := alert_fetchOwner envAllUp;
     alert_send := alert_send envAllUp;
     tcp_net := fun i => if Nat.eqb i 1 then netBadTimeout else tcp_net envAllUp i;
     udp_net := udp_net envAllUp;
     now := now envAllUp;
     report_edit := true;
     report_fetchOwner := Some owner;
     report_send := Some 2%nat |}.

(** * Time: the interval timer and the length of a cycle *)

(** The engine is one thread: its own computation is taken to need no
    time, what takes time are the calls it awaits.  These are the effects
    behind which a cycle awaits something: the three probes and the calls
    of Discord. *)
Definition isAwaited (e : Effect) : bool :=
  match e with
  | CallCheckWebsite _ | CallCheckTcpPort _ | CallCheckUdpPort _
  | FetchOwner | SendDM _ | EditMsg _ _ => true
  | _ => false
  end.

(** The time the awaited calls of a trace take: [lat p] is the number of
    milliseconds until the call recorded at position [p] settles. *)
Fixpoint elapsed (lat : nat -> Z) (p : nat) (tr : list Effect) : Z :=
  match tr with
  | [] => 0
  | e :: rest => (if isAwaited e then lat p else 0) + elapsed lat (S p) rest
  end.

(** [setInterval(doMonitoringCycle, CHECK_INTERVAL_MS)]: the delay between
    two calls; Node replaces a delay below 1 or above 2^31 - 1 by 1. *)
Definition timerDelay (c : Config) : Z :=
  let d := CHECK_INTERVAL_MS c in
  if (1 <=? d) && (d <=? 2147483647) then d else 1.

(** The time of the [k]-th call of [doMonitoringCycle] by the timer
    ([k] = 1, 2, ...) when [setInterval] was called at [t0].  The call
    returns at the first [await] of the cycle with a promise that the
    timer drops: neither the handler nor [doMonitoringCycle] holds a flag
    or a lock that would make a call wait for the cycle before it. *)
Definition timerCall (c : Config) (t0 : Z) (k : nat) : Z :=
  t0 + Z.of_nat k * timerDelay c.

(** The time at which a cycle that is called at [start] in the world [w]
    has run to its end; [None] when it awaits a promise that never
    settles. *)
Definition cycleEnd (c : Config) (env : CycleEnv) (lat : nat -> Z) (w : World)
    (start : Z) : option Z :=
  match doMonitoringCycle c env w with
  | (Pending, _) => None
  | (_, w') => Some (start + elapsed lat 0 (newTrace w w'))
  end.

(** A cycle that ends at [fin] has not ended at time [t]. *)
Definition runningAt (fin : option Z) (t : Z) : Prop :=
  match fin with
  | Some e => t < e
  | None => True
  end.

(** The cycle of the [k]-th call of the timer, called in the world [w], is
    still running when the timer makes its next call. *)
Definition overlapsNext (c : Config) (env : CycleEnv) (lat : nat -> Z)
    (w : World) (t0 : Z) (k : nat) : Prop :=
  runningAt (cycleEnd c env lat w (timerCall c t0 k)) (timerCall c t0 (S k)).

(** A configuration checked every second, and latencies with which the
    first awaited call of a cycle takes two seconds and every other call
    a tenth of a second. *)
Definition configEverySecond : Config :=
  {| ownerId := "owner"; checkIntervalMs := Some 1000;
     websites := [siteGood]; ports := [] |}.

Definition latSlowFetch (p : nat) : Z :=
  match p with
  | O => 2000
  | _ => 100
  end.

(** * The clean-up at start: [deleteOldBotMessages] *)

(** A message of the DM channel: its id (a snowflake, larger is newer) and
    the id of its author. *)
Record Message : Type := {
  msg_id : N;
  msg_author : string
}.

(** The outcomes of what the clean-up awaits: the fetch of the owner,
    [createDM], the [k]-th call of [dm.messages.fetch], and the deletion of
    the message with a given id. *)
Record CleanupEnv : Type := {
  cl_fetchOwner : option User;
  cl_createDM : bool;
  cl_fetchOk : nat -> bool;
  cl_deleteOk : N -> bool
}.

Inductive CleanupEffect : Type :=
| ClFetchOwner
| ClCreateDM
| ClFetchMessages (before : option N)
| ClDelete (id : N)
| ClError (what : string)
| ClLog (deleted : nat).

(** The owner variable, the messages in the channel (newest first), and
    the trace of the clean-up. *)
Record CleanupState : Type := {
  cl_owner : option User;
  cl_channel : list Message;
  cl_trace : list CleanupEffect
}.

Definition clEmit (e : CleanupEffect) (st : CleanupState) : CleanupState :=
  {| cl_owner := cl_owner st; cl_channel := cl_channel st;
     cl_trace := cl_trace st ++ [e] |}.

Definition olderThan (before : option N) (m : Message) : bool :=
  match before with
  | Some b => (msg_id m <? b)%N
  | None => true
  end.

(** [dm.messages.fetch({ limit: 100, before })]: the newest 100 of the
    messages of the channel with an id below [before]. *)
Definition fetchPage (chan : list Message) (before : option N) : list Message :=
  take 100 (List.filter (olderThan before) chan).

(** A successful [msg.delete()]: the message with that id leaves the
    channel. *)
Definition removeMsg (id : N) (st : CleanupState) : CleanupState :=
  {| cl_owner := cl_owner st;
     cl_channel := List.filter (fun m => negb (msg_id m =? id)%N) (cl_channel st);
     cl_trace := cl_trace st |}.

(** The [for] loop over one page: delete the messages of the bot, count
    the deletions that succeed, log those that fail. *)
Fixpoint deletePage (env : CleanupEnv) (botId : string) (page : list Message)
    (deleted : nat) (st : CleanupState) : nat * CleanupState :=
  match page with
  | [] => (deleted, st)
  | msg :: rest =>
      if String.eqb (msg_author msg) botId then
        let st1 := clEmit (ClDelete (msg_id msg)) st in
        if cl_deleteOk env (msg_id msg) then
          deletePage env botId rest (S deleted) (removeMsg (msg_id msg) st1)
        else
          deletePage env botId rest deleted
            (clEmit (ClError "Konnte Nachricht nicht löschen:") st1)
      else deletePage env botId rest deleted st
  end.

(** How the [while] loop ends: normally with the count, or by a fetch that
    throws. *)
Inductive SweepResult : Type :=
| Swept (deleted : nat)
| FetchThrew.

(** The [while (messages.size > 0)] loop; [k] numbers the calls of
    [dm.messages.fetch].  The loop is not structural, so it is run on
    fuel. *)
Fixpoint sweepLoop (fuel : nat) (env : CleanupEnv) (botId : string) (k : nat)
    (messages : list Message) (deleted : nat) (st : CleanupState)
    : option (SweepResult * CleanupState) :=
  match fuel with
  | O => None
  | S fuel' =>
      match messages with
      | [] => Some (Swept deleted, st)
      | _ :: _ =>
          let '(deleted', st1) := deletePage env botId messages deleted st in
          let before := msg_id <$> last messages in
          let st2 := clEmit (ClFetchMessages before) st1 in
          if cl_fetchOk env k then
            sweepLoop fuel' env botId (S k)
              (fetchPage (cl_channel st2) before) deleted' st2
          else Some (FetchThrew, st2)
      end
  end.

Definition cleanupFailed (st : CleanupState) : CleanupState :=
  clEmit (ClError "Fehler beim Löschen der Bot-Nachrichten:") st.

(** [deleteOldBotMessages()], for a bot with user id [botId]; the fuel
    given to the loop is one more than the number of messages in the
    channel. *)
Definition deleteOldBotMessages (env : CleanupEnv) (botId : string)
    (st : CleanupState) : option CleanupState :=
  let afterOwner : option CleanupState :=
    match cl_owner st with
    | Some _ => Some st
    | None =>
        let st1 := clEmit ClFetchOwner st in
        match cl_fetchOwner env with
        | Some u =>
            Some {| cl_owner := Some u; cl_channel := cl_channel st1;
                    cl_trace := cl_trace st1 |}
        | None => None
        end
    end in
  match afterOwner with
  | None => Some (cleanupFailed (clEmit ClFetchOwner st))
  | Some st1 =>
      let st2 := clEmit ClCreateDM st1 in
      if negb (cl_createDM env) then Some (cleanupFailed st2)
      else
        let st3 := clEmit (ClFetchMessages None) st2 in
        if negb (cl_fetchOk env 0) then Some (cleanupFailed st3)
        else
          match sweepLoop (S (length (cl_channel st3))) env botId 1
                  (fetchPage (cl_channel st3) None) 0 st3 with
          | Some (Swept deleted, st4) => Some (clEmit (ClLog deleted) st4)
          | Some (FetchThrew, st4) => Some (cleanupFailed st4)
          | None => None
          end
  end.

(** The ids on which [msg.delete()] was called, in order. *)
Definition deleteCalls (tr : list CleanupEffect) : list N :=
  omap (fun e => match e with ClDelete id => Some id | _ => None end) tr.

(** The message is one of the bot. *)
Definition isBot (botId : string) (m : Message) : bool :=
  String.eqb (msg_author m) botId.

(** The message is still there after a sweep: it is not the bot's, or its
    deletion fails. *)
Definition survives (env : CleanupEnv) (botId : string) (m : Message) : bool :=
  negb (isBot botId m && cl_deleteOk env (msg_id m)).

(** The channel lists its messages newest first, ids strictly falling. *)
Fixpoint descending (l : list Message) : Prop :=
  match l with
  | [] => True
  | m :: r => (forall x, In x r -> (msg_id x < msg_id m)%N) /\ descending r
  end.

(** Everything the clean-up awaits succeeds, except possibly deletions. *)
Definition cleanupReachable (env : CleanupEnv) (st : CleanupState) : Prop :=
  (cl_owner st <> None \/ cl_fetchOwner env <> None) /\
  cl_createDM env = true /\
  forall k, cl_fetchOk env k = true.

(** What a run of the clean-up keeps, relative to the channel [chan0] it
    started on: [msg.delete()] was only called on messages of the bot, and
    a message whose id no message of the bot carries is still there. *)
Definition cleanupSafe (botId : string) (chan0 : list Message)
    (tr0 : list CleanupEffect) (st : CleanupState) : Prop :=
  (forall m, In m (cl_channel st) -> In m chan0) /\
  (exists new, cl_trace st = tr0 ++ new /\
     forall id, In id (deleteCalls new) ->
       exists m, In m chan0 /\ msg_id m = id /\ isBot botId m = true) /\
  (forall m, In m chan0 ->
     (forall m', In m' chan0 -> msg_id m' = msg_id m -> isBot botId m' = false) ->
     In m (cl_channel st)).

(** A channel of three messages, newest first, to run the clean-up on. *)
Definition chanThree : list Message :=
  [{| msg_id := 30; msg_author := "bot" |};
   {| msg_id := 20; msg_author := "owner" |};
   {| msg_id := 10; msg_author := "bot" |}].

(** Discord accepts everything, except the deletion of message 10. *)
Definition envKeeps10 : CleanupEnv :=
  {| cl_fetchOwner := Some owner; cl_createDM := true;
     cl_fetchOk := fun _ => true;
     cl_deleteOk := fun id => negb (id =? 10)%N |}.

Definition cleanupStart (chan : list Message) : CleanupState :=
  {| cl_owner := None; cl_channel := chan; cl_trace := [] |}.

Definition afterCleanup (env : CleanupEnv) (chan : list Message) : CleanupState :=
  default (cleanupStart chan)
    (deleteOldBotMessages env "bot" (cleanupStart chan)).

(** * Properties *)

(** ** Strings *)

Lemma append_cons (x : ascii) (a b : string) :
  String x a +:+ b = String x (a +:+ b).
Proof. reflexivity. Qed.

Lemma append_assoc (a b c : string) : (a +:+ b) +:+ c = a +:+ (b +:+ c).
Proof.
  induction a as [|x a IH]; [reflexivity |].
  rewrite !append_cons. now rewrite IH.
Qed.

Lemma append_inv_head (p a b : string) : p +:+ a = p +:+ b -> a = b.
Proof.
  induction p as [|x p IH]; intros E; [exact E |].
  rewrite !append_cons in E. injection E as E. now apply IH.
Qed.

(** A lower-case literal prefix is also a prefix of the lower-cased
    string. *)
Lemma prefix_toLowerCase (p s : string) :
  toLowerCase p = p -> String.prefix p s = true ->
  String.prefix p (toLowerCase s) = true.
Proof.
  revert s. induction p as [|x p IH]; intros s Hp H.
  - now destruct s.
  - destruct s as [|y s]; [discriminate |].
    cbn [toLowerCase] in Hp. injection Hp as Hx Hp.
    cbn [toLowerCase String.prefix] in *.
    destruct (Ascii.ascii_dec x y) as [<-|]; [| discriminate].
    rewrite Hx. destruct (Ascii.ascii_dec x x); [| congruence].
    now apply IH.
Qed.

(** ** JavaScript values *)

(** The falsy values are [undefined], [null], [false], [0] and [""]. *)
Lemma truthy_false_iff (v : JsVal) :
  truthy v = false <->
  v = JUndefined \/ v = JNull \/ v = JBool false \/ v = JNum 0 \/ v = JStr "".
Proof.
  split.
  - destruct v as [| |b|n|s]; simpl; intros H; auto.
    + destruct b; [discriminate | auto].
    + apply negb_false_iff, Z.eqb_eq in H. subst. auto 6.
    + apply negb_false_iff, String.eqb_eq in H. subst. auto 6.
  - intros [->|[->|[->|[->| ->]]]]; reflexivity.
Qed.

Lemma or_falsy (v d : JsVal) : truthy v = false -> Js.or v d = d.
Proof. unfold Js.or. now intros ->. Qed.

Lemma or_truthy (v d : JsVal) : truthy v = true -> Js.or v d = v.
Proof. unfold Js.or. now intros ->. Qed.

(** ** The HTTP probe *)

Lemma checkWebsite_tls (cfg : WebsiteCfg) (err : FetchError) :
  isTlsErrorCode err = true ->
  state (checkWebsite cfg (Rejected err)) = tls_error.
Proof. unfold checkWebsite. now intros ->. Qed.

Lemma checkWebsite_rejected_not_tls (cfg : WebsiteCfg) (err : FetchError) :
  isTlsErrorCode err = false ->
  state (checkWebsite cfg (Rejected err)) = down.
Proof.
  unfold checkWebsite. intros ->.
  now destruct (String.eqb _ "AbortError").
Qed.

Lemma checkWebsite_abort (cfg : WebsiteCfg) (err : FetchError) :
  isTlsErrorCode err = false -> err_name err = Some "AbortError" ->
  checkWebsite cfg (Rejected err) =
  {| text := "⏱️ **" +:+ strOr (w_name cfg) "Unbenannt" +:+ "** ("
             +:+ w_url cfg +:+ ") – Timeout nach "
             +:+ Js.toString (checkWebsite_timeoutMs cfg) +:+ "ms";
     state := down |}.
Proof. unfold checkWebsite. now intros -> ->. Qed.

(** C3 (evaluation at the failing input): a self-signed certificate in
    the chain is a certificate-validation failure, yet its code neither
    starts with [CERT_] nor is one of the two codes compared for equality,
    so the probe falls through to the last rule and classifies the website
    as [down], with the message of a generic transport failure, instead of
    [tls_error]. *)
Theorem checkWebsite_self_signed_in_chain_is_down :
  isTlsErrorCode selfSignedInChain = false /\
  checkWebsite siteSelfSigned (Rejected selfSignedInChain) =
  {| text := "❌ **S** (https://selfsigned.example/) – Fehler: FetchError: request to https://selfsigned.example/ failed, reason: self signed certificate in certificate chain";
     state := down |}.
Proof. split; reflexivity. Qed.

(** The status test of the probe is the range of the 2xx and 3xx
    codes. *)
Lemma inOkRange_spec (status : Z) :
  inOkRange status = true <-> 200 <= status < 400.
Proof. unfold inOkRange. rewrite andb_true_iff, Z.leb_le, Z.ltb_lt. tauto. Qed.

(** C4: when a response arrives for a URL whose scheme is plain [http://]
    (in any letter case), the state is [down] whatever the status is, so
    never [ok].  The message tells a 2xx/3xx status from any other: for a
    status from 200 to 399 it is the warning that ends in "(ohne TLS, evtl.
    unsicher)", for every other status it is the failure that ends in
    "(ohne TLS)"; so the message for a status from 200 to 399 is never that
    for a status outside. *)
Theorem checkWebsite_plain_http_is_down (cfg : WebsiteCfg) (status : Z)
    (Hhttp : startsWith (toLowerCase (w_url cfg)) "http://" = true) :
  state (checkWebsite cfg (Responded status)) = down /\
  state (checkWebsite cfg (Responded status)) <> ok /\
  (200 <= status < 400 ->
     exists mid,
       text (checkWebsite cfg (Responded status))
       = "⚠️ **" +:+ mid +:+ " (ohne TLS, evtl. unsicher)") /\
  (~ 200 <= status < 400 ->
     exists mid,
       text (checkWebsite cfg (Responded status))
       = "❌ **" +:+ mid +:+ " (ohne TLS)") /\
  (forall status' : Z,
     200 <= status < 400 -> ~ 200 <= status' < 400 ->
     text (checkWebsite cfg (Responded status))
     <> text (checkWebsite cfg (Responded status'))).
Proof.
  unfold checkWebsite. rewrite Hhttp.
  split; [now destruct (inOkRange status) |].
  split; [now destruct (inOkRange status) |].
  split; [| split].
  - intros H. apply inOkRange_spec in H. rewrite H. cbn [text].
    exists (strOr (w_name cfg) "Unbenannt" +:+ "** (" +:+ w_url cfg
            +:+ ") – HTTP " +:+ pretty status).
    now rewrite !append_assoc.
  - intros H. rewrite <- inOkRange_spec in H. apply not_true_is_false in H.
    rewrite H. cbn [text].
    exists (strOr (w_name cfg) "Unbenannt" +:+ "** (" +:+ w_url cfg
            +:+ ") – HTTP " +:+ pretty status).
    now rewrite !append_assoc.
  - intros status' H H'. apply inOkRange_spec in H.
    rewrite <- inOkRange_spec in H'. apply not_true_is_false in H'.
    rewrite H, H'. cbn [text]. discriminate.
Qed.

Lemma checkWebsite_plain_http_is_down_witness :
  state (checkWebsite sitePlain (Responded 200)) = down /\
  (exists mid,
     text (checkWebsite sitePlain (Responded 302))
     = "⚠️ **" +:+ mid +:+ " (ohne TLS, evtl. unsicher)") /\
  (exists mid,
     text (checkWebsite sitePlain (Responded 404))
     = "❌ **" +:+ mid +:+ " (ohne TLS)") /\
  text (checkWebsite sitePlain (Responded 200))
  <> text (checkWebsite sitePlain (Responded 199)).
Proof.
  split; [| split; [| split]].
  - apply (checkWebsite_plain_http_is_down sitePlain 200). reflexivity.
  - apply (checkWebsite_plain_http_is_down sitePlain 302); [reflexivity | lia].
  - apply (checkWebsite_plain_http_is_down sitePlain 404); [reflexivity | lia].
  - apply (checkWebsite_plain_http_is_down sitePlain 200); [reflexivity | lia ..].
Defined.

(** A URL that literally starts with [http://] satisfies the test of the
    probe. *)
Lemma literal_http_prefix (url : string) :
  startsWith url "http://" = true ->
  startsWith (toLowerCase url) "http://" = true.
Proof. unfold startsWith. now apply prefix_toLowerCase. Qed.

(** ** The TCP probe *)

(** The recursion of [attempt] stops at depth two: the fuel given by
    [checkTcpPort] is never used up. *)
Lemma checkTcpPort_total (cfg : PortCfg) (net : TcpNet) :
  is_Some (checkTcpPort cfg net).
Proof.
  unfold checkTcpPort. cbn [attempt].
  destruct (tcp_refusal net) as [[e|e]|]; [eauto | eauto |].
  destruct (tcp_event net 1); [eauto | eauto |].
  change (1 =? 1) with true. cbn iota.
  destruct (tcp_event net 2); eauto.
Qed.

(** When Node accepts the arguments the promise is resolved, never
    rejected. *)
Lemma checkTcpPort_resolves (cfg : PortCfg) (net : TcpNet) :
  tcp_refusal net = None ->
  exists ops msg, checkTcpPort cfg net = Some (ops, TcpResolved msg).
Proof.
  intros A. unfold checkTcpPort. cbn [attempt]. rewrite A.
  destruct (tcp_event net 1); [eauto | eauto |].
  change (1 =? 1) with true. cbn iota.
  destruct (tcp_event net 2); eauto.
Qed.

(** When Node refuses an argument the promise is rejected in attempt 1,
    with the error thrown. *)
Lemma checkTcpPort_rejects (cfg : PortCfg) (net : TcpNet) (r : TcpRefusal) :
  tcp_refusal net = Some r ->
  checkTcpPort cfg net = Some (refusedOps cfg r, TcpRejected (refusalError r)).
Proof.
  intros R. unfold checkTcpPort. cbn [attempt]. rewrite R. now destruct r.
Qed.

Lemma tcp_messages_distinct (cfg : PortCfg) (err : SockError) :
  tcpReachable cfg <> tcpUnreachable cfg err /\
  tcpReachable cfg <> tcpTimeoutAfterRetry cfg /\
  tcpUnreachable cfg err <> tcpTimeoutAfterRetry cfg.
Proof.
  unfold tcpReachable, tcpUnreachable, tcpTimeoutAfterRetry.
  repeat split; discriminate.
Qed.



(** ** The UDP probe *)

Lemma udp_info_not_failure (cfg : PortCfg) (err : SockError) :
  udpSentNoResponse cfg <> udpSocketFailed cfg err /\
  udpSentNoResponse cfg <> udpSendFailed cfg err.
Proof.
  unfold udpSentNoResponse, udpSocketFailed, udpSendFailed.
  split; discriminate.
Qed.

Lemma checkUdpPort_snoc (cfg : PortCfg) (evs : list UdpEvent) (ev : UdpEvent) :
  checkUdpPort cfg (evs ++ [ev]) = udpHandle cfg (checkUdpPort cfg evs) ev.
Proof. unfold checkUdpPort. now rewrite fold_left_app. Qed.

(** [done] after [finished] changes nothing: the guard against a second
    resolution. *)
Lemma done_finished (msg : string) (r : UdpRun) :
  finished r = true -> done msg r = r.
Proof. unfold done. now intros ->. Qed.

Lemma udpHandle_finished (cfg : PortCfg) (r : UdpRun) (ev : UdpEvent) :
  finished r = true ->
  finished (udpHandle cfg r ev) = true /\
  resolved (udpHandle cfg r ev) = resolved r /\
  closes (udpHandle cfg r ev) = closes r.
Proof.
  intros F. destruct ev as [err|[err|]|]; cbn [udpHandle].
  - now rewrite done_finished.
  - now rewrite done_finished.
  - now cbn.
  - destruct (pending r); [easy |]. unfold done. cbn. now rewrite F.
Qed.

Lemma udp_finished_stable (cfg : PortCfg) (evs : list UdpEvent) (r : UdpRun) :
  finished r = true ->
  resolved (fold_left (udpHandle cfg) evs r) = resolved r /\
  closes (fold_left (udpHandle cfg) evs r) = closes r.
Proof.
  revert r. induction evs as [|ev evs IH]; intros r F; [easy |].
  cbn [fold_left].
  destruct (udpHandle_finished cfg r ev F) as (F' & R' & C').
  destruct (IH _ F') as [R C]. split; congruence.
Qed.

Lemma udpExplained_snoc cfg evs ev m :
  udpExplained cfg evs m -> udpExplained cfg (evs ++ [ev]) m.
Proof.
  intros [H|[(err & H & E)|(err & H & E)]]; [now left | right; left | right; right];
    exists err; (split; [apply in_or_app; now left | exact E]).
Qed.

Lemma checkUdpPort_inv (cfg : PortCfg) (evs : list UdpEvent) :
  udpInv cfg evs (checkUdpPort cfg evs).
Proof.
  induction evs as [|ev evs IH] using rev_ind; [now cbn |].
  rewrite checkUdpPort_snoc. unfold udpInv in *.
  destruct (finished (checkUdpPort cfg evs)) eqn:F.
  - destruct (udpHandle_finished cfg _ ev F) as (-> & -> & ->).
    destruct IH as (C & m & R & X). split; [exact C |].
    exists m. split; [exact R | now apply udpExplained_snoc].
  - destruct IH as [C R].
    destruct ev as [err|[err|]|]; cbn [udpHandle]; unfold done.
    + rewrite F. cbn. rewrite C, R. split; [reflexivity |].
      eexists. split; [reflexivity |]. right; left. exists err.
      split; [apply in_or_app; right; now left | reflexivity].
    + rewrite F. cbn. rewrite C, R. split; [reflexivity |].
      eexists. split; [reflexivity |]. right; right. exists err.
      split; [apply in_or_app; right; now left | reflexivity].
    + cbn. rewrite F. now split.
    + destruct (pending (checkUdpPort cfg evs)).
      * rewrite F. now split.
      * cbn. rewrite F. cbn. rewrite C, R. split; [reflexivity |].
        eexists. split; [reflexivity |]. now left.
Qed.

(** ** Timeout defaults *)

Lemma checkTcpPort_timeouts (cfg : PortCfg) (net : TcpNet) ops out :
  checkTcpPort cfg net = Some (ops, out) ->
  Forall (eq (checkTcpPort_timeoutMs cfg)) (timeoutsOf ops).
Proof.
  unfold checkTcpPort. cbn [attempt]. change (1 =? 1) with true. cbn iota.
  destruct (tcp_refusal net) as [[e|e]|];
    [| | destruct (tcp_event net 1); [| | destruct (tcp_event net 2)]];
    intros [= <- <-]; cbn; repeat constructor.
Qed.

Lemma udpHandle_armed (cfg : PortCfg) (r : UdpRun) (ev : UdpEvent) :
  Forall (eq (checkUdpPort_timeoutMs cfg)) (armed r) ->
  Forall (eq (checkUdpPort_timeoutMs cfg)) (armed (udpHandle cfg r ev)).
Proof.
  intros H. destruct ev as [err|[err|]|]; cbn [udpHandle]; unfold done.
  - now destruct (finished r).
  - now destruct (finished r).
  - cbn. apply Forall_app. split; [exact H | now constructor].
  - destruct (pending r); [exact H |]. cbn. now destruct (finished r).
Qed.

Lemma checkUdpPort_armed (cfg : PortCfg) (evs : list UdpEvent) :
  Forall (eq (checkUdpPort_timeoutMs cfg)) (armed (checkUdpPort cfg evs)).
Proof.
  induction evs as [|ev evs IH] using rev_ind; [constructor |].
  rewrite checkUdpPort_snoc. now apply udpHandle_armed.
Qed.

(** C9: when [timeoutMs] of an endpoint is falsy (absent, [null], [false],
    [0] or the empty string) the HTTP probe works with 5000 ms and the TCP
    and UDP probes with 3000 ms: these are the values of the abort timer,
    of every socket timeout and of every timer the UDP probe arms.  Absent
    and [0] are falsy, so a configured 0 is never used. *)
Theorem falsy_timeoutMs_uses_default (wcfg : WebsiteCfg) (pcfg : PortCfg)
    (Hw : truthy (w_timeoutMs wcfg) = false)
    (Hp : truthy (p_timeoutMs pcfg) = false) :
  checkWebsite_timeoutMs wcfg = JNum 5000 /\
  head (checkWebsite_setup wcfg) = Some (ArmAbort (JNum 5000)) /\
  checkTcpPort_timeoutMs pcfg = JNum 3000 /\
  (forall net ops msg,
     checkTcpPort pcfg net = Some (ops, msg) ->
     Forall (eq (JNum 3000)) (timeoutsOf ops)) /\
  checkUdpPort_timeoutMs pcfg = JNum 3000 /\
  (forall evs, Forall (eq (JNum 3000)) (armed (checkUdpPort pcfg evs))) /\
  truthy JUndefined = false /\ truthy (JNum 0) = false.
Proof.
  assert (Ew : checkWebsite_timeoutMs wcfg = JNum 5000)
    by (unfold checkWebsite_timeoutMs; now apply or_falsy).
  assert (Et : checkTcpPort_timeoutMs pcfg = JNum 3000)
    by (unfold checkTcpPort_timeoutMs; now apply or_falsy).
  assert (Eu : checkUdpPort_timeoutMs pcfg = JNum 3000)
    by (unfold checkUdpPort_timeoutMs; now apply or_falsy).
  repeat split; try assumption.
  - unfold checkWebsite_setup. now rewrite Ew.
  - intros net ops msg H. rewrite <- Et. eapply checkTcpPort_timeouts, H.
  - intros evs. rewrite <- Eu. apply checkUdpPort_armed.
Qed.

Lemma falsy_timeoutMs_uses_default_witness :
  checkWebsite_timeoutMs siteZeroTimeout = JNum 5000 /\
  checkTcpPort_timeoutMs portSsh = JNum 3000 /\
  checkUdpPort_timeoutMs portSsh = JNum 3000.
Proof.
  destruct (falsy_timeoutMs_uses_default siteZeroTimeout portSsh
              eq_refl eq_refl) as (Hw & _ & Ht & _ & Hu & _).
  repeat split; assumption.
Defined.

(** ** Port entries: the choice of the probe *)

#[local] Arguments checkTcpPort : simpl never.
#[local] Arguments checkUdpPort : simpl never.
#[local] Arguments udpResult : simpl never.
#[local] Arguments checkWebsite : simpl never.

Ltac unfoldM :=
  unfold bind, ret, act, gets, throw, never, tryCatch in *.

Lemma checkTcpPort_messages (cfg : PortCfg) (net : TcpNet) ops msg :
  checkTcpPort cfg net = Some (ops, TcpResolved msg) ->
  msg = tcpReachable cfg \/ (exists err, msg = tcpUnreachable cfg err)
  \/ msg = tcpTimeoutAfterRetry cfg.
Proof.
  unfold checkTcpPort. cbn [attempt]. change (1 =? 1) with true. cbn iota.
  destruct (tcp_refusal net) as [[e|e]|];
    [| | destruct (tcp_event net 1); [| | destruct (tcp_event net 2)]];
    intros E; try discriminate E; injection E as <- <-; eauto.
Qed.

Lemma checkUdpPort_messages (cfg : PortCfg) (evs : list UdpEvent) m :
  udpResult (checkUdpPort cfg evs) = Some m ->
  m = udpSentNoResponse cfg \/ (exists err, m = udpSocketFailed cfg err)
  \/ (exists err, m = udpSendFailed cfg err).
Proof.
  intros R. pose proof (checkUdpPort_inv cfg evs) as I.
  unfold udpInv, udpResult in *.
  destruct (finished (checkUdpPort cfg evs)).
  - destruct I as (_ & m' & E & X). rewrite E in R. injection R as <-.
    destruct X as [X|[(err & _ & X)|(err & _ & X)]]; eauto.
  - destruct I as (_ & E). rewrite E in R. discriminate.
Qed.

Lemma last_line_inj (lines : list string) (a b : string) :
  lines ++ ["- " +:+ a] = lines ++ ["- " +:+ b] -> a = b.
Proof.
  intros E. apply app_inv_head in E. injection E as E.
  now apply append_inv_head in E.
Qed.

(** C10: for the port entry at position [i], a falsy (in particular a
    missing) [protocol] calls the TCP probe; a string calls the TCP or the
    UDP probe when its lower-case form is "tcp" or "udp", whatever its
    letter case; the entry then adds the line of the message the probe
    resolves with (the loop body throws when the TCP probe is rejected, and
    stays pending when a probe never settles).  Any other non-empty string
    adds the "unknown protocol" line and calls no probe, the world is
    unchanged; and only such a string yields that line. *)
Theorem portBody_protocol_dispatch (env : CycleEnv) (i : nat) (cfg : PortCfg)
    (lines : list string) (w : World) :
  (truthy (p_protocol cfg) = false ->
     portBody env i cfg lines w
     = (match checkTcpPort cfg (tcp_net env i) with
        | Some (_, TcpResolved msg) => Return (lines ++ ["- " +:+ msg])
        | Some (_, TcpRejected err) => Throw err
        | None => Pending
        end, emit (CallCheckTcpPort i) w)) /\
  (forall s, p_protocol cfg = JStr s -> toLowerCase s = "tcp" ->
     portBody env i cfg lines w
     = (match checkTcpPort cfg (tcp_net env i) with
        | Some (_, TcpResolved msg) => Return (lines ++ ["- " +:+ msg])
        | Some (_, TcpRejected err) => Throw err
        | None => Pending
        end, emit (CallCheckTcpPort i) w)) /\
  (forall s, p_protocol cfg = JStr s -> toLowerCase s = "udp" ->
     portBody env i cfg lines w
     = (match udpResult (checkUdpPort cfg (udp_net env i)) with
        | Some msg => Return (lines ++ ["- " +:+ msg])
        | None => Pending
        end, emit (CallCheckUdpPort i) w)) /\
  (forall s, p_protocol cfg = JStr s -> s <> "" ->
     toLowerCase s <> "tcp" -> toLowerCase s <> "udp" ->
     portBody env i cfg lines w
     = (Return (lines ++ ["- " +:+ unknownProtocol cfg (toLowerCase s)]), w)) /\
  (forall proto,
     fst (portBody env i cfg lines w)
     = Return (lines ++ ["- " +:+ unknownProtocol cfg proto]) ->
     exists s, p_protocol cfg = JStr s /\ s <> "" /\
       toLowerCase s <> "tcp" /\ toLowerCase s <> "udp" /\
       snd (portBody env i cfg lines w) = w).
Proof.
  assert (Tcp : forall s, Js.or (p_protocol cfg) (JStr "tcp") = JStr s ->
                toLowerCase s = "tcp" ->
                portBody env i cfg lines w
                = (match checkTcpPort cfg (tcp_net env i) with
                   | Some (_, TcpResolved msg) => Return (lines ++ ["- " +:+ msg])
                   | Some (_, TcpRejected err) => Throw err
                   | None => Pending
                   end, emit (CallCheckTcpPort i) w)).
  { intros s E L. unfold portBody, protoOf. rewrite E. unfoldM. rewrite L. cbn.
    now destruct (checkTcpPort cfg (tcp_net env i)) as [[ops [msg|err]]|]. }
  assert (Str : forall s, p_protocol cfg = JStr s -> toLowerCase s <> "" ->
                Js.or (p_protocol cfg) (JStr "tcp") = JStr s).
  { intros s E L. rewrite E. destruct (truthy (JStr s)) eqn:T;
      [now apply or_truthy |].
    apply truthy_false_iff in T.
    destruct T as [T|[T|[T|[T|T]]]]; try discriminate.
    injection T as ->. now destruct L. }
  split; [| split; [| split; [| split]]].
  - intros F. apply (Tcp "tcp"); [now apply or_falsy | reflexivity].
  - intros s E L. apply (Tcp s); [| exact L].
    apply Str; [exact E | rewrite L; discriminate].
  - intros s E L. unfold portBody, protoOf.
    rewrite (Str s E) by (rewrite L; discriminate).
    unfoldM. rewrite L. cbn.
    now destruct (udpResult (checkUdpPort cfg (udp_net env i))).
  - intros s E Hs Ht Hu. unfold portBody, protoOf.
    assert (Js.or (p_protocol cfg) (JStr "tcp") = JStr s) as ->.
    { rewrite E. apply or_truthy. cbn. apply negb_true_iff.
      now apply String.eqb_neq. }
    unfoldM. apply String.eqb_neq in Ht, Hu. now rewrite Ht, Hu.
  - intros proto. unfold portBody, protoOf.
    destruct (Js.or (p_protocol cfg) (JStr "tcp")) as [| |b|n|s] eqn:E;
      unfoldM; try discriminate.
    destruct (String.eqb (toLowerCase s) "tcp") eqn:Ht.
    { cbn. destruct (checkTcpPort cfg (tcp_net env i)) as [[ops [msg|err]]|] eqn:T;
        [| discriminate ..].
      cbn. intros [= L]. apply last_line_inj in L.
      apply checkTcpPort_messages in T.
      unfold tcpReachable, tcpUnreachable, tcpTimeoutAfterRetry,
        unknownProtocol in *.
      destruct T as [->|[[err ->]| ->]]; discriminate. }
    destruct (String.eqb (toLowerCase s) "udp") eqn:Hu.
    { cbn. destruct (udpResult (checkUdpPort cfg (udp_net env i))) as [msg|] eqn:U;
        [| discriminate].
      cbn. intros [= L]. apply last_line_inj in L.
      apply checkUdpPort_messages in U.
      unfold udpSentNoResponse, udpSocketFailed, udpSendFailed,
        unknownProtocol in *.
      destruct U as [->|[[err ->]|[err ->]]]; discriminate. }
    cbn. intros _. apply String.eqb_neq in Ht, Hu.
    unfold Js.or in E. destruct (truthy (p_protocol cfg)) eqn:T.
    + exists s. repeat split; try assumption.
      intros ->. rewrite E in T. discriminate.
    + injection E as <-. exfalso. now apply Ht.
Qed.

Lemma portBody_protocol_dispatch_witness :
  portBody envAllUp 0 portSsh [] initialWorld
  = (Return ([] ++ ["- " +:+ tcpReachable portSsh]),
     emit (CallCheckTcpPort 0) initialWorld) /\
  portBody envAllUp 0 portUpper [] initialWorld
  = (Return ([] ++ ["- " +:+ tcpReachable portUpper]),
     emit (CallCheckTcpPort 0) initialWorld) /\
  portBody envBadTimeout 1 portNegativeTimeout [] initialWorld
  = (Throw "ERR_OUT_OF_RANGE", emit (CallCheckTcpPort 1) initialWorld) /\
  portBody envAllUp 0 portDns [] initialWorld
  = (match udpResult (checkUdpPort portDns (udp_net envAllUp 0%nat)) with
     | Some msg => Return ([] ++ ["- " +:+ msg])
     | None => Pending
     end, emit (CallCheckUdpPort 0) initialWorld) /\
  portBody envAllUp 0 portIcmp [] initialWorld
  = (Return ([] ++ ["- " +:+ unknownProtocol portIcmp (toLowerCase "ICMP")]),
     initialWorld).
Proof.
  split; [| split; [| split; [| split]]].
  - apply (portBody_protocol_dispatch envAllUp 0 portSsh [] initialWorld).
    reflexivity.
  - apply (portBody_protocol_dispatch envAllUp 0 portUpper [] initialWorld)
      with (s := "TCP"); reflexivity.
  - apply (portBody_protocol_dispatch envBadTimeout 1 portNegativeTimeout []
             initialWorld).
    reflexivity.
  - apply (portBody_protocol_dispatch envAllUp 0 portDns [] initialWorld)
      with (s := "Udp"); reflexivity.
  - apply (portBody_protocol_dispatch envAllUp 0 portIcmp [] initialWorld)
      with (s := "ICMP"); [reflexivity | discriminate ..].
Defined.

(** ** Traces *)

Lemma newTrace_app (w w' : World) (new : list Effect) :
  trace w' = trace w ++ new -> newTrace w w' = new.
Proof. unfold newTrace. intros ->. apply drop_app_length. Qed.

Lemma problemCalls_app j a b :
  problemCalls j (a ++ b) = (problemCalls j a + problemCalls j b)%nat.
Proof. unfold problemCalls. now rewrite List.filter_app, length_app. Qed.

Lemma recoveryCalls_app j a b :
  recoveryCalls j (a ++ b) = (recoveryCalls j a + recoveryCalls j b)%nat.
Proof. unfold recoveryCalls. now rewrite List.filter_app, length_app. Qed.

Lemma problemCalls_cons j e tr :
  problemCalls j (e :: tr)
  = ((if isProblemCall j e then 1 else 0) + problemCalls j tr)%nat.
Proof. unfold problemCalls. cbn. now destruct (isProblemCall j e). Qed.

Lemma recoveryCalls_cons j e tr :
  recoveryCalls j (e :: tr)
  = ((if isRecoveryCall j e then 1 else 0) + recoveryCalls j tr)%nat.
Proof. unfold recoveryCalls. cbn. now destruct (isRecoveryCall j e). Qed.

Lemma no_alert_calls (j : nat) (tr : list Effect) :
  Forall (fun e => isAlert e = false) tr ->
  problemCalls j tr = 0%nat /\ recoveryCalls j tr = 0%nat.
Proof.
  unfold problemCalls, recoveryCalls.
  induction 1 as [|e tr He _ [IHp IHr]]; [easy |].
  cbn [List.filter]. destruct e; try discriminate; cbn; auto.
Qed.

(** ** Computations that only add effects of a given kind *)

Section EmitsOnly.
Context {P : Effect -> Prop}.

Lemma emitsOnly_ret {A} (a : A) : emitsOnly P (ret a).
Proof. intros w. exists []. cbn. now rewrite app_nil_r. Qed.

Lemma emitsOnly_throw {A} (e : string) : emitsOnly P (@throw A e).
Proof. intros w. exists []. cbn. now rewrite app_nil_r. Qed.

Lemma emitsOnly_never {A} : emitsOnly P (@never A).
Proof. intros w. exists []. cbn. now rewrite app_nil_r. Qed.

Lemma emitsOnly_gets {A} (f : World -> A) : emitsOnly P (gets f).
Proof. intros w. exists []. cbn. now rewrite app_nil_r. Qed.

Lemma emitsOnly_emit (e : Effect) : P e -> emitsOnly P (act (emit e)).
Proof. intros H w. exists [e]. cbn. split; [reflexivity | now constructor]. Qed.

Lemma emitsOnly_act (f : World -> World) :
  (forall w, trace (f w) = trace w) -> emitsOnly P (act f).
Proof. intros H w. exists []. cbn. now rewrite H, app_nil_r. Qed.

Lemma emitsOnly_bind {A B} (m : M A) (k : A -> M B) :
  emitsOnly P m -> (forall a, emitsOnly P (k a)) -> emitsOnly P (bind m k).
Proof.
  intros Hm Hk w. unfold bind. destruct (Hm w) as (n1 & E1 & F1).
  destruct (m w) as [[a|e|] w1]; cbn in E1.
  - destruct (Hk a w1) as (n2 & E2 & F2). exists (n1 ++ n2).
    rewrite E2, E1, app_assoc. split; [reflexivity | now apply Forall_app].
  - now exists n1.
  - now exists n1.
Qed.

Lemma emitsOnly_tryCatch {A} (m : M A) (h : string -> M A) :
  emitsOnly P m -> (forall e, emitsOnly P (h e)) -> emitsOnly P (tryCatch m h).
Proof.
  intros Hm Hh w. unfold tryCatch. destruct (Hm w) as (n1 & E1 & F1).
  destruct (m w) as [[a|e|] w1]; cbn in E1.
  - now exists n1.
  - destruct (Hh e w1) as (n2 & E2 & F2). exists (n1 ++ n2).
    rewrite E2, E1, app_assoc. split; [reflexivity | now apply Forall_app].
  - now exists n1.
Qed.
End EmitsOnly.

(** ** What the parts of a cycle add to the trace *)

Create HintDb emits discriminated.

#[local] Hint Resolve emitsOnly_ret emitsOnly_throw emitsOnly_never
  emitsOnly_gets : emits.
#[local] Hint Extern 2 (emitsOnly _ (bind _ _)) =>
  apply emitsOnly_bind; [| intros ?] : emits.
#[local] Hint Extern 2 (emitsOnly _ (tryCatch _ _)) =>
  apply emitsOnly_tryCatch; [| intros ?] : emits.
#[local] Hint Extern 2 (emitsOnly _ (act (emit _))) =>
  apply emitsOnly_emit; reflexivity : emits.
#[local] Hint Extern 3 (emitsOnly _ (act _)) =>
  apply emitsOnly_act; intros ?; reflexivity : emits.
#[local] Hint Extern 4 (emitsOnly _ (match ?x with _ => _ end)) =>
  destruct x : emits.

Lemma usersFetch_quiet res : emitsOnly quiet (usersFetch res).
Proof. unfold usersFetch. auto with emits. Qed.

Lemma ensureOwner_quiet res : emitsOnly quiet (ensureOwner res).
Proof. unfold ensureOwner. pose proof usersFetch_quiet. auto with emits. Qed.

Lemma ownerSend_quiet content res : emitsOnly quiet (ownerSend content res).
Proof. unfold ownerSend. auto with emits. Qed.

Lemma messageEdit_quiet m content res :
  emitsOnly quiet (messageEdit m content res).
Proof. unfold messageEdit. auto with emits. Qed.

Lemma pushReport_quiet env content : emitsOnly quiet (pushReport env content).
Proof.
  unfold pushReport.
  pose proof ensureOwner_quiet. pose proof ownerSend_quiet.
  pose proof messageEdit_quiet. auto 8 with emits.
Qed.

Lemma protoOf_quiet cfg : emitsOnly quiet (protoOf cfg).
Proof. unfold protoOf. auto with emits. Qed.

Lemma portBody_quiet env i cfg lines : emitsOnly quiet (portBody env i cfg lines).
Proof.
  unfold portBody. pose proof protoOf_quiet.
  apply emitsOnly_bind; [auto |]. intros proto.
  apply emitsOnly_bind; [| auto with emits].
  destruct (String.eqb proto "tcp"); [auto 7 with emits |].
  destruct (String.eqb proto "udp"); auto 7 with emits.
Qed.

Lemma portLoop_quiet env cfgs :
  forall i lines, emitsOnly quiet (portLoop env i cfgs lines).
Proof.
  induction cfgs as [|cfg cfgs IH]; intros i lines; cbn [portLoop].
  - auto with emits.
  - apply emitsOnly_bind; [apply portBody_quiet | auto].
Qed.

(** ** The UDP probe: resolution *)

(** C7: under any events, the probe calls [resolve] at most once and closes
    its socket as often as it resolves; whatever it resolves with is the
    informational message, unless a socket error or a send error was
    delivered, and the informational message is none of the failure
    messages.  In the orders in which Node delivers the events the probe
    resolves exactly once: a send that succeeds and is followed by the
    timer resolves to the informational message, a failed send and a socket
    error (before the send callback or before the timer) resolve to their
    failure messages; later events change nothing.  Whatever the probe
    resolves to, the port entry only adds a report line: its loop body
    invokes no alert. *)
Theorem checkUdpPort_resolves_once (cfg : PortCfg) :
  (forall evs,
     (length (resolved (checkUdpPort cfg evs)) <= 1)%nat /\
     closes (checkUdpPort cfg evs) = length (resolved (checkUdpPort cfg evs))) /\
  (forall evs m,
     udpResult (checkUdpPort cfg evs) = Some m ->
     m <> udpSentNoResponse cfg ->
     exists err,
       (In (UdpSocketError err) evs /\ m = udpSocketFailed cfg err) \/
       (In (UdpSendCallback (Some err)) evs /\ m = udpSendFailed cfg err)) /\
  (forall err,
     udpSentNoResponse cfg <> udpSocketFailed cfg err /\
     udpSentNoResponse cfg <> udpSendFailed cfg err) /\
  (forall rest,
     resolved (checkUdpPort cfg (UdpSendCallback None :: UdpTimerFired :: rest))
     = [udpSentNoResponse cfg]) /\
  (forall err rest,
     resolved (checkUdpPort cfg (UdpSendCallback (Some err) :: rest))
     = [udpSendFailed cfg err]) /\
  (forall err rest,
     resolved (checkUdpPort cfg (UdpSocketError err :: rest))
     = [udpSocketFailed cfg err]) /\
  (forall err rest,
     resolved (checkUdpPort cfg (UdpSendCallback None :: UdpSocketError err :: rest))
     = [udpSocketFailed cfg err]) /\
  (forall env i lines, emitsOnly quiet (portBody env i cfg lines)).
Proof.
  split; [| split; [| split; [| split; [| split; [| split; [| split]]]]]].
  - intros evs. pose proof (checkUdpPort_inv cfg evs) as I. unfold udpInv in I.
    destruct (finished (checkUdpPort cfg evs)).
    + destruct I as (-> & m & -> & _). cbn. lia.
    + destruct I as (-> & ->). cbn. lia.
  - intros evs m R Hm. pose proof (checkUdpPort_inv cfg evs) as I.
    unfold udpInv, udpResult in *.
    destruct (finished (checkUdpPort cfg evs)).
    + destruct I as (_ & m' & E & X). rewrite E in R. cbn in R.
      injection R as <-.
      destruct X as [X|[(err & H & X)|(err & H & X)]];
        [contradiction | exists err; now left | exists err; now right].
    + destruct I as (_ & E). rewrite E in R. discriminate.
  - apply udp_info_not_failure.
  - intros rest. unfold checkUdpPort; cbn [fold_left].
    now apply udp_finished_stable.
  - intros err rest. unfold checkUdpPort; cbn [fold_left].
    now apply udp_finished_stable.
  - intros err rest. unfold checkUdpPort; cbn [fold_left].
    now apply udp_finished_stable.
  - intros err rest. unfold checkUdpPort; cbn [fold_left].
    now apply udp_finished_stable.
  - intros env i lines. apply portBody_quiet.
Qed.

Lemma checkUdpPort_resolves_once_witness :
  exists err,
    (In (UdpSocketError err) [UdpSendCallback (Some hostUnreachable)]
     /\ udpSendFailed portDns hostUnreachable = udpSocketFailed portDns err) \/
    (In (UdpSendCallback (Some err)) [UdpSendCallback (Some hostUnreachable)]
     /\ udpSendFailed portDns hostUnreachable = udpSendFailed portDns err).
Proof.
  destruct (checkUdpPort_resolves_once portDns) as (_ & H & _).
  apply (H [UdpSendCallback (Some hostUnreachable)]
           (udpSendFailed portDns hostUnreachable)).
  - reflexivity.
  - unfold udpSendFailed, udpSentNoResponse. discriminate.
Defined.

(** ** Alerts and the website loop *)

Lemma fetchOwnerOrReturn_spec fetchRes what (w : World) :
  exists go rest w',
    fetchOwnerOrReturn fetchRes what w = (Return go, w') /\
    trace w' = trace w ++ rest /\ Forall quiet rest /\
    lastWebsiteStates w' = lastWebsiteStates w /\
    statusMessage w' = statusMessage w.
Proof.
  unfold fetchOwnerOrReturn, usersFetch. unfoldM. cbn.
  destruct (ownerUser w) as [u|].
  - exists true, [], w. now rewrite app_nil_r.
  - destruct fetchRes as [u|]; cbn.
    + eexists true, [FetchOwner], _. repeat split. now repeat constructor.
    + eexists false, [FetchOwner; ConsoleError what], _. repeat split.
      * cbn. now rewrite <- app_assoc.
      * now repeat constructor.
Qed.

Lemma sendOrLog_spec content sendRes what (w : World) :
  exists rest w',
    sendOrLog content sendRes what w = (Return tt, w') /\
    trace w' = trace w ++ rest /\ Forall quiet rest /\
    lastWebsiteStates w' = lastWebsiteStates w /\
    statusMessage w' = statusMessage w.
Proof.
  unfold sendOrLog, ownerSend. unfoldM. cbn.
  destruct sendRes as [m|]; cbn.
  - eexists [SendDM content], _. repeat split. now repeat constructor.
  - eexists [SendDM content; ConsoleError what], _. repeat split.
    + cbn. now rewrite <- app_assoc.
    + now repeat constructor.
Qed.

(** The problem alert always returns; it is recorded once, and what
    follows are Discord and console operations. *)
Lemma sendWebsiteProblemAlert_spec i cfg result fetchRes sendRes (w : World) :
  exists rest w',
    sendWebsiteProblemAlert i cfg result fetchRes sendRes w = (Return tt, w') /\
    trace w' = trace w ++ CallProblemAlert i cfg result :: rest /\
    Forall quiet rest /\
    lastWebsiteStates w' = lastWebsiteStates w /\
    statusMessage w' = statusMessage w.
Proof.
  unfold sendWebsiteProblemAlert.
  set (w0 := emit (CallProblemAlert i cfg result) w).
  destruct (fetchOwnerOrReturn_spec fetchRes
              "Konnte Owner nicht fetchen für Alarm:" w0)
    as (go & r1 & w1 & E1 & T1 & Q1 & S1 & M1).
  unfold bind at 1. unfold act at 1. fold w0.
  unfold bind at 1. rewrite E1.
  destruct go; cbn [negb].
  - match goal with |- context [sendOrLog ?c ?s ?m w1] =>
      destruct (sendOrLog_spec c s m w1) as (r2 & w2 & E2 & T2 & Q2 & S2 & M2)
    end.
    exists (r1 ++ r2), w2. rewrite E2. split; [reflexivity |].
    rewrite T2, T1, S2, S1, M2, M1. cbn.
    rewrite <- !app_assoc. repeat split. now apply Forall_app.
  - exists r1, w1. split; [reflexivity |].
    rewrite T1, S1, M1. cbn. rewrite <- !app_assoc. now repeat split.
Qed.

Lemma sendWebsiteRecoveryAlert_spec i cfg result fetchRes sendRes (w : World) :
  exists rest w',
    sendWebsiteRecoveryAlert i cfg result fetchRes sendRes w = (Return tt, w') /\
    trace w' = trace w ++ CallRecoveryAlert i cfg result :: rest /\
    Forall quiet rest /\
    lastWebsiteStates w' = lastWebsiteStates w /\
    statusMessage w' = statusMessage w.
Proof.
  unfold sendWebsiteRecoveryAlert.
  set (w0 := emit (CallRecoveryAlert i cfg result) w).
  destruct (fetchOwnerOrReturn_spec fetchRes
              "Konnte Owner nicht fetchen für Recovery:" w0)
    as (go & r1 & w1 & E1 & T1 & Q1 & S1 & M1).
  unfold bind at 1. unfold act at 1. fold w0.
  unfold bind at 1. rewrite E1.
  destruct go; cbn [negb].
  - match goal with |- context [sendOrLog ?c ?s ?m w1] =>
      destruct (sendOrLog_spec c s m w1) as (r2 & w2 & E2 & T2 & Q2 & S2 & M2)
    end.
    exists (r1 ++ r2), w2. rewrite E2. split; [reflexivity |].
    rewrite T2, T1, S2, S1, M2, M1. cbn.
    rewrite <- !app_assoc. repeat split. now apply Forall_app.
  - exists r1, w1. split; [reflexivity |].
    rewrite T1, S1, M1. cbn. rewrite <- !app_assoc. now repeat split.
Qed.

#[local] Arguments problemCalls : simpl never.
#[local] Arguments recoveryCalls : simpl never.
#[local] Arguments sendWebsiteProblemAlert : simpl never.
#[local] Arguments sendWebsiteRecoveryAlert : simpl never.

(** One iteration of the website loop: it returns, adds its report line,
    invokes the problem alert exactly when [isNewProblem] holds and the
    recovery alert exactly when [isRecovery] holds, and stores the new
    state. *)
Lemma websiteBody_spec env i cfg lines (w : World) :
  let result := checkWebsite cfg (net_fetch env i) in
  let key := getWebsiteKey cfg i in
  let prevState := prevStateOf (lastWebsiteStates w) key in
  exists new w',
    websiteBody env i cfg lines w
    = (Return (lines ++ ["- " +:+ text result]), w') /\
    trace w' = trace w ++ new /\
    (forall j, problemCalls j new
               = if Nat.eqb i j && isNewProblem result prevState
                 then 1%nat else 0%nat) /\
    (forall j, recoveryCalls j new
               = if Nat.eqb i j && isRecovery result prevState
                 then 1%nat else 0%nat) /\
    lastWebsiteStates w' = Store.set (lastWebsiteStates w) key (state result) /\
    statusMessage w' = statusMessage w.
Proof.
  intros result key prevState. unfold websiteBody.
  fold result. fold key.
  set (w0 := emit (CallCheckWebsite i) w).
  assert (P0 : prevStateOf (lastWebsiteStates w0) key = prevState) by reflexivity.
  unfold bind at 1. unfold act at 1. fold w0.
  unfold bind at 1. unfold gets at 1. rewrite P0.
  assert (Hexcl : isNewProblem result prevState = true ->
                  isRecovery result prevState = false).
  { unfold isNewProblem, isRecovery.
    destruct (bool_decide (state result = ok)); [discriminate | reflexivity]. }
  destruct (isNewProblem result prevState) eqn:NP.
  - rewrite (Hexcl eq_refl).
    destruct (sendWebsiteProblemAlert_spec i cfg result
                (alert_fetchOwner env i) (alert_send env i) w0)
      as (rest & w1 & E1 & T1 & Q1 & S1 & M1).
    unfold bind at 1. rewrite E1. unfoldM. cbn.
    eexists (CallCheckWebsite i :: CallProblemAlert i cfg result :: rest), _.
    split; [reflexivity |]. cbn. rewrite T1, S1, M1. cbn.
    rewrite <- app_assoc. repeat split.
    + intros j. rewrite !problemCalls_cons.
      destruct (no_alert_calls j rest Q1) as [-> _].
      cbn. now destruct (Nat.eqb i j).
    + intros j. rewrite !recoveryCalls_cons.
      destruct (no_alert_calls j rest Q1) as [_ ->].
      now rewrite andb_false_r.
  - destruct (isRecovery result prevState) eqn:RC.
    + destruct (sendWebsiteRecoveryAlert_spec i cfg result
                  (alert_fetchOwner env i) (alert_send env i) w0)
        as (rest & w1 & E1 & T1 & Q1 & S1 & M1).
      unfoldM. cbn. rewrite E1. cbn.
      eexists (CallCheckWebsite i :: CallRecoveryAlert i cfg result :: rest), _.
      split; [reflexivity |]. cbn. rewrite T1, S1, M1. cbn.
      rewrite <- app_assoc. repeat split.
      * intros j. rewrite !problemCalls_cons.
        destruct (no_alert_calls j rest Q1) as [-> _].
        now rewrite andb_false_r.
      * intros j. rewrite !recoveryCalls_cons.
        destruct (no_alert_calls j rest Q1) as [_ ->].
        cbn. now destruct (Nat.eqb i j).
    + unfoldM. cbn.
      eexists [CallCheckWebsite i], _. split; [reflexivity |].
      cbn. repeat split; intros j; now rewrite andb_false_r.
Qed.

Lemma exec_websiteLoop_cons env i cfg cfgs lines (w : World) lines0 w0 :
  websiteBody env i cfg lines w = (Return lines0, w0) ->
  websiteLoop env i (cfg :: cfgs) lines w = websiteLoop env (S i) cfgs lines0 w0.
Proof. intros E. cbn [websiteLoop]. unfold bind. now rewrite E. Qed.

(** The loop over the websites returns; the alerts it invokes carry the
    indices it runs over, and for the website at position [j] they are
    decided by [isNewProblem] and [isRecovery] on the store as it is when
    that iteration starts. *)
Lemma websiteLoop_spec env (cfgs : list WebsiteCfg) :
  forall i lines (w : World),
  exists lines' new w',
    websiteLoop env i cfgs lines w = (Return lines', w') /\
    trace w' = trace w ++ new /\
    statusMessage w' = statusMessage w /\
    (forall j, (j < i \/ i + length cfgs <= j)%nat ->
       problemCalls j new = 0%nat /\ recoveryCalls j new = 0%nat) /\
    (forall j cfg, cfgs !! j = Some cfg ->
       let before := exec (websiteLoop env i (take j cfgs) lines) w in
       let result := checkWebsite cfg (net_fetch env (i + j)%nat) in
       let prevState :=
         prevStateOf (lastWebsiteStates before) (getWebsiteKey cfg (i + j)%nat) in
       problemCalls (i + j) new
       = (if isNewProblem result prevState then 1%nat else 0%nat) /\
       recoveryCalls (i + j) new
       = (if isRecovery result prevState then 1%nat else 0%nat)).
Proof.
  induction cfgs as [|cfg0 cfgs IH]; intros i lines w.
  - exists lines, [], w. cbn [websiteLoop ret].
    split; [reflexivity |]. split; [now rewrite app_nil_r |].
    split; [reflexivity |]. split; [now intros j _ |].
    intros j cfg H. discriminate.
  - destruct (websiteBody_spec env i cfg0 lines w)
      as (new0 & w0 & E0 & T0 & P0 & R0 & S0 & M0).
    destruct (IH (S i)
                (lines ++ ["- " +:+ text (checkWebsite cfg0 (net_fetch env i))])
                w0) as (lines' & new1 & w' & E1 & T1 & M1 & Rg & At).
    exists lines', (new0 ++ new1), w'.
    rewrite (exec_websiteLoop_cons _ _ _ _ _ _ _ _ E0).
    split; [exact E1 |]. split; [now rewrite T1, T0, app_assoc |].
    split; [congruence |]. split.
    + intros j Hj. cbn [length] in Hj.
      rewrite problemCalls_app, recoveryCalls_app, P0, R0.
      assert (Nat.eqb i j = false) as -> by (apply Nat.eqb_neq; lia).
      destruct (Rg j) as [-> ->]; [lia | now cbn].
    + intros [|j] cfg Hc before result prevState.
      * cbn in Hc. injection Hc as <-.
        rewrite problemCalls_app, recoveryCalls_app.
        destruct (Rg (i + 0)%nat) as [-> ->]; [lia |].
        rewrite P0, R0.
        assert (Nat.eqb i (i + 0) = true) as -> by (apply Nat.eqb_eq; lia).
        subst before result prevState. cbn [take websiteLoop exec ret snd].
        rewrite !Nat.add_0_r. cbn [andb]. lia.
      * cbn in Hc.
        rewrite problemCalls_app, recoveryCalls_app, P0, R0.
        assert (Nat.eqb i (i + S j) = false) as -> by (apply Nat.eqb_neq; lia).
        cbn [andb].
        destruct (At j cfg Hc) as [Ap Ar].
        subst before result prevState. cbn [take]. unfold exec.
        rewrite (exec_websiteLoop_cons _ _ _ _ _ _ _ _ E0).
        replace (i + S j)%nat with (S i + j)%nat by lia.
        unfold exec in Ap, Ar. now rewrite Ap, Ar.
Qed.

(** After the website loop a cycle invokes no alert: the port loop, the
    report and the handler of the cycle add other effects only. *)
Lemma doMonitoringCycle_after_websites (c : Config) (env : CycleEnv) (w : World) :
  exists rest,
    trace (exec (doMonitoringCycle c env) w)
    = trace (exec (websiteLoop env 0 (WEBSITES c) ["📡 **Webseiten-Status:**"]) w)
      ++ rest
    /\ Forall quiet rest.
Proof.
  unfold doMonitoringCycle, cycleBody, buildReport.
  assert (K : forall lines : list string,
            emitsOnly quiet
              (tryCatch
                 (content <-
                    (lines0 <-
                       (if (0 <? length (PORTS c))%nat then
                          l <- portLoop env 0 (PORTS c)
                                 (lines ++ ["🔌 **Port-Status:**"]) ;;
                          ret (l ++ [""])
                        else ret lines) ;;
                     ret (String.concat nl
                            (lines0
                             ++ ["⏱️ Nächster Check in "
                                 +:+ pretty (roundDiv1000 (CHECK_INTERVAL_MS c))
                                 +:+ " Sekunden."]
                             ++ ["⏱️ Letzter Check um " +:+ now env]))) ;;
                  pushReport env content)
                 (fun _ => act (emit (ConsoleError "Fehler im Monitoring-Cycle:"))))).
  { intros lines. pose proof pushReport_quiet. pose proof portLoop_quiet.
    apply emitsOnly_tryCatch; [| auto with emits].
    apply emitsOnly_bind; [| auto].
    apply emitsOnly_bind; [| auto with emits].
    destruct (0 <? length (PORTS c))%nat; auto with emits. }
  assert (B : forall (m : M (list string)) (k : list string -> M string)
                (k' : string -> M unit) h (w w1 : World) a,
            m w = (Return a, w1) ->
            exec (tryCatch (bind (bind m k) k') h) w
            = exec (tryCatch (bind (k a) k') h) w1).
  { intros m k k' h v v1 a E. unfold exec, tryCatch, bind. now rewrite E. }
  destruct (WEBSITES c) as [|cfg0 cfgs] eqn:W.
  - cbn [length Nat.ltb Nat.leb websiteLoop exec ret snd app].
    erewrite B by reflexivity. apply K.
  - change (0 <? length (cfg0 :: cfgs))%nat with true. cbn iota.
    destruct (websiteLoop_spec env (cfg0 :: cfgs) 0 ["📡 **Webseiten-Status:**"] w)
      as (lines' & new & w' & E & _).
    erewrite B.
    2: { unfold bind at 1. cbn [app]. rewrite E. reflexivity. }
    unfold exec at 2. rewrite E. apply K.
Qed.

Lemma set_lookup_ne (obj : gmap string State) (key key' : string) (s : State) :
  key' <> key -> Store.set obj key' s !! key = obj !! key.
Proof.
  intros N. unfold Store.set. destruct (String.eqb key' "__proto__"); [reflexivity |].
  now apply lookup_insert_ne.
Qed.

Lemma prevStateOf_ext (st st' : gmap string State) (key : string) :
  st !! key = st' !! key -> prevStateOf st key = prevStateOf st' key.
Proof. intros E. unfold prevStateOf, Store.get. now rewrite E. Qed.

(** The loop leaves alone the entries of the store under keys of other
    websites. *)
Lemma websiteLoop_store_other env (cfgs : list WebsiteCfg) :
  forall i lines (w : World) key,
    (forall k cfg, cfgs !! k = Some cfg -> getWebsiteKey cfg (i + k) <> key) ->
    lastWebsiteStates (exec (websiteLoop env i cfgs lines) w) !! key
    = lastWebsiteStates w !! key.
Proof.
  induction cfgs as [|cfg0 cfgs IH]; intros i lines w key H; [reflexivity |].
  destruct (websiteBody_spec env i cfg0 lines w)
    as (new0 & w0 & E0 & _ & _ & _ & S0 & _).
  unfold exec. rewrite (exec_websiteLoop_cons _ _ _ _ _ _ _ _ E0).
  fold (exec (websiteLoop env (S i) cfgs
                (lines ++ ["- " +:+ text (checkWebsite cfg0 (net_fetch env i))]))
          w0).
  rewrite IH.
  - rewrite S0. apply set_lookup_ne.
    specialize (H 0%nat cfg0 eq_refl). now rewrite Nat.add_0_r in H.
  - intros k cfg Hk. specialize (H (S k) cfg Hk).
    now replace (S i + k)%nat with (i + S k)%nat by lia.
Qed.

Lemma isNewProblem_true (result : ProbeResult) (prevState : StoreVal) :
  isNewProblem result prevState = true <->
  state result <> ok /\ SState (state result) <> prevState.
Proof.
  unfold isNewProblem.
  rewrite andb_true_iff, !negb_true_iff, !bool_decide_eq_false. tauto.
Qed.

Lemma isRecovery_true (result : ProbeResult) (prevState : StoreVal) :
  isRecovery result prevState = true <->
  state result = ok /\ prevState <> SState ok.
Proof.
  unfold isRecovery.
  rewrite andb_true_iff, negb_true_iff, bool_decide_eq_true,
    bool_decide_eq_false. tauto.
Qed.

Lemma not_both (result : ProbeResult) (prevState : StoreVal) :
  isNewProblem result prevState && isRecovery result prevState = false.
Proof.
  unfold isNewProblem, isRecovery.
  destruct (bool_decide (state result = ok)); [reflexivity |].
  cbn. apply andb_false_r.
Qed.

(** The alerts of a cycle for the website at index [j] are decided by the
    value [prevState] that its iteration reads from the store
    ([lastWebsiteStates[key] || "ok"]): the problem alert is invoked if and
    only if the new state is not [ok] and differs from [prevState], the
    recovery alert if and only if the new state is [ok] and [prevState] is
    not [ok], and the two together at most once.  When no earlier website
    of the configuration has the same key, [prevState] is read from the
    store as it was when the cycle started. *)
Lemma alerts_by_value_read (c : Config) (env : CycleEnv) (w : World)
    (j : nat) (cfg : WebsiteCfg) (Hj : WEBSITES c !! j = Some cfg) :
  let result := checkWebsite cfg (net_fetch env j) in
  let before :=
    exec (websiteLoop env 0 (take j (WEBSITES c)) ["📡 **Webseiten-Status:**"]) w in
  let prevState :=
    prevStateOf (lastWebsiteStates before) (getWebsiteKey cfg j) in
  let new := newTrace w (exec (doMonitoringCycle c env) w) in
  ((0 < problemCalls j new)%nat <->
     state result <> ok /\ SState (state result) <> prevState) /\
  ((0 < recoveryCalls j new)%nat <->
     state result = ok /\ prevState <> SState ok) /\
  (problemCalls j new + recoveryCalls j new <= 1)%nat /\
  ((forall k cfg', (k < j)%nat -> WEBSITES c !! k = Some cfg' ->
      getWebsiteKey cfg' k <> getWebsiteKey cfg j) ->
   prevState = prevStateOf (lastWebsiteStates w) (getWebsiteKey cfg j)).
Proof.
  intros result before prevState new.
  assert (Hprev : (forall k cfg', (k < j)%nat -> WEBSITES c !! k = Some cfg' ->
                     getWebsiteKey cfg' k <> getWebsiteKey cfg j) ->
                  prevState
                  = prevStateOf (lastWebsiteStates w) (getWebsiteKey cfg j)).
  { intros D. subst prevState before. apply prevStateOf_ext.
    apply websiteLoop_store_other. intros k cfg' Hk.
    apply lookup_take_Some in Hk. destruct Hk as [Hk Hlt].
    cbn [Nat.add]. now apply D. }
  refine ((fun X => conj (proj1 X) (conj (proj1 (proj2 X))
            (conj (proj2 (proj2 X)) Hprev))) _).
  clear Hprev.
  destruct (doMonitoringCycle_after_websites c env w) as (rest & T & Q).
  destruct (websiteLoop_spec env (WEBSITES c) 0 ["📡 **Webseiten-Status:**"] w)
    as (lines' & new0 & w' & E & T0 & _ & _ & At).
  destruct (At j cfg Hj) as [Ap Ar]. cbn [Nat.add] in Ap, Ar.
  fold before in Ap, Ar. fold result in Ap, Ar. fold prevState in Ap, Ar.
  assert (N : new = new0 ++ rest).
  { subst new. apply newTrace_app. rewrite T. unfold exec at 1. rewrite E.
    cbn [snd]. now rewrite T0, app_assoc. }
  destruct (no_alert_calls j rest Q) as [Zp Zr].
  rewrite N, problemCalls_app, recoveryCalls_app, Zp, Zr, Ap, Ar, !Nat.add_0_r.
  rewrite <- isNewProblem_true, <- isRecovery_true.
  pose proof (not_both result prevState) as NB.
  destruct (isNewProblem result prevState), (isRecovery result prevState);
    try discriminate; repeat split; intros; try lia; try discriminate.
Qed.

(** ** The store on a first observation *)

(** A key with no own property that is no property name of
    [Object.prototype] reads as [undefined], so the previous state is the
    default [ok]. *)
Lemma prevStateOf_unseen (st : gmap string State) (key : string) :
  st !! key = None -> key ∉ objectPrototypeKeys ->
  prevStateOf st key = SState ok.
Proof.
  intros H N. unfold prevStateOf, Store.get. rewrite H.
  now rewrite bool_decide_eq_false_2.
Qed.

(** A key with no own property that is a property name of
    [Object.prototype] reads as the inherited value, which is not [ok]. *)
Lemma prevStateOf_inherited (st : gmap string State) (key : string) :
  st !! key = None -> key ∈ objectPrototypeKeys ->
  prevStateOf st key = SInherited key /\ prevStateOf st key <> SState ok.
Proof.
  intros H N. unfold prevStateOf, Store.get. rewrite H.
  now rewrite bool_decide_eq_true_2.
Qed.

(** On the first observation of a key that is not inherited, a state other
    than [ok] is a new problem and [ok] is no recovery. *)
Lemma first_observation (st : gmap string State) (key : string)
    (result : ProbeResult) :
  st !! key = None -> key ∉ objectPrototypeKeys ->
  isNewProblem result (prevStateOf st key)
  = negb (bool_decide (state result = ok))
  /\ isRecovery result (prevStateOf st key) = false.
Proof.
  intros H N. rewrite (prevStateOf_unseen st key H N).
  unfold isNewProblem, isRecovery.
  destruct (state result); cbn; auto.
Qed.

(** What the store holds under a key is what the loop reads, unless the
    key is not stored and names a member of [Object.prototype]. *)
Lemma prevStateOf_stored (st : gmap string State) (key : string) :
  st !! key <> None \/ key ∉ objectPrototypeKeys ->
  prevStateOf st key = SState (default ok (st !! key)).
Proof.
  intros H. destruct (st !! key) as [s|] eqn:E.
  - unfold prevStateOf, Store.get. now rewrite E.
  - destruct H as [H|H]; [congruence |]. now apply prevStateOf_unseen.
Qed.

(** The alerts of a cycle follow the stored state.  For a website whose
    key no earlier website of the configuration shares, and whose key is
    stored or is no property name of [Object.prototype], let [stored] be
    the state the store holds under the key when the cycle starts, [ok]
    if it holds none.  The problem alert is invoked if and only if the new
    state is not [ok] and differs from [stored]; the recovery alert if and
    only if the new state is [ok] and [stored] is not; and at most one of
    the two is invoked. *)
Theorem alert_iff_stored_state_transition (c : Config) (env : CycleEnv)
    (w : World) (j : nat) (cfg : WebsiteCfg)
    (Hj : WEBSITES c !! j = Some cfg)
    (Hfirst : forall k cfg', (k < j)%nat -> WEBSITES c !! k = Some cfg' ->
                getWebsiteKey cfg' k <> getWebsiteKey cfg j)
    (Hkey : lastWebsiteStates w !! getWebsiteKey cfg j <> None
            \/ getWebsiteKey cfg j ∉ objectPrototypeKeys) :
  let s := state (checkWebsite cfg (net_fetch env j)) in
  let stored := default ok (lastWebsiteStates w !! getWebsiteKey cfg j) in
  let new := newTrace w (exec (doMonitoringCycle c env) w) in
  ((0 < problemCalls j new)%nat <-> s <> ok /\ s <> stored) /\
  ((0 < recoveryCalls j new)%nat <-> s = ok /\ stored <> ok) /\
  (problemCalls j new + recoveryCalls j new <= 1)%nat.
Proof.
  intros s stored new.
  pose proof (alerts_by_value_read c env w j cfg Hj) as (Hp & Hr & Hle & Hprev).
  cbv zeta in Hp, Hr, Hle, Hprev.
  rewrite (Hprev Hfirst), (prevStateOf_stored _ _ Hkey) in Hp, Hr.
  fold s stored new in Hp, Hr, Hle.
  split; [| split; [| exact Hle]].
  - rewrite Hp. split; intros [H1 H2]; (split; [exact H1 |]); congruence.
  - rewrite Hr. split; intros [H1 H2]; (split; [exact H1 |]); congruence.
Qed.

Lemma alert_iff_stored_state_transition_witness :
  (0 < problemCalls 0
         (newTrace initialWorld
            (exec (doMonitoringCycle configAB envCertExpired) initialWorld)))%nat
  /\ recoveryCalls 0
       (newTrace initialWorld
          (exec (doMonitoringCycle configAB envCertExpired) initialWorld))
     = 0%nat.
Proof.
  pose proof (alert_iff_stored_state_transition configAB envCertExpired
                initialWorld 0 siteGood eq_refl) as H.
  destruct H as (Hp & _ & Hle).
  - intros k cfg' Hk. lia.
  - right. intros H. apply list_elem_of_In in H. vm_compute in H.
    intuition discriminate.
  - cbv zeta in Hp, Hle.
    assert (P : (0 < problemCalls 0
                       (newTrace initialWorld
                          (exec (doMonitoringCycle configAB envCertExpired)
                             initialWorld)))%nat).
    { apply Hp. split; vm_compute; discriminate. }
    split; [exact P | lia].
Defined.

(** C1 (evaluation at the failing input): the website has the [id]
    "constructor" and nothing is stored for it; the first cycle finds it
    [ok] and invokes the recovery alert, although no stored state was other
    than [ok].  The cycle stores [ok], and the next cycle, which finds the
    website [ok] again, invokes no alert. *)
Theorem recovery_alert_without_stored_state :
  let key := getWebsiteKey siteConstructor 0 in
  let w1 := exec (doMonitoringCycle configConstructor envAllUp) initialWorld in
  let w2 := exec (doMonitoringCycle configConstructor envAllUp) w1 in
  key = "constructor" /\
  lastWebsiteStates initialWorld !! key = None /\
  state (checkWebsite siteConstructor (net_fetch envAllUp 0%nat)) = ok /\
  recoveryCalls 0 (newTrace initialWorld w1) = 1%nat /\
  lastWebsiteStates w1 !! key = Some ok /\
  recoveryCalls 0 (newTrace w1 w2) = 0%nat /\
  problemCalls 0 (newTrace w1 w2) = 0%nat.
Proof. vm_compute. repeat split. Qed.

(** C6 (evaluation at the failing input): a website whose configured [id]
    is "constructor" has a key that was never observed, yet the previous
    state read for it is the function inherited from [Object.prototype],
    not [ok]; the first cycle, in which the website answers 200 over TLS,
    therefore invokes the recovery alert. *)
Theorem unseen_inherited_key_reads_not_ok :
  let key := getWebsiteKey siteConstructor 0 in
  let w' := exec (doMonitoringCycle configConstructor envAllUp) initialWorld in
  lastWebsiteStates initialWorld !! key = None /\
  state (checkWebsite siteConstructor (net_fetch envAllUp 0%nat)) = ok /\
  prevStateOf (lastWebsiteStates initialWorld) key = SInherited "constructor" /\
  prevStateOf (lastWebsiteStates initialWorld) key <> SState ok /\
  recoveryCalls 0 (newTrace initialWorld w') = 1%nat /\
  problemCalls 0 (newTrace initialWorld w') = 0%nat.
Proof. vm_compute. repeat split; discriminate. Qed.

(** ** The status message *)

Lemma keepsHandle_ret {A} (a : A) : keepsHandle (ret a).
Proof. now intros w. Qed.

Lemma keepsHandle_throw {A} (e : string) : keepsHandle (@throw A e).
Proof. now intros w. Qed.

Lemma keepsHandle_never {A} : keepsHandle (@never A).
Proof. now intros w. Qed.

Lemma keepsHandle_emit (e : Effect) : keepsHandle (act (emit e)).
Proof. now intros w. Qed.

Lemma keepsHandle_bind {A B} (m : M A) (k : A -> M B) :
  keepsHandle m -> (forall a, keepsHandle (k a)) -> keepsHandle (bind m k).
Proof.
  intros Hm Hk w. unfold bind. specialize (Hm w).
  destruct (m w) as [[a|e|] w1]; cbn in Hm; [| exact Hm ..].
  now rewrite Hk.
Qed.

Lemma portBody_keepsHandle env i cfg lines :
  keepsHandle (portBody env i cfg lines).
Proof.
  unfold portBody. apply keepsHandle_bind.
  - unfold protoOf.
    destruct (Js.or _ _); auto using keepsHandle_ret, keepsHandle_throw.
  - intros proto. apply keepsHandle_bind; [| intros; apply keepsHandle_ret].
    destruct (String.eqb proto "tcp").
    { apply keepsHandle_bind; [apply keepsHandle_emit |]. intros _.
      destruct (checkTcpPort _ _) as [[? [?|?]]|];
        auto using keepsHandle_ret, keepsHandle_throw, keepsHandle_never. }
    destruct (String.eqb proto "udp"); [| apply keepsHandle_ret].
    apply keepsHandle_bind; [apply keepsHandle_emit |]. intros _.
    destruct (udpResult _); auto using keepsHandle_ret, keepsHandle_never.
Qed.

Lemma portLoop_keepsHandle env cfgs :
  forall i lines, keepsHandle (portLoop env i cfgs lines).
Proof.
  induction cfgs as [|cfg cfgs IH]; intros i lines; cbn [portLoop].
  - apply keepsHandle_ret.
  - apply keepsHandle_bind; [apply portBody_keepsHandle | auto].
Qed.

Lemma websiteLoop_keepsHandle env cfgs i lines :
  keepsHandle (websiteLoop env i cfgs lines).
Proof.
  intros w. destruct (websiteLoop_spec env cfgs i lines w)
    as (lines' & new & w' & E & _ & Hm & _).
  now rewrite E.
Qed.

(** Running the checks and assembling the report does not touch the status
    message. *)
Lemma buildReport_keepsHandle c env : keepsHandle (buildReport c env).
Proof.
  unfold buildReport.
  apply keepsHandle_bind.
  { destruct (0 <? length (WEBSITES c))%nat; [| apply keepsHandle_ret].
    apply keepsHandle_bind; [apply websiteLoop_keepsHandle |].
    intros; apply keepsHandle_ret. }
  intros lines. apply keepsHandle_bind; [| intros; apply keepsHandle_ret].
  destruct (0 <? length (PORTS c))%nat; [| apply keepsHandle_ret].
  apply keepsHandle_bind; [apply portLoop_keepsHandle |].
  intros; apply keepsHandle_ret.
Qed.

(** A cycle that gets to its report ends with the edit-or-recreate step. *)
Lemma doMonitoringCycle_report c env (w w1 : World) content :
  buildReport c env w = (Return content, w1) ->
  exec (doMonitoringCycle c env) w = exec (reportStep env content) w1.
Proof.
  intros E. unfold doMonitoringCycle, reportStep, cycleBody, exec, tryCatch, bind.
  now rewrite E.
Qed.

Ltac unfoldReport :=
  unfold reportStep, exec, pushReport, messageEdit, ensureOwner, usersFetch,
    ownerSend, newTrace;
  unfoldM.

Lemma reportStep_edit_ok env content (w : World) m0 :
  statusMessage w = Some m0 -> report_edit env = true ->
  exec (reportStep env content) w = emit (EditMsg m0 content) w.
Proof. intros H E. unfoldReport. rewrite H. cbn. now rewrite E. Qed.

Lemma reportStep_resend env content (w : World) m0 m1 :
  statusMessage w = Some m0 -> report_edit env = false ->
  ownerAvailable env w -> report_send env = Some m1 ->
  exists pre,
    trace (exec (reportStep env content) w)
    = trace w ++ EditMsg m0 content :: pre ++ [SendDM content]
    /\ statusMessage (exec (reportStep env content) w) = Some m1.
Proof.
  intros H E O S. unfold ownerAvailable in O. unfoldReport.
  rewrite H. cbn. rewrite E. cbn.
  destruct (ownerUser w) as [u|]; cbn.
  - rewrite S. cbn. exists []. now rewrite <- app_assoc.
  - destruct (report_fetchOwner env) as [u|]; [| destruct O; congruence].
    cbn. rewrite S. cbn. exists [FetchOwner]. now rewrite <- !app_assoc.
Qed.

Lemma reportStep_resend_fails env content (w : World) m0 :
  statusMessage w = Some m0 -> report_edit env = false ->
  report_send env = None ->
  statusMessage (exec (reportStep env content) w) = Some m0.
Proof.
  intros H E S. unfoldReport. rewrite H. cbn. rewrite E. cbn.
  destruct (ownerUser w) as [u|]; cbn.
  - now rewrite S.
  - destruct (report_fetchOwner env) as [u|]; cbn; [now rewrite S | easy].
Qed.

Lemma reportStep_create env content (w : World) m1 :
  statusMessage w = None ->
  ownerAvailable env w -> report_send env = Some m1 ->
  exists pre,
    trace (exec (reportStep env content) w) = trace w ++ pre ++ [SendDM content]
    /\ Forall (eq FetchOwner) pre
    /\ statusMessage (exec (reportStep env content) w) = Some m1.
Proof.
  intros H O S. unfold ownerAvailable in O. unfoldReport. rewrite H. cbn.
  destruct (ownerUser w) as [u|]; cbn.
  - rewrite S. cbn. now exists [].
  - destruct (report_fetchOwner env) as [u|]; [| destruct O; congruence].
    cbn. rewrite S. cbn. exists [FetchOwner]. rewrite <- !app_assoc.
    repeat split. now repeat constructor.
Qed.

(** C8, as the code has it: the handle is created by the greeting of the
    start-up when that is sent, and is absent after a start-up that failed.
    A cycle that gets to its report with [content] finds the handle it
    started with.  If there is a handle [m0] the cycle edits [m0]; when the
    edit succeeds that is all it does and [m0] stays the handle; when the
    edit fails it sends the content as a new message, which becomes the
    handle if the send succeeds, while [m0] stays the handle if the send
    fails.  If there is no handle the cycle sends the content without an
    edit, and the message becomes the handle if the send succeeds. *)
Theorem status_handle_edit_or_recreate (c : Config) (renv : ReadyEnv)
    (env : CycleEnv) (w w1 : World) (content : string)
    (Hreport : buildReport c env w = (Return content, w1)) :
  let w' := exec (doMonitoringCycle c env) w in
  (forall u m, ready_fetchOwner renv = Some u -> ready_send renv = Some m ->
     statusMessage (exec (startup c renv) initialWorld) = Some m) /\
  (ready_fetchOwner renv = None \/ ready_send renv = None ->
     statusMessage (exec (startup c renv) initialWorld) = None) /\
  statusMessage w1 = statusMessage w /\
  (forall m0, statusMessage w = Some m0 -> report_edit env = true ->
     newTrace w1 w' = [EditMsg m0 content] /\ statusMessage w' = Some m0) /\
  (forall m0 m1, statusMessage w = Some m0 -> report_edit env = false ->
     ownerAvailable env w1 -> report_send env = Some m1 ->
     In (EditMsg m0 content) (newTrace w1 w') /\
     In (SendDM content) (newTrace w1 w') /\
     statusMessage w' = Some m1) /\
  (forall m0, statusMessage w = Some m0 -> report_edit env = false ->
     report_send env = None -> statusMessage w' = Some m0) /\
  (forall m1, statusMessage w = None ->
     ownerAvailable env w1 -> report_send env = Some m1 ->
     (forall m x, ~ In (EditMsg m x) (newTrace w1 w')) /\
     In (SendDM content) (newTrace w1 w') /\
     statusMessage w' = Some m1).
Proof.
  intros w'. subst w'. rewrite (doMonitoringCycle_report _ _ _ _ _ Hreport).
  pose proof (buildReport_keepsHandle c env w) as K. rewrite Hreport in K.
  cbn [snd] in K. rewrite <- K.
  split; [| split; [| split; [reflexivity |]]].
  - intros u m Hu Hm. unfold startup, usersFetch, ownerSend, exec. unfoldM.
    now rewrite Hu, Hm.
  - intros H. unfold startup, usersFetch, ownerSend, exec. unfoldM.
    destruct (ready_fetchOwner renv); [| reflexivity].
    destruct H as [H|H]; [discriminate |]. now rewrite H.
  - split; [| split; [| split]].
    + intros m0 H E. rewrite (reportStep_edit_ok _ _ _ _ H E).
      split; [| exact H]. now apply newTrace_app.
    + intros m0 m1 H E O S.
      destruct (reportStep_resend _ content _ _ _ H E O S) as (pre & T & M).
      rewrite (newTrace_app _ _ _ T). split; [now left |]. split; [| exact M].
      right. apply in_or_app. right. now left.
    + intros m0 H E S. now apply reportStep_resend_fails.
    + intros m1 H O S.
      destruct (reportStep_create _ content _ _ H O S) as (pre & T & F & M).
      rewrite (newTrace_app _ _ _ T). split; [| split; [| exact M]].
      * intros m x I. apply in_app_or in I. destruct I as [I|[I|[]]].
        -- rewrite Forall_forall in F. apply list_elem_of_In, F in I.
           discriminate.
        -- discriminate.
      * apply in_or_app. right. now left.
Qed.

Lemma status_handle_edit_or_recreate_witness :
  statusMessage (worldAfter readyOk) = Some 0%nat /\
  statusMessage (worldAfter readySendFails) = None /\
  statusMessage (exec (doMonitoringCycle configAB envAllUp) (worldAfter readyOk))
  = Some 0%nat /\
  statusMessage (exec (doMonitoringCycle configAB envEditFails) (worldAfter readyOk))
  = Some 2%nat /\
  statusMessage
    (exec (doMonitoringCycle configAB envEditAndSendFail) (worldAfter readyOk))
  = Some 0%nat /\
  statusMessage
    (exec (doMonitoringCycle configAB envAllUp) (worldAfter readySendFails))
  = Some 1%nat.
Proof.
  pose proof (status_handle_edit_or_recreate configAB readyOk envAllUp
                (worldAfter readyOk)
                (snd (buildReport configAB envAllUp (worldAfter readyOk)))
                (reportOf envAllUp (worldAfter readyOk)) eq_refl)
    as (Hstart & _ & _ & Hedit & _).
  pose proof (status_handle_edit_or_recreate configAB readySendFails envAllUp
                (worldAfter readySendFails)
                (snd (buildReport configAB envAllUp (worldAfter readySendFails)))
                (reportOf envAllUp (worldAfter readySendFails)) eq_refl)
    as (_ & Hnostart & _ & _ & _ & _ & Hcreate).
  pose proof (status_handle_edit_or_recreate configAB readyOk envEditFails
                (worldAfter readyOk)
                (snd (buildReport configAB envEditFails (worldAfter readyOk)))
                (reportOf envEditFails (worldAfter readyOk)) eq_refl)
    as (_ & _ & _ & _ & Hresend & _).
  pose proof (status_handle_edit_or_recreate configAB readyOk envEditAndSendFail
                (worldAfter readyOk)
                (snd (buildReport configAB envEditAndSendFail (worldAfter readyOk)))
                (reportOf envEditAndSendFail (worldAfter readyOk)) eq_refl)
    as (_ & _ & _ & _ & _ & Hkeep & _).
  split; [| split; [| split; [| split; [| split]]]].
  - exact (Hstart owner 0%nat eq_refl eq_refl).
  - exact (Hnostart (or_intror eq_refl)).
  - exact (proj2 (Hedit 0%nat eq_refl eq_refl)).
  - refine (proj2 (proj2 (Hresend 0%nat 2%nat eq_refl eq_refl _ eq_refl))).
    left. discriminate.
  - exact (Hkeep 0%nat eq_refl eq_refl eq_refl).
  - refine (proj2 (proj2 (Hcreate 1%nat eq_refl _ eq_refl))).
    left. discriminate.
Defined.

(** C8 (counterexample): with a start-up in which the greeting is sent,
    the handle exists before the first cycle; the first cycle sends no
    message at all, it edits the greeting; so the handle is not created on
    the first cycle.  And a cycle whose edit fails and whose new message
    cannot be sent adopts no new handle. *)
Lemma handle_exists_before_first_cycle :
  let w0 := exec (startup configAB readyOk) initialWorld in
  let w1 := exec (doMonitoringCycle configAB envAllUp) w0 in
  statusMessage w0 = Some 0%nat /\
  (forall content, ~ In (SendDM content) (newTrace w0 w1)) /\
  (exists content, newTrace w0 w1
     = [CallCheckWebsite 0; CallCheckTcpPort 0; EditMsg 0%nat content]) /\
  statusMessage w1 = Some 0%nat /\
  statusMessage (exec (doMonitoringCycle configAB envEditAndSendFail) w0)
  = Some 0%nat.
Proof.
  vm_compute. split; [reflexivity |]. split; [| split; [| split; reflexivity]].
  - intros content [H|[H|[H|[]]]]; discriminate.
  - eexists. reflexivity.
Qed.

(** * Further properties of the engine *)

(** ** The HTTP probe: classification *)

(** A website is reported [ok] exactly when a response arrived, the URL is
    not plain [http://] and the status lies in [200,400). *)
Theorem checkWebsite_ok_iff (cfg : WebsiteCfg) (out : FetchOutcome) :
  state (checkWebsite cfg out) = ok <->
  exists status,
    out = Responded status /\
    startsWith (toLowerCase (w_url cfg)) "http://" = false /\
    200 <= status < 400.
Proof.
  unfold checkWebsite, inOkRange. split.
  - destruct out as [status|err].
    + destruct (startsWith (toLowerCase (w_url cfg)) "http://") eqn:Hh.
      { destruct (_ && _); discriminate. }
      destruct ((200 <=? status) && (status <? 400)) eqn:R; [| discriminate].
      intros _. exists status. apply andb_true_iff in R. destruct R as [R1 R2].
      apply Z.leb_le in R1. apply Z.ltb_lt in R2. auto.
    + destruct (isTlsErrorCode err); [discriminate |].
      destruct (String.eqb _ _); discriminate.
  - intros (status & -> & -> & H1 & H2).
    apply Z.leb_le in H1. apply Z.ltb_lt in H2. now rewrite H1, H2.
Qed.

(** A website is reported [tls_error] exactly when the fetch was rejected
    with an error whose code is non-empty and starts with [CERT_] or is one
    of the two codes compared for equality; the name of the error plays no
    part, so a certificate code on an abort error still gives [tls_error],
    and a response never does. *)
Theorem checkWebsite_tls_error_iff (cfg : WebsiteCfg) (out : FetchOutcome) :
  state (checkWebsite cfg out) = tls_error <->
  exists err c,
    out = Rejected err /\ err_code err = Some c /\ c <> "" /\
    (String.prefix "CERT_" c = true
     \/ c = "UNABLE_TO_VERIFY_LEAF_SIGNATURE"
     \/ c = "DEPTH_ZERO_SELF_SIGNED_CERT").
Proof.
  unfold checkWebsite. split.
  - destruct out as [status|err].
    + destruct (startsWith _ _); destruct (inOkRange status); discriminate.
    + destruct (isTlsErrorCode err) eqn:T.
      * intros _. unfold isTlsErrorCode in T.
        destruct (err_code err) as [c|] eqn:C; [| discriminate].
        apply andb_true_iff in T. destruct T as [N T].
        apply negb_true_iff, String.eqb_neq in N.
        exists err, c. repeat split; try assumption.
        apply orb_true_iff in T. destruct T as [T|T].
        -- apply orb_true_iff in T. destruct T as [T|T]; [now left |].
           apply String.eqb_eq in T. auto.
        -- apply String.eqb_eq in T. auto.
      * destruct (String.eqb _ _); discriminate.
  - intros (err & c & -> & C & N & H).
    assert (T : isTlsErrorCode err = true).
    { unfold isTlsErrorCode. rewrite C. apply andb_true_iff. split.
      - now apply negb_true_iff, String.eqb_neq.
      - unfold startsWith. destruct H as [H|[H|H]].
        + now rewrite H.
        + subst c. reflexivity.
        + subst c. reflexivity. }
    now rewrite T.
Qed.

(** Whatever the outcome, the report line of a website contains its name,
    or "Unbenannt" when the name is missing or empty, and its URL, in the
    form [**name** (url)]. *)
Theorem checkWebsite_text_names_site (cfg : WebsiteCfg) (out : FetchOutcome) :
  exists pre post,
    text (checkWebsite cfg out)
    = pre +:+ "**" +:+ strOr (w_name cfg) "Unbenannt" +:+ "** ("
      +:+ w_url cfg +:+ ")" +:+ post.
Proof.
  unfold checkWebsite.
  destruct out as [status|err].
  - destruct (startsWith _ _); destruct (inOkRange status); cbn [text].
    + exists "⚠️ ", (" – HTTP " +:+ pretty status +:+ " (ohne TLS, evtl. unsicher)").
      reflexivity.
    + exists "❌ ", (" – HTTP " +:+ pretty status +:+ " (ohne TLS)"). reflexivity.
    + exists "✅ ", (" – HTTP " +:+ pretty status). reflexivity.
    + exists "❌ ", (" – HTTP " +:+ pretty status). reflexivity.
  - destruct (isTlsErrorCode err); [| destruct (String.eqb _ _)]; cbn [text].
    + exists "🔒❌ ",
        (" – TLS/Zertifikatfehler (Website nicht sicher?) – "
         +:+ default "" (err_code err)).
      reflexivity.
    + exists "⏱️ ",
        (" – Timeout nach " +:+ Js.toString (checkWebsite_timeoutMs cfg) +:+ "ms").
      reflexivity.
    + exists "❌ ",
        (" – Fehler: " +:+ strOr (err_name err) "Error" +:+ ": "
         +:+ err_message err).
      reflexivity.
Qed.

(** ** Keys of websites *)

Lemma pretty_N_char_digit (x : N) : isDigit (pretty_N_char x) = true.
Proof.
  unfold pretty_N_char.
  destruct x as [|p]; [reflexivity |].
  do 4 (try destruct p as [p|p|]; try reflexivity).
Qed.

Lemma allDigits_app (a b : string) :
  allDigits (a +:+ b) = allDigits a && allDigits b.
Proof.
  induction a as [|c a IH]; [reflexivity |].
  rewrite append_cons. cbn [allDigits]. now rewrite IH, andb_assoc.
Qed.

Lemma pretty_N_go_digits (x : N) :
  forall s, exists d, pretty_N_go x s = d +:+ s /\ allDigits d = true.
Proof.
  induction (N.lt_wf_0 x) as [x _ IH]. intros s.
  destruct (N.eq_dec x 0%N) as [->|Hx].
  - exists "". now rewrite pretty_N_go_0.
  - rewrite pretty_N_go_step by lia.
    destruct (IH (x `div` 10)%N) with (s := String (pretty_N_char (x `mod` 10)) s)
      as (d & E & D); [apply N.div_lt; lia |].
    exists (d +:+ String (pretty_N_char (x `mod` 10)) "").
    rewrite E, append_assoc. split; [reflexivity |].
    rewrite allDigits_app, D. cbn. now rewrite pretty_N_char_digit.
Qed.

(** The decimal form of an index is a non-empty string of digits. *)
Lemma pretty_nat_digits (n : nat) :
  allDigits (pretty n) = true /\ pretty n <> "".
Proof.
  unfold pretty, pretty_nat, pretty, pretty_N.
  destruct (decide (N.of_nat n = 0%N)) as [_|Hn]; [now split |].
  rewrite pretty_N_go_step by lia.
  destruct (pretty_N_go_digits (N.of_nat n `div` 10)%N
              (String (pretty_N_char (N.of_nat n `mod` 10)) ""))
    as (d & -> & D).
  split.
  - rewrite allDigits_app, D. cbn. now rewrite pretty_N_char_digit.
  - destruct d; discriminate.
Qed.

(** Digits followed by a colon determine the digits. *)
Lemma digits_colon_inj (d1 d2 r1 r2 : string) :
  allDigits d1 = true -> allDigits d2 = true ->
  d1 +:+ ":" +:+ r1 = d2 +:+ ":" +:+ r2 -> d1 = d2 /\ r1 = r2.
Proof.
  revert d2. induction d1 as [|c d1 IH]; intros [|c' d2] D1 D2 E.
  - injection E as E. now split.
  - rewrite append_cons in E. injection E as <- _.
    cbn in D2. discriminate.
  - rewrite append_cons in E. injection E as -> _.
    cbn in D1. discriminate.
  - rewrite !append_cons in E. injection E as <- E.
    cbn [allDigits] in D1, D2.
    apply andb_true_iff in D1, D2. destruct D1 as [_ D1], D2 as [_ D2].
    destruct (IH d2 D1 D2 E) as [-> ->]. now split.
Qed.

Lemma getWebsiteKey_noId (cfg : WebsiteCfg) (i : nat) :
  hasNoId cfg = true ->
  getWebsiteKey cfg i = pretty i +:+ ":" +:+ w_url cfg.
Proof.
  unfold hasNoId, getWebsiteKey, strOr.
  destruct (w_id cfg) as [s|]; [| reflexivity]. now intros ->.
Qed.

(** For websites without a usable [id] the key determines the index and
    the URL: two entries of the configuration never share a key, even with
    the same URL.  Such a key starts with a digit, so it is no property
    name of [Object.prototype]. *)
Theorem getWebsiteKey_default_injective (cfg1 cfg2 : WebsiteCfg) (i j : nat)
    (H1 : hasNoId cfg1 = true) (H2 : hasNoId cfg2 = true) :
  (getWebsiteKey cfg1 i = getWebsiteKey cfg2 j ->
   i = j /\ w_url cfg1 = w_url cfg2) /\
  getWebsiteKey cfg1 i ∉ objectPrototypeKeys.
Proof.
  rewrite (getWebsiteKey_noId _ _ H1), (getWebsiteKey_noId _ _ H2).
  destruct (pretty_nat_digits i) as [Di Ni], (pretty_nat_digits j) as [Dj Nj].
  split.
  - intros E. destruct (digits_colon_inj _ _ _ _ Di Dj E) as [E1 E2].
    split; [| exact E2]. now apply (inj pretty).
  - destruct (pretty i) as [|c d]; [congruence |].
    cbn [allDigits] in Di. apply andb_true_iff in Di. destruct Di as [Dc _].
    rewrite append_cons. unfold objectPrototypeKeys.
    rewrite !elem_of_cons, elem_of_nil.
    intros [E|[E|[E|[E|[E|[E|[E|[E|[E|[E|[E|[E|[]]]]]]]]]]]]];
      injection E as -> _; discriminate.
Qed.

Lemma getWebsiteKey_default_injective_witness :
  getWebsiteKey siteGood 0 <> getWebsiteKey siteTwin 1
  /\ getWebsiteKey siteGood 0 ∉ objectPrototypeKeys.
Proof.
  destruct (getWebsiteKey_default_injective siteGood siteTwin 0 1
              eq_refl eq_refl) as [Hinj Hfresh].
  split; [| exact Hfresh].
  intros E. destruct (Hinj E) as [E' _]. discriminate.
Defined.

(** ** The cycle after its website loop *)

Section Preserves.
Context {B : Type} (f : World -> B).

Lemma preserves_ret {A} (a : A) : preserves f (ret a).
Proof. now intros w. Qed.

Lemma preserves_throw {A} (e : string) : preserves f (@throw A e).
Proof. now intros w. Qed.

Lemma preserves_never {A} : preserves f (@never A).
Proof. now intros w. Qed.

Lemma preserves_gets {A} (g : World -> A) : preserves f (gets g).
Proof. now intros w. Qed.

Lemma preserves_act (g : World -> World) :
  (forall w, f (g w) = f w) -> preserves f (act g).
Proof. intros H w. apply H. Qed.

Lemma preserves_bind {A A'} (m : M A) (k : A -> M A') :
  preserves f m -> (forall a, preserves f (k a)) -> preserves f (bind m k).
Proof.
  intros Hm Hk w. unfold bind. specialize (Hm w).
  destruct (m w) as [[a|e|] w1]; cbn in Hm; [| exact Hm ..].
  now rewrite Hk.
Qed.

Lemma preserves_tryCatch {A} (m : M A) (h : string -> M A) :
  preserves f m -> (forall e, preserves f (h e)) -> preserves f (tryCatch m h).
Proof.
  intros Hm Hh w. unfold tryCatch. specialize (Hm w).
  destruct (m w) as [[a|e|] w1]; cbn in Hm; [exact Hm | | exact Hm].
  now rewrite Hh.
Qed.
End Preserves.

Create HintDb pres discriminated.

#[local] Hint Resolve preserves_ret preserves_throw preserves_never
  preserves_gets : pres.
#[local] Hint Extern 2 (preserves _ (bind _ _)) =>
  apply preserves_bind; [| intros ?] : pres.
#[local] Hint Extern 2 (preserves _ (tryCatch _ _)) =>
  apply preserves_tryCatch; [| intros ?] : pres.
#[local] Hint Extern 3 (preserves _ (act _)) =>
  apply preserves_act; intros ?; reflexivity : pres.
#[local] Hint Extern 4 (preserves _ (match ?x with _ => _ end)) =>
  destruct x : pres.

Lemma pushReport_store env content :
  preserves lastWebsiteStates (pushReport env content).
Proof.
  unfold pushReport, messageEdit, ensureOwner, ownerSend, usersFetch.
  auto 12 with pres.
Qed.

Lemma portBody_store env i cfg lines :
  preserves lastWebsiteStates (portBody env i cfg lines).
Proof.
  unfold portBody, protoOf.
  apply preserves_bind; [auto with pres |]. intros proto.
  apply preserves_bind; [| auto with pres].
  destruct (String.eqb proto "tcp"); [auto 7 with pres |].
  destruct (String.eqb proto "udp"); auto 7 with pres.
Qed.

Lemma portLoop_store env cfgs :
  forall i lines, preserves lastWebsiteStates (portLoop env i cfgs lines).
Proof.
  induction cfgs as [|cfg cfgs IH]; intros i lines; cbn [portLoop].
  - auto with pres.
  - apply preserves_bind; [apply portBody_store | auto].
Qed.

Lemma afterWebsites_store c env lines :
  preserves lastWebsiteStates (afterWebsites c env lines).
Proof.
  unfold afterWebsites.
  pose proof pushReport_store. pose proof portLoop_store.
  apply preserves_tryCatch; [| auto with pres].
  apply preserves_bind; [| auto].
  apply preserves_bind; [| auto with pres].
  destruct (0 <? length (PORTS c))%nat; auto with pres.
Qed.

Lemma afterWebsites_quiet c env lines :
  emitsOnly quiet (afterWebsites c env lines).
Proof.
  unfold afterWebsites.
  pose proof pushReport_quiet. pose proof portLoop_quiet.
  apply emitsOnly_tryCatch; [| auto with emits].
  apply emitsOnly_bind; [| auto].
  apply emitsOnly_bind; [| auto with emits].
  destruct (0 <? length (PORTS c))%nat; auto with emits.
Qed.

(** The website section always completes; the cycle is that section
    followed by the rest. *)
Lemma doMonitoringCycle_split (c : Config) (env : CycleEnv) (w : World) :
  exists lines,
    websitesPart c env w
    = (Return lines,
       exec (websiteLoop env 0 (WEBSITES c) ["📡 **Webseiten-Status:**"]) w) /\
    doMonitoringCycle c env w
    = afterWebsites c env lines
        (exec (websiteLoop env 0 (WEBSITES c) ["📡 **Webseiten-Status:**"]) w).
Proof.
  assert (S : forall lines w1,
            websitesPart c env w = (Return lines, w1) ->
            doMonitoringCycle c env w = afterWebsites c env lines w1).
  { intros lines w1 E.
    unfold doMonitoringCycle, cycleBody, buildReport, afterWebsites.
    unfold websitesPart in E. unfold tryCatch, bind in *.
    cbn [app] in *. now rewrite E. }
  unfold websitesPart in *.
  destruct (WEBSITES c) as [|cfg0 cfgs] eqn:W.
  - exists []. split; [reflexivity |]. now apply S.
  - change (0 <? length (cfg0 :: cfgs))%nat with true in *. cbn iota in *.
    destruct (websiteLoop_spec env (cfg0 :: cfgs) 0 ["📡 **Webseiten-Status:**"] w)
      as (lines' & new & w' & E & _).
    assert (E' : (l <- websiteLoop env 0 (cfg0 :: cfgs)
                        ([] ++ ["📡 **Webseiten-Status:**"]) ;;
                  ret (l ++ [""])) w
                 = (Return (lines' ++ [""]), w')).
    { unfold bind. cbn [app]. now rewrite E. }
    exists (lines' ++ [""]). unfold exec. rewrite E. cbn [snd].
    split; [exact E' | now apply S].
Qed.

(** ** Alerts across cycles *)

(** The alert calls of a whole cycle for the website at index [j]. *)
Lemma cycle_alert_counts (c : Config) (env : CycleEnv) (w : World)
    (j : nat) (cfg : WebsiteCfg) :
  WEBSITES c !! j = Some cfg ->
  let result := checkWebsite cfg (net_fetch env j) in
  let before :=
    exec (websiteLoop env 0 (take j (WEBSITES c)) ["📡 **Webseiten-Status:**"]) w in
  let prevState :=
    prevStateOf (lastWebsiteStates before) (getWebsiteKey cfg j) in
  let new := newTrace w (exec (doMonitoringCycle c env) w) in
  problemCalls j new = (if isNewProblem result prevState then 1 else 0)%nat /\
  recoveryCalls j new = (if isRecovery result prevState then 1 else 0)%nat.
Proof.
  intros Hj result before prevState new.
  destruct (doMonitoringCycle_split c env w) as (lines & _ & E).
  destruct (afterWebsites_quiet c env lines
              (exec (websiteLoop env 0 (WEBSITES c) ["📡 **Webseiten-Status:**"]) w))
    as (rest & T & Q).
  destruct (websiteLoop_spec env (WEBSITES c) 0 ["📡 **Webseiten-Status:**"] w)
    as (lines' & new0 & w' & E0 & T0 & _ & _ & At).
  destruct (At j cfg Hj) as [Ap Ar]. cbn [Nat.add] in Ap, Ar.
  assert (N : new = new0 ++ rest).
  { subst new. apply newTrace_app. unfold exec at 1. rewrite E, T.
    unfold exec. rewrite E0. cbn [snd]. now rewrite T0, app_assoc. }
  destruct (no_alert_calls j rest Q) as [Zp Zr].
  rewrite N, problemCalls_app, recoveryCalls_app, Zp, Zr, !Nat.add_0_r.
  split; [exact Ap | exact Ar].
Qed.

(** The last write under a key wins: after the loop the store holds, under
    the key of the website at position [j], the state of that website,
    provided no later website has the same key. *)
Lemma websiteLoop_store_at env (cfgs : list WebsiteCfg) :
  forall i lines (w : World) j cfg,
    cfgs !! j = Some cfg ->
    getWebsiteKey cfg (i + j) <> "__proto__" ->
    (forall k cfg', (j < k)%nat -> cfgs !! k = Some cfg' ->
       getWebsiteKey cfg' (i + k) <> getWebsiteKey cfg (i + j)) ->
    lastWebsiteStates (exec (websiteLoop env i cfgs lines) w)
      !! getWebsiteKey cfg (i + j)
    = Some (state (checkWebsite cfg (net_fetch env (i + j)%nat))).
Proof.
  induction cfgs as [|cfg0 cfgs IH]; intros i lines w j cfg Hj Hp Hl;
    [discriminate |].
  destruct (websiteBody_spec env i cfg0 lines w)
    as (new0 & w0 & E0 & _ & _ & _ & S0 & _).
  unfold exec. rewrite (exec_websiteLoop_cons _ _ _ _ _ _ _ _ E0).
  fold (exec (websiteLoop env (S i) cfgs
                (lines ++ ["- " +:+ text (checkWebsite cfg0 (net_fetch env i))]))
          w0).
  destruct j as [|j].
  - cbn in Hj. injection Hj as <-. rewrite Nat.add_0_r in *.
    rewrite websiteLoop_store_other.
    + rewrite S0. unfold Store.set.
      apply String.eqb_neq in Hp. rewrite Hp. apply lookup_insert_eq.
    + intros k cfg' Hk.
      replace (S i + k)%nat with (i + S k)%nat by lia.
      apply (Hl (S k) cfg'); [lia | exact Hk].
  - cbn in Hj. replace (i + S j)%nat with (S i + j)%nat in * by lia.
    apply IH; [exact Hj | exact Hp |].
    intros k cfg' Hk Hc.
    specialize (Hl (S k) cfg').
    replace (i + S k)%nat with (S i + k)%nat in Hl by lia.
    apply Hl; [lia | exact Hc].
Qed.

(** After a cycle the store holds the state of each website under its key,
    when the keys are distinct: the port loop and the report do not touch
    the store, whatever happens in them. *)
Lemma cycle_store_at (c : Config) (env : CycleEnv) (w : World)
    (j : nat) (cfg : WebsiteCfg) :
  WEBSITES c !! j = Some cfg ->
  keysDistinct (WEBSITES c) ->
  getWebsiteKey cfg j <> "__proto__" ->
  lastWebsiteStates (exec (doMonitoringCycle c env) w) !! getWebsiteKey cfg j
  = Some (state (checkWebsite cfg (net_fetch env j))).
Proof.
  intros Hj Hd Hp.
  destruct (doMonitoringCycle_split c env w) as (lines & _ & E).
  unfold exec at 1. rewrite E.
  rewrite (afterWebsites_store c env lines).
  apply (websiteLoop_store_at env (WEBSITES c) 0 _ w j cfg Hj Hp).
  intros k cfg' Hlt Hk Hc. cbn [Nat.add] in Hc.
  specialize (Hd k j cfg' cfg Hk Hj Hc). lia.
Qed.

(** With distinct keys the previous state of a website is read from the
    store as the cycle found it. *)
Lemma cycle_prevState (c : Config) (env : CycleEnv) (w : World)
    (j : nat) (cfg : WebsiteCfg) :
  WEBSITES c !! j = Some cfg ->
  keysDistinct (WEBSITES c) ->
  prevStateOf
    (lastWebsiteStates
       (exec (websiteLoop env 0 (take j (WEBSITES c))
                ["📡 **Webseiten-Status:**"]) w))
    (getWebsiteKey cfg j)
  = prevStateOf (lastWebsiteStates w) (getWebsiteKey cfg j).
Proof.
  intros Hj Hd. apply prevStateOf_ext, websiteLoop_store_other.
  intros k cfg' Hk Hc.
  apply lookup_take_Some in Hk. destruct Hk as [Hk Hlt].
  cbn [Nat.add] in Hc. specialize (Hd k j cfg' cfg Hk Hj Hc). lia.
Qed.

(** Two cycles in a row, with distinct keys: what the second cycle does
    for a website depends only on the states [s1] and [s2] the two checks
    gave.  The problem alert is invoked once if [s2] is not [ok] and
    differs from [s1], else not at all; the recovery alert is invoked once
    if [s2] is [ok] and [s1] was not, else not at all.  So a failure that
    lasts is alerted once, a change from [down] to [tls_error] is alerted
    again, and a website that stays [ok] never alerts. *)
Theorem alerts_between_cycles (c : Config) (env1 env2 : CycleEnv) (w : World)
    (j : nat) (cfg : WebsiteCfg)
    (Hj : WEBSITES c !! j = Some cfg)
    (Hd : keysDistinct (WEBSITES c))
    (Hp : getWebsiteKey cfg j <> "__proto__") :
  let s1 := state (checkWebsite cfg (net_fetch env1 j)) in
  let s2 := state (checkWebsite cfg (net_fetch env2 j)) in
  let w1 := exec (doMonitoringCycle c env1) w in
  let w2 := exec (doMonitoringCycle c env2) w1 in
  problemCalls j (newTrace w1 w2)
  = (if bool_decide (s2 <> ok /\ s2 <> s1) then 1 else 0)%nat /\
  recoveryCalls j (newTrace w1 w2)
  = (if bool_decide (s2 = ok /\ s1 <> ok) then 1 else 0)%nat.
Proof.
  intros s1 s2 w1 w2.
  destruct (cycle_alert_counts c env2 w1 j cfg Hj) as [Ap Ar].
  rewrite (cycle_prevState c env2 w1 j cfg Hj Hd) in Ap, Ar.
  assert (P : prevStateOf (lastWebsiteStates w1) (getWebsiteKey cfg j)
              = SState s1).
  { unfold prevStateOf, Store.get. subst w1.
    now rewrite (cycle_store_at c env1 w j cfg Hj Hd Hp). }
  rewrite P in Ap, Ar. fold w2 in Ap, Ar. rewrite Ap, Ar.
  unfold isNewProblem, isRecovery. fold s2.
  split.
  - destruct s2, s1; reflexivity.
  - destruct s2, s1; reflexivity.
Qed.

Lemma noId_key_inj (cfg1 cfg2 : WebsiteCfg) (i j : nat) :
  hasNoId cfg1 = true -> hasNoId cfg2 = true ->
  getWebsiteKey cfg1 i = getWebsiteKey cfg2 j -> i = j.
Proof.
  intros H1 H2.
  rewrite (getWebsiteKey_noId _ _ H1), (getWebsiteKey_noId _ _ H2).
  destruct (pretty_nat_digits i) as [Di _], (pretty_nat_digits j) as [Dj _].
  intros E. destruct (digits_colon_inj _ _ _ _ Di Dj E) as [E1 _].
  now apply (inj pretty).
Qed.

Lemma noId_key_fresh (cfg : WebsiteCfg) (i : nat) :
  hasNoId cfg = true -> getWebsiteKey cfg i ∉ objectPrototypeKeys.
Proof.
  intros H. rewrite (getWebsiteKey_noId _ _ H).
  destruct (pretty_nat_digits i) as [Di Ni].
  destruct (pretty i) as [|ch d]; [congruence |].
  cbn [allDigits] in Di. apply andb_true_iff in Di. destruct Di as [Dc _].
  rewrite append_cons. unfold objectPrototypeKeys.
  rewrite !elem_of_cons, elem_of_nil.
  intros [E|[E|[E|[E|[E|[E|[E|[E|[E|[E|[E|[E|[]]]]]]]]]]]]];
    injection E as -> _; discriminate.
Qed.

Lemma noId_keysDistinct (cfgs : list WebsiteCfg) :
  Forall (fun cfg => hasNoId cfg = true) cfgs -> keysDistinct cfgs.
Proof.
  intros F k k' cfg cfg' Hk Hk' E.
  rewrite Forall_forall in F.
  apply (noId_key_inj cfg cfg'); [| | exact E].
  - apply F. eapply list_elem_of_lookup_2, Hk.
  - apply F. eapply list_elem_of_lookup_2, Hk'.
Qed.

Lemma alerts_between_cycles_witness :
  problemCalls 0
    (newTrace (exec (doMonitoringCycle configAB envCertExpired) initialWorld)
       (exec (doMonitoringCycle configAB envCertExpired)
          (exec (doMonitoringCycle configAB envCertExpired) initialWorld)))
  = 0%nat
  /\ recoveryCalls 0
       (newTrace (exec (doMonitoringCycle configAB envCertExpired) initialWorld)
          (exec (doMonitoringCycle configAB envAllUp)
             (exec (doMonitoringCycle configAB envCertExpired) initialWorld)))
     = 1%nat.
Proof.
  assert (Hd : keysDistinct (WEBSITES configAB)).
  { apply noId_keysDistinct. repeat constructor. }
  assert (Hp : getWebsiteKey siteGood 0 <> "__proto__") by discriminate.
  split.
  - exact (proj1 (alerts_between_cycles configAB envCertExpired envCertExpired
                    initialWorld 0 siteGood eq_refl Hd Hp)).
  - exact (proj2 (alerts_between_cycles configAB envCertExpired envAllUp
                    initialWorld 0 siteGood eq_refl Hd Hp)).
Defined.

(** The first observation of websites without a usable [id]: when the
    store holds nothing under the key of a website, a cycle invokes the
    problem alert for it exactly once if its state is not [ok] and not at
    all if it is [ok], and never the recovery alert. *)
Theorem first_observation_alerts (c : Config) (env : CycleEnv) (w : World)
    (j : nat) (cfg : WebsiteCfg)
    (Hj : WEBSITES c !! j = Some cfg)
    (Hn : Forall (fun cfg => hasNoId cfg = true) (WEBSITES c))
    (He : lastWebsiteStates w !! getWebsiteKey cfg j = None) :
  let s := state (checkWebsite cfg (net_fetch env j)) in
  let new := newTrace w (exec (doMonitoringCycle c env) w) in
  problemCalls j new = (if bool_decide (s = ok) then 0 else 1)%nat /\
  recoveryCalls j new = 0%nat.
Proof.
  intros s new.
  destruct (cycle_alert_counts c env w j cfg Hj) as [Ap Ar].
  rewrite (cycle_prevState c env w j cfg Hj (noId_keysDistinct _ Hn)) in Ap, Ar.
  assert (Hc : hasNoId cfg = true).
  { rewrite Forall_forall in Hn. apply Hn. eapply list_elem_of_lookup_2, Hj. }
  destruct (first_observation (lastWebsiteStates w) (getWebsiteKey cfg j)
              (checkWebsite cfg (net_fetch env j)) He (noId_key_fresh cfg j Hc))
    as [Fp Fr].
  rewrite Fp in Ap. rewrite Fr in Ar. fold new in Ap, Ar. fold s in Ap.
  rewrite Ap, Ar. split; [| reflexivity].
  now destruct (bool_decide (s = ok)).
Qed.

Lemma first_observation_alerts_witness :
  problemCalls 0
    (newTrace initialWorld
       (exec (doMonitoringCycle configAB envCertExpired) initialWorld))
  = 1%nat
  /\ problemCalls 0
       (newTrace initialWorld
          (exec (doMonitoringCycle configAB envAllUp) initialWorld))
     = 0%nat.
Proof.
  assert (Hn : Forall (fun cfg => hasNoId cfg = true) (WEBSITES configAB))
    by (repeat constructor).
  split.
  - exact (proj1 (first_observation_alerts configAB envCertExpired initialWorld
                    0 siteGood eq_refl Hn eq_refl)).
  - exact (proj1 (first_observation_alerts configAB envAllUp initialWorld
                    0 siteGood eq_refl Hn eq_refl)).
Defined.

(** ** Delivery of alerts *)

(** Both alert functions return normally whatever Discord does.  They send
    one direct message when the owner is known or can be fetched, and none
    when the fetch fails; a failed send is not repeated.  The problem alert
    is headed by the title of the state, the recovery alert by its own
    heading; both name the website and end with the report line.  The
    owner fetched is kept; the store and the status message are not
    touched. *)
Theorem alerts_send_at_most_one_dm (i : nat) (cfg : WebsiteCfg)
    (result : ProbeResult) (fetchRes : option User) (sendRes : option Msg)
    (w : World) :
  (exists w',
     sendWebsiteProblemAlert i cfg result fetchRes sendRes w = (Return tt, w') /\
     sentDMs (newTrace w w')
     = match ownerAfter w fetchRes with
       | Some _ => [alertTitle result +:+ nl +:+ "**" +:+ strOr (w_name cfg) "Unbenannt"
          +:+ "** (" +:+ w_url cfg +:+ ")" +:+ nl +:+ text result]
       | None => []
       end /\
     ownerUser w' = ownerAfter w fetchRes /\
     lastWebsiteStates w' = lastWebsiteStates w /\
     statusMessage w' = statusMessage w) /\
  (exists w',
     sendWebsiteRecoveryAlert i cfg result fetchRes sendRes w = (Return tt, w') /\
     sentDMs (newTrace w w')
     = match ownerAfter w fetchRes with
       | Some _ =>
           ["✅ Recovery" +:+ nl +:+ "**" +:+ strOr (w_name cfg) "Unbenannt"
            +:+ "** (" +:+ w_url cfg
            +:+ ") ist wieder erreichbar / ohne SSL-Fehler." +:+ nl
            +:+ text result]
       | None => []
       end /\
     ownerUser w' = ownerAfter w fetchRes /\
     lastWebsiteStates w' = lastWebsiteStates w /\
     statusMessage w' = statusMessage w).
Proof.
  unfold sendWebsiteProblemAlert, sendWebsiteRecoveryAlert, fetchOwnerOrReturn,
    sendOrLog, usersFetch, ownerSend, ownerAfter, newTrace.
  unfoldM. cbn.
  split.
  - destruct (ownerUser w) as [u|] eqn:O; cbn.
    + destruct sendRes; cbn; eexists; (split; [reflexivity |]); cbn;
        rewrite <- ?app_assoc, drop_app_length; cbn; rewrite ?O; auto.
    + destruct fetchRes as [u|]; cbn.
      * destruct sendRes; cbn; eexists; (split; [reflexivity |]); cbn;
          rewrite <- ?app_assoc, drop_app_length; cbn; auto.
      * eexists; (split; [reflexivity |]); cbn;
          rewrite <- ?app_assoc, drop_app_length; cbn; rewrite ?O; auto.
  - destruct (ownerUser w) as [u|] eqn:O; cbn.
    + destruct sendRes; cbn; eexists; (split; [reflexivity |]); cbn;
        rewrite <- ?app_assoc, drop_app_length; cbn; rewrite ?O; auto.
    + destruct fetchRes as [u|]; cbn.
      * destruct sendRes; cbn; eexists; (split; [reflexivity |]); cbn;
          rewrite <- ?app_assoc, drop_app_length; cbn; auto.
      * eexists; (split; [reflexivity |]); cbn;
          rewrite <- ?app_assoc, drop_app_length; cbn; rewrite ?O; auto.
Qed.

(** ** Invariants of the process state *)

Section Keeps.
Context (I : World -> Prop).

Lemma keeps_ret {A} (a : A) : keeps I (ret a).
Proof. now intros w. Qed.

Lemma keeps_throw {A} (e : string) : keeps I (@throw A e).
Proof. now intros w. Qed.

Lemma keeps_never {A} : keeps I (@never A).
Proof. now intros w. Qed.

Lemma keeps_gets {A} (g : World -> A) : keeps I (gets g).
Proof. now intros w. Qed.

Lemma keeps_act (g : World -> World) :
  (forall w, I w -> I (g w)) -> keeps I (act g).
Proof. intros H w. apply H. Qed.

Lemma keeps_bind {A A'} (m : M A) (k : A -> M A') :
  keeps I m -> (forall a, keeps I (k a)) -> keeps I (bind m k).
Proof.
  intros Hm Hk w Hw. unfold bind. specialize (Hm w Hw).
  destruct (m w) as [[a|e|] w1]; cbn in Hm; [| exact Hm ..].
  now apply Hk.
Qed.

Lemma keeps_tryCatch {A} (m : M A) (h : string -> M A) :
  keeps I m -> (forall e, keeps I (h e)) -> keeps I (tryCatch m h).
Proof.
  intros Hm Hh w Hw. unfold tryCatch. specialize (Hm w Hw).
  destruct (m w) as [[a|e|] w1]; cbn in Hm; [exact Hm | | exact Hm].
  now apply Hh.
Qed.

(** The two loops keep what their bodies keep. *)
Lemma keeps_websiteLoop env :
  (forall i cfg lines, keeps I (websiteBody env i cfg lines)) ->
  forall cfgs i lines, keeps I (websiteLoop env i cfgs lines).
Proof.
  intros Hb. induction cfgs as [|cfg cfgs IH]; intros i lines; cbn [websiteLoop].
  - apply keeps_ret.
  - apply keeps_bind; [apply Hb | intros; apply IH].
Qed.

Lemma keeps_portLoop env :
  (forall i cfg lines, keeps I (portBody env i cfg lines)) ->
  forall cfgs i lines, keeps I (portLoop env i cfgs lines).
Proof.
  intros Hb. induction cfgs as [|cfg cfgs IH]; intros i lines; cbn [portLoop].
  - apply keeps_ret.
  - apply keeps_bind; [apply Hb | intros; apply IH].
Qed.

(** A cycle keeps what its loop bodies, its report step and the log of
    its handler keep. *)
Lemma keeps_doMonitoringCycle c env :
  (forall i cfg lines, keeps I (websiteBody env i cfg lines)) ->
  (forall i cfg lines, keeps I (portBody env i cfg lines)) ->
  (forall content, keeps I (pushReport env content)) ->
  (forall what w, I w -> I (emit (ConsoleError what) w)) ->
  keeps I (doMonitoringCycle c env).
Proof.
  intros Hw Hp Hr Hl. unfold doMonitoringCycle, cycleBody, buildReport.
  apply keeps_tryCatch; [| intros e; apply keeps_act, Hl].
  apply keeps_bind; [| exact Hr].
  apply keeps_bind.
  { destruct (0 <? length (WEBSITES c))%nat; [| apply keeps_ret].
    apply keeps_bind; [now apply keeps_websiteLoop |].
    intros; apply keeps_ret. }
  intros lines. apply keeps_bind; [| intros; apply keeps_ret].
  destruct (0 <? length (PORTS c))%nat; [| apply keeps_ret].
  apply keeps_bind; [now apply keeps_portLoop |].
  intros; apply keeps_ret.
Qed.

Lemma keeps_runCycles c :
  (forall env, keeps I (doMonitoringCycle c env)) ->
  forall envs w, I w -> I (runCycles c envs w).
Proof.
  intros Hc. unfold runCycles.
  induction envs as [|env envs IH]; intros w Hw; [exact Hw |].
  cbn [fold_left]. apply IH. unfold exec. now apply Hc.
Qed.

(** What the port loop body does to the world is to record the call of a
    probe. *)
Lemma keeps_portBody env i cfg lines :
  (forall w, I w -> I (emit (CallCheckTcpPort i) w)) ->
  (forall w, I w -> I (emit (CallCheckUdpPort i) w)) ->
  keeps I (portBody env i cfg lines).
Proof.
  intros Ht Hu. unfold portBody, protoOf.
  apply keeps_bind.
  { destruct (Js.or _ _); auto using keeps_ret, keeps_throw. }
  intros proto. apply keeps_bind; [| intros; apply keeps_ret].
  destruct (String.eqb proto "tcp").
  { apply keeps_bind; [now apply keeps_act |]. intros _.
    destruct (checkTcpPort _ _) as [[? [?|?]]|];
      auto using keeps_ret, keeps_throw, keeps_never. }
  destruct (String.eqb proto "udp"); [| apply keeps_ret].
  apply keeps_bind; [now apply keeps_act |]. intros _.
  destruct (udpResult _); auto using keeps_ret, keeps_never.
Qed.
End Keeps.

Create HintDb keeps discriminated.

#[local] Hint Resolve keeps_ret keeps_throw keeps_never keeps_gets : keeps.
#[local] Hint Extern 2 (keeps _ (bind _ _)) =>
  apply keeps_bind; [| intros ?] : keeps.
#[local] Hint Extern 2 (keeps _ (tryCatch _ _)) =>
  apply keeps_tryCatch; [| intros ?] : keeps.
#[local] Hint Extern 4 (keeps _ (match ?x with _ => _ end)) =>
  destruct x : keeps.

(** *** A known owner is not fetched again *)

Lemma ownerKnown_emit u tr0 e (w : World) :
  e <> FetchOwner -> ownerKnown u tr0 w -> ownerKnown u tr0 (emit e w).
Proof.
  intros Ne (O & new & T & F). split; [exact O |].
  exists (new ++ [e]). cbn. rewrite T, app_assoc. split; [reflexivity |].
  apply Forall_app. split; [exact F | now constructor].
Qed.

Lemma ownerKnown_ensureOwner u tr0 res :
  keeps (ownerKnown u tr0) (ensureOwner res).
Proof.
  intros w H. unfold ensureOwner. unfoldM.
  destruct H as (O & R). rewrite O. cbn. now split.
Qed.

Lemma ownerKnown_fetchOwnerOrReturn u tr0 res what (w : World) :
  ownerKnown u tr0 w -> fetchOwnerOrReturn res what w = (Return true, w).
Proof.
  intros (O & _). unfold fetchOwnerOrReturn. unfoldM. now rewrite O.
Qed.

Lemma ownerKnown_sendOrLog u tr0 content res what :
  keeps (ownerKnown u tr0) (sendOrLog content res what).
Proof.
  unfold sendOrLog, ownerSend.
  assert (Ha : forall e, e <> FetchOwner ->
                         keeps (ownerKnown u tr0) (act (emit e))).
  { intros e Ne. apply keeps_act. intros w. now apply ownerKnown_emit. }
  apply keeps_tryCatch; [| intros; now apply Ha].
  apply keeps_bind; [| auto with keeps].
  apply keeps_bind; [now apply Ha | auto with keeps].
Qed.

Lemma ownerKnown_problemAlert u tr0 i cfg result fetchRes sendRes :
  keeps (ownerKnown u tr0) (sendWebsiteProblemAlert i cfg result fetchRes sendRes).
Proof.
  intros w H. unfold sendWebsiteProblemAlert.
  unfold bind at 1. unfold act at 1.
  assert (H0 : ownerKnown u tr0 (emit (CallProblemAlert i cfg result) w))
    by now apply ownerKnown_emit.
  unfold bind at 1. rewrite (ownerKnown_fetchOwnerOrReturn u tr0 _ _ _ H0).
  cbn [negb]. now apply ownerKnown_sendOrLog.
Qed.

Lemma ownerKnown_recoveryAlert u tr0 i cfg result fetchRes sendRes :
  keeps (ownerKnown u tr0) (sendWebsiteRecoveryAlert i cfg result fetchRes sendRes).
Proof.
  intros w H. unfold sendWebsiteRecoveryAlert.
  unfold bind at 1. unfold act at 1.
  assert (H0 : ownerKnown u tr0 (emit (CallRecoveryAlert i cfg result) w))
    by now apply ownerKnown_emit.
  unfold bind at 1. rewrite (ownerKnown_fetchOwnerOrReturn u tr0 _ _ _ H0).
  cbn [negb]. now apply ownerKnown_sendOrLog.
Qed.

Lemma ownerKnown_websiteBody u tr0 env i cfg lines :
  keeps (ownerKnown u tr0) (websiteBody env i cfg lines).
Proof.
  unfold websiteBody.
  pose proof (ownerKnown_problemAlert u tr0).
  pose proof (ownerKnown_recoveryAlert u tr0).
  apply keeps_bind.
  { apply keeps_act. intros w. now apply ownerKnown_emit. }
  intros _. apply keeps_bind; [auto with keeps |]. intros st.
  apply keeps_bind; [destruct (isNewProblem _ _); auto with keeps |].
  intros _.
  apply keeps_bind; [destruct (isRecovery _ _); auto with keeps |].
  intros _. apply keeps_bind; [| auto with keeps].
  apply keeps_act. now intros w.
Qed.

Lemma ownerKnown_pushReport u tr0 env content :
  keeps (ownerKnown u tr0) (pushReport env content).
Proof.
  unfold pushReport, messageEdit, ownerSend.
  pose proof (ownerKnown_ensureOwner u tr0).
  assert (Ha : forall e, e <> FetchOwner ->
                         keeps (ownerKnown u tr0) (act (emit e))).
  { intros e Ne. apply keeps_act. intros w. now apply ownerKnown_emit. }
  assert (Hs : forall m, keeps (ownerKnown u tr0) (act (setStatusMessage m))).
  { intros m. apply keeps_act. now intros w. }
  apply keeps_bind; [auto with keeps |]. intros [m0|].
  - apply keeps_tryCatch.
    + apply keeps_bind; [now apply Ha |]. intros _.
      destruct (report_edit env); auto with keeps.
    + intros _. apply keeps_bind; [auto |]. intros _.
      apply keeps_bind; [| auto].
      apply keeps_bind; [now apply Ha | auto with keeps].
  - apply keeps_bind; [auto |]. intros _.
    apply keeps_bind; [| auto].
    apply keeps_bind; [now apply Ha | auto with keeps].
Qed.

(** Once the owner is known, no number of cycles fetches the owner again
    or forgets it: [client.users.fetch] is only called while [ownerUser]
    is unset. *)
Theorem known_owner_is_not_fetched_again (c : Config) (envs : list CycleEnv)
    (w : World) (u : User) (Hu : ownerUser w = Some u) :
  ownerUser (runCycles c envs w) = Some u /\
  ~ In FetchOwner (newTrace w (runCycles c envs w)).
Proof.
  assert (K : ownerKnown u (trace w) (runCycles c envs w)).
  { apply keeps_runCycles.
    - intros env. apply keeps_doMonitoringCycle.
      + intros; apply ownerKnown_websiteBody.
      + intros; apply keeps_portBody; intros v; now apply ownerKnown_emit.
      + intros; apply ownerKnown_pushReport.
      + intros what v. now apply ownerKnown_emit.
    - split; [exact Hu |]. exists []. now rewrite app_nil_r. }
  destruct K as (O & new & T & F). split; [exact O |].
  rewrite (newTrace_app _ _ _ T). intros In'.
  rewrite Forall_forall in F. apply list_elem_of_In, F in In'. now apply In'.
Qed.

Lemma known_owner_is_not_fetched_again_witness :
  ownerUser (runCycles configAB [envCertExpired; envAllUp] (worldAfter readyOk))
  = Some owner
  /\ ~ In FetchOwner
       (newTrace (worldAfter readyOk)
          (runCycles configAB [envCertExpired; envAllUp] (worldAfter readyOk))).
Proof.
  exact (known_owner_is_not_fetched_again configAB [envCertExpired; envAllUp]
           (worldAfter readyOk) owner eq_refl).
Defined.

(** *** The status message and its owner *)

Section Insensitive.
Context (I : World -> Prop).
Hypothesis I_emit : forall e w, I w -> I (emit e w).
Hypothesis I_owner : forall u w, I w -> I (setOwnerUser (Some u) w).
Hypothesis I_store : forall s w, I w -> I (setLastWebsiteStates s w).

Lemma insensitive_emit e : keeps I (act (emit e)).
Proof. apply keeps_act, I_emit. Qed.

Lemma insensitive_usersFetch res : keeps I (usersFetch res).
Proof.
  unfold usersFetch. pose proof insensitive_emit. auto with keeps.
Qed.

Lemma insensitive_ensureOwner res : keeps I (ensureOwner res).
Proof.
  unfold ensureOwner. pose proof insensitive_usersFetch.
  apply keeps_bind; [auto with keeps |]. intros [u|]; [auto with keeps |].
  apply keeps_bind; [auto |]. intros u. apply keeps_act, I_owner.
Qed.

Lemma insensitive_ownerSend content res : keeps I (ownerSend content res).
Proof. unfold ownerSend. pose proof insensitive_emit. auto with keeps. Qed.

Lemma insensitive_fetchOwnerOrReturn res what :
  keeps I (fetchOwnerOrReturn res what).
Proof.
  unfold fetchOwnerOrReturn.
  pose proof insensitive_usersFetch. pose proof insensitive_emit.
  apply keeps_bind; [auto with keeps |]. intros [u|]; [auto with keeps |].
  apply keeps_tryCatch; [| auto with keeps].
  apply keeps_bind; [auto |]. intros u.
  apply keeps_bind; [apply keeps_act, I_owner | auto with keeps].
Qed.

Lemma insensitive_sendOrLog content res what :
  keeps I (sendOrLog content res what).
Proof.
  unfold sendOrLog.
  pose proof insensitive_ownerSend. pose proof insensitive_emit.
  auto with keeps.
Qed.

Lemma insensitive_websiteBody env i cfg lines :
  keeps I (websiteBody env i cfg lines).
Proof.
  unfold websiteBody, sendWebsiteProblemAlert, sendWebsiteRecoveryAlert.
  pose proof insensitive_fetchOwnerOrReturn.
  pose proof insensitive_sendOrLog. pose proof insensitive_emit.
  apply keeps_bind; [auto |]. intros _.
  apply keeps_bind; [auto with keeps |]. intros st.
  apply keeps_bind.
  { destruct (isNewProblem _ _); [| auto with keeps].
    apply keeps_bind; [auto |]. intros _.
    apply keeps_bind; [auto |]. intros go.
    destruct (negb go); auto with keeps. }
  intros _. apply keeps_bind.
  { destruct (isRecovery _ _); [| auto with keeps].
    apply keeps_bind; [auto |]. intros _.
    apply keeps_bind; [auto |]. intros go.
    destruct (negb go); auto with keeps. }
  intros _. apply keeps_bind; [| auto with keeps].
  apply keeps_act. intros w. apply I_store.
Qed.

(** A cycle keeps a property that no effect, owner or store update can
    break, if its report step keeps it. *)
Lemma insensitive_cycle c env :
  (forall content, keeps I (pushReport env content)) ->
  keeps I (doMonitoringCycle c env).
Proof.
  intros Hr. apply keeps_doMonitoringCycle.
  - intros; apply insensitive_websiteBody.
  - intros; apply keeps_portBody; intros w; apply I_emit.
  - exact Hr.
  - intros what w. apply I_emit.
Qed.
End Insensitive.

Lemma hasHandle_pushReport env content :
  keeps hasHandle (pushReport env content).
Proof.
  unfold pushReport, messageEdit.
  assert (He : forall e, keeps hasHandle (act (emit e)))
    by (intros e; apply keeps_act; now intros w).
  assert (Ho : forall res, keeps hasHandle (ensureOwner res)).
  { intros res. apply insensitive_ensureOwner; now intros. }
  assert (Hs : forall x res, keeps hasHandle (ownerSend x res)).
  { intros x res. apply insensitive_ownerSend; now intros. }
  assert (Hm : forall m, keeps hasHandle (act (setStatusMessage (Some m)))).
  { intros m. apply keeps_act. intros w _. discriminate. }
  apply keeps_bind; [auto with keeps |]. intros [m0|].
  - apply keeps_tryCatch.
    + apply keeps_bind; [auto |]. intros _.
      destruct (report_edit env); auto with keeps.
    + intros _. auto 6 with keeps.
  - auto 6 with keeps.
Qed.

(** The report step holds a status message only with an owner: before it
    adopts a new message the owner is known or has just been fetched. *)
Lemma handleHasOwner_pushReport env content :
  keeps handleHasOwner (pushReport env content).
Proof.
  intros w H. unfold handleHasOwner in *.
  unfold pushReport, messageEdit, ensureOwner, usersFetch, ownerSend.
  unfoldM.
  destruct (statusMessage w) as [m0|] eqn:S; cbn.
  - destruct (report_edit env); cbn; [now rewrite S |].
    destruct (ownerUser w) as [u|] eqn:O; cbn.
    + destruct (report_send env); cbn; rewrite ?O; [discriminate |].
      now rewrite S.
    + exfalso. now apply H.
  - destruct (ownerUser w) as [u|] eqn:O; cbn.
    + destruct (report_send env); cbn; rewrite ?O, ?S; [discriminate | easy].
    + destruct (report_fetchOwner env); cbn; rewrite ?S; [| easy].
      destruct (report_send env); cbn; rewrite ?S; [discriminate | easy].
Qed.

(** A status message is never lost: once [statusMessage] is set, it is
    set after any number of cycles, whatever fails in them. *)
Theorem status_message_is_never_lost (c : Config) (envs : list CycleEnv)
    (w : World) (H : statusMessage w <> None) :
  statusMessage (runCycles c envs w) <> None.
Proof.
  apply (keeps_runCycles hasHandle); [| exact H].
  intros env. apply insensitive_cycle; try (now intros).
  apply hasHandle_pushReport.
Qed.

Lemma status_message_is_never_lost_witness :
  statusMessage
    (runCycles configAB [envEditAndSendFail; envEditFails] (worldAfter readyOk))
  <> None.
Proof.
  apply (status_message_is_never_lost configAB
           [envEditAndSendFail; envEditFails] (worldAfter readyOk)).
  discriminate.
Defined.

(** In every state the process reaches from its start, a status message
    is held only when the owner is known; the fetch of the owner on the
    path of a failed edit is therefore never needed. *)
Theorem reachable_handle_has_owner (c : Config) (renv : ReadyEnv)
    (envs : list CycleEnv) :
  statusMessage (onReady c renv envs) <> None ->
  ownerUser (onReady c renv envs) <> None.
Proof.
  unfold onReady. apply (keeps_runCycles handleHasOwner).
  - intros env. apply insensitive_cycle.
    + now intros e w.
    + intros u w _ _. discriminate.
    + now intros s w.
    + apply handleHasOwner_pushReport.
  - unfold handleHasOwner, exec, startup, usersFetch, ownerSend. unfoldM.
    destruct (ready_fetchOwner renv); cbn; [| easy].
    destruct (ready_send renv); cbn; [discriminate | easy].
Qed.

Lemma reachable_handle_has_owner_witness :
  ownerUser (onReady configAB readyOk [envEditFails; envAllUp]) <> None.
Proof.
  apply (reachable_handle_has_owner configAB readyOk [envEditFails; envAllUp]).
  discriminate.
Defined.

(** ** The TCP probe: sockets *)



(** ** The UDP probe: what the informational result records *)

Lemma sentThenTimer_snoc evs ev : sentThenTimer evs -> sentThenTimer (evs ++ [ev]).
Proof.
  intros (pre & mid & post & ->). exists pre, mid, (post ++ [ev]).
  rewrite <- !app_assoc. cbn. now rewrite <- !app_assoc.
Qed.

Lemma checkUdpPort_sent_inv (cfg : PortCfg) (evs : list UdpEvent) :
  let r := checkUdpPort cfg evs in
  ((0 < pending r)%nat -> In (UdpSendCallback None) evs) /\
  (In (udpSentNoResponse cfg) (resolved r) -> sentThenTimer evs).
Proof.
  induction evs as [|ev evs IH] using rev_ind.
  - unfold checkUdpPort. cbn. split; [lia | tauto].
  - cbn zeta in *. rewrite checkUdpPort_snoc.
    set (r := checkUdpPort cfg evs) in *. destruct IH as [IHp IHr].
    assert (Hdone : forall m r0,
              m <> udpSentNoResponse cfg ->
              In (udpSentNoResponse cfg) (resolved (done m r0)) ->
              In (udpSentNoResponse cfg) (resolved r0)).
    { intros m r0 Hm. unfold done. destruct (finished r0); [tauto |].
      cbn. intros Hin. apply in_app_or in Hin.
      destruct Hin as [Hin|[Hin|[]]]; [exact Hin | congruence]. }
    assert (Hpend : forall m r0, pending (done m r0) = pending r0).
    { intros m r0. unfold done. now destruct (finished r0). }
    destruct ev as [err|[err|]|]; cbn [udpHandle].
    + rewrite Hpend. split.
      * intros Hp. apply in_or_app. left. now apply IHp.
      * intros Hin. apply sentThenTimer_snoc, IHr.
        apply (Hdone _ _ (fun E => proj1 (udp_info_not_failure cfg err)
                                      (eq_sym E)) Hin).
    + rewrite Hpend. split.
      * intros Hp. apply in_or_app. left. now apply IHp.
      * intros Hin. apply sentThenTimer_snoc, IHr.
        apply (Hdone _ _ (fun E => proj2 (udp_info_not_failure cfg err)
                                      (eq_sym E)) Hin).
    + cbn. split.
      * intros _. apply in_or_app. right. now left.
      * intros Hin. now apply sentThenTimer_snoc, IHr.
    + destruct (pending r) as [|n] eqn:P.
      * split.
        -- intros Hp. lia.
        -- intros Hin. now apply sentThenTimer_snoc, IHr.
      * assert (Hs : In (UdpSendCallback None) evs) by (apply IHp; lia).
        rewrite Hpend. cbn. split.
        -- intros _. apply in_or_app. now left.
        -- intros _. apply in_split in Hs. destruct Hs as (pre & mid & ->).
           exists pre, mid, []. now rewrite <- app_assoc.
Qed.

(** The probe reports "packet sent, no response" only if the send
    callback ran without an error and a timer fired after it; and it does
    not resolve at all before a send callback or a socket error has
    arrived. *)
Theorem checkUdpPort_info_requires_send (cfg : PortCfg) (evs : list UdpEvent) :
  (udpResult (checkUdpPort cfg evs) = Some (udpSentNoResponse cfg) ->
   sentThenTimer evs) /\
  (Forall (eq UdpTimerFired) evs -> udpResult (checkUdpPort cfg evs) = None).
Proof.
  split.
  - intros R. apply (checkUdpPort_sent_inv cfg evs).
    unfold udpResult in R.
    destruct (resolved (checkUdpPort cfg evs)) as [|m l]; [discriminate |].
    injection R as ->. now left.
  - intros F.
    assert (H : checkUdpPort cfg evs = udpInit).
    { induction evs as [|ev evs IH] using rev_ind; [reflexivity |].
      apply Forall_app in F. destruct F as [F1 F2].
      rewrite checkUdpPort_snoc, (IH F1).
      inversion F2 as [|? ? E _]; subst. reflexivity. }
    now rewrite H.
Qed.

Lemma checkUdpPort_info_requires_send_witness :
  sentThenTimer [UdpSendCallback None; UdpTimerFired]
  /\ udpResult (checkUdpPort portDns [UdpTimerFired; UdpTimerFired]) = None.
Proof.
  destruct (checkUdpPort_info_requires_send portDns
              [UdpSendCallback None; UdpTimerFired]) as [H1 _].
  destruct (checkUdpPort_info_requires_send portDns
              [UdpTimerFired; UdpTimerFired]) as [_ H2].
  split; [apply H1; reflexivity | apply H2; repeat constructor].
Defined.

(** ** The layout of the report *)

Lemma websiteLoop_lines env (cfgs : list WebsiteCfg) :
  forall i lines (w : World),
    fst (websiteLoop env i cfgs lines w)
    = Return (lines ++ imap (fun k => websiteLine env (i + k)) cfgs).
Proof.
  induction cfgs as [|cfg0 cfgs IH]; intros i lines w.
  - cbn. now rewrite app_nil_r.
  - destruct (websiteBody_spec env i cfg0 lines w) as (new0 & w0 & E0 & _).
    rewrite (exec_websiteLoop_cons _ _ _ _ _ _ _ _ E0), IH.
    rewrite <- app_assoc. cbn [app imap]. unfold websiteLine at 2.
    rewrite Nat.add_0_r. do 3 f_equal.
    apply imap_ext. intros k cfg _. cbn. f_equal. lia.
Qed.

(** The line a port entry adds does not depend on the lines before it nor
    on the state of the process. *)
Lemma portBody_line env i cfg lines (w : World) l w' :
  portBody env i cfg lines w = (Return l, w') ->
  exists m, l = lines ++ ["- " +:+ m] /\
    forall ls v, fst (portBody env i cfg ls v) = Return (ls ++ ["- " +:+ m]).
Proof.
  unfold portBody, protoOf.
  destruct (Js.or (p_protocol cfg) (JStr "tcp")) as [| |b|n|s];
    unfoldM; try discriminate.
  destruct (String.eqb (toLowerCase s) "tcp").
  { cbn. destruct (checkTcpPort cfg (tcp_net env i)) as [[ops [msg|err]]|];
      [| discriminate ..].
    cbn. intros [= <- _]. now exists msg. }
  destruct (String.eqb (toLowerCase s) "udp").
  { cbn. destruct (udpResult (checkUdpPort cfg (udp_net env i))) as [msg|];
      [| discriminate].
    cbn. intros [= <- _]. now exists msg. }
  cbn. intros [= <- _]. now eexists.
Qed.

Lemma portLoop_lines env (cfgs : list PortCfg) :
  forall i lines (w : World) l w',
    portLoop env i cfgs lines w = (Return l, w') ->
    exists msgs,
      length msgs = length cfgs /\
      l = lines ++ map (fun m => "- " +:+ m) msgs /\
      (forall k cfg m, cfgs !! k = Some cfg -> msgs !! k = Some m ->
         forall ls v,
           fst (portBody env (i + k) cfg ls v) = Return (ls ++ ["- " +:+ m])).
Proof.
  induction cfgs as [|cfg0 cfgs IH]; intros i lines w l w' E.
  - cbn in E. injection E as <- _. exists []. rewrite app_nil_r.
    repeat split. intros k cfg m H. discriminate.
  - cbn [portLoop] in E. unfold bind in E.
    destruct (portBody env i cfg0 lines w) as [[l0|e|] w0] eqn:B;
      [| discriminate ..].
    destruct (portBody_line _ _ _ _ _ _ _ B) as (m0 & -> & Hm0).
    destruct (IH _ _ _ _ _ E) as (msgs & Hlen & -> & Hk).
    exists (m0 :: msgs). cbn. rewrite Hlen, <- app_assoc.
    repeat split. intros [|k] cfg m Hc Hm; cbn in Hc, Hm.
    + injection Hc as <-. injection Hm as <-. now rewrite Nat.add_0_r.
    + replace (i + S k)%nat with (S i + k)%nat by lia. now apply (Hk k).
Qed.

(** When a cycle gets to its report, the text is, line by line: the
    website section (heading, one line per website in the order of the
    configuration, an empty line) unless no website is configured; the
    port section (heading, one line per port entry in the order of the
    configuration, an empty line) unless no port is configured; the
    countdown computed from the interval and the time stamp. *)
Theorem report_layout (c : Config) (env : CycleEnv) (w w1 : World)
    (content : string)
    (Hreport : buildReport c env w = (Return content, w1)) :
  exists msgs,
    length msgs = length (PORTS c) /\
    (forall k cfg m, PORTS c !! k = Some cfg -> msgs !! k = Some m ->
       forall ls v, fst (portBody env k cfg ls v) = Return (ls ++ ["- " +:+ m])) /\
    content
    = String.concat nl
        (websiteSection c env ++ portSection c msgs ++ footer c env).
Proof.
  unfold buildReport in Hreport. unfold bind at 1 in Hreport.
  assert (Hw : forall v,
            fst ((if (0 <? length (WEBSITES c))%nat then
                    l <- websiteLoop env 0 (WEBSITES c)
                           ([] ++ ["📡 **Webseiten-Status:**"]) ;;
                    ret (l ++ [""])
                  else ret []) v)
            = Return (websiteSection c env)).
  { intros v. unfold websiteSection.
    destruct (WEBSITES c) as [|cfg0 cfgs] eqn:W; [reflexivity |].
    change (0 <? length (cfg0 :: cfgs))%nat with true. cbn iota.
    unfold bind.
    pose proof (websiteLoop_lines env (cfg0 :: cfgs) 0
                  ([] ++ ["📡 **Webseiten-Status:**"]) v) as L.
    destruct (websiteLoop env 0 (cfg0 :: cfgs) _ v) as [[l|e|] v'];
      cbn in L; try discriminate.
    injection L as ->. cbn. rewrite <- ?app_assoc. reflexivity. }
  match type of Hreport with
  | context [match ?m w with _ => _ end] =>
      specialize (Hw w); destruct (m w) as [[lines|e|] w0] eqn:Ew;
      cbn in Hw; try discriminate
  end.
  injection Hw as ->.
  unfold bind at 1 in Hreport.
  destruct (PORTS c) as [|p0 ps] eqn:P.
  - cbn in Hreport. injection Hreport as <- _.
    exists []. unfold portSection, footer. rewrite P.
    repeat split. intros k cfg m H. discriminate.
  - change (0 <? length (p0 :: ps))%nat with true in Hreport. cbn iota in Hreport.
    unfold bind at 1 in Hreport.
    destruct (portLoop env 0 (p0 :: ps) _ w0) as [[l|e|] w2] eqn:L;
      [| discriminate ..].
    cbn in Hreport. injection Hreport as <- _.
    destruct (portLoop_lines _ _ _ _ _ _ _ L) as (msgs & Hlen & -> & Hk).
    exists msgs. split; [exact Hlen |]. split; [exact Hk |].
    unfold portSection, footer. rewrite P.
    f_equal. rewrite <- !app_assoc. cbn [app]. rewrite <- !app_assoc.
    reflexivity.
Qed.

Lemma report_layout_witness :
  exists msgs,
    length msgs = 1%nat /\
    reportOf envAllUp (worldAfter readyOk)
    = String.concat nl
        (websiteSection configAB envAllUp ++ portSection configAB msgs
         ++ footer configAB envAllUp).
Proof.
  destruct (report_layout configAB envAllUp (worldAfter readyOk)
              (snd (buildReport configAB envAllUp (worldAfter readyOk)))
              (reportOf envAllUp (worldAfter readyOk)) eq_refl)
    as (msgs & Hlen & _ & E).
  exists msgs. split; [exact Hlen | exact E].
Defined.

(** ** A malformed port entry *)

Lemma websiteBody_effects env i cfg lines :
  emitsOnly (fun e => isWebsiteEffect e = true) (websiteBody env i cfg lines).
Proof.
  unfold websiteBody, sendWebsiteProblemAlert, sendWebsiteRecoveryAlert,
    fetchOwnerOrReturn, sendOrLog, usersFetch, ownerSend.
  apply emitsOnly_bind; [auto with emits |]. intros _.
  apply emitsOnly_bind; [auto with emits |]. intros st.
  apply emitsOnly_bind.
  { destruct (isNewProblem _ _); [| auto with emits].
    apply emitsOnly_bind; [auto with emits |]. intros _.
    apply emitsOnly_bind; [auto 10 with emits |]. intros go.
    destruct (negb go); auto 10 with emits. }
  intros _. apply emitsOnly_bind.
  { destruct (isRecovery _ _); [| auto with emits].
    apply emitsOnly_bind; [auto with emits |]. intros _.
    apply emitsOnly_bind; [auto 10 with emits |]. intros go.
    destruct (negb go); auto 10 with emits. }
  intros _. auto with emits.
Qed.

Lemma websiteLoop_effects env cfgs :
  forall i lines,
    emitsOnly (fun e => isWebsiteEffect e = true) (websiteLoop env i cfgs lines).
Proof.
  induction cfgs as [|cfg cfgs IH]; intros i lines; cbn [websiteLoop].
  - auto with emits.
  - apply emitsOnly_bind; [apply websiteBody_effects | auto].
Qed.

Lemma portLoop_app env (a b : list PortCfg) :
  forall i lines (w : World),
    portLoop env i (a ++ b) lines w
    = (l <- portLoop env i a lines ;; portLoop env (i + length a) b l) w.
Proof.
  induction a as [|cfg a IH]; intros i lines w.
  - cbn. now rewrite Nat.add_0_r.
  - cbn [app portLoop length]. unfold bind in *.
    destruct (portBody env i cfg lines w) as [[l|e|] w0]; [| reflexivity ..].
    rewrite IH. now replace (S i + length a)%nat with (i + S (length a))%nat by lia.
Qed.

(** An entry that passes adds its line and records the call of its probe,
    if it has one. *)
Lemma portBody_passes env i cfg lines (w : World) :
  passes env i cfg = true ->
  exists l w',
    portBody env i cfg lines w = (Return l, w') /\
    trace w' = trace w ++ probeCall i cfg /\
    statusMessage w' = statusMessage w.
Proof.
  unfold passes, probeCall, portBody, protoOf.
  destruct (Js.or (p_protocol cfg) (JStr "tcp")) as [| |b|n|s];
    try discriminate.
  unfoldM.
  destruct (String.eqb (toLowerCase s) "tcp").
  { cbn. destruct (checkTcpPort cfg (tcp_net env i)) as [[ops [msg|err]]|];
      try discriminate.
    intros _. cbn. now eexists _, _. }
  destruct (String.eqb (toLowerCase s) "udp").
  { cbn. destruct (udpResult (checkUdpPort cfg (udp_net env i))) as [msg|];
      try discriminate.
    intros _. cbn. now eexists _, _. }
  intros _. cbn. eexists _, w. now rewrite app_nil_r.
Qed.

(** Entries that pass are handled one after the other: the loop returns,
    and what it has recorded are the calls of their probes, in order. *)
Lemma portLoop_passes env (cfgs : list PortCfg) :
  forall i lines (w : World),
    (forall k cfg, cfgs !! k = Some cfg -> passes env (i + k) cfg = true) ->
    exists l w',
      portLoop env i cfgs lines w = (Return l, w') /\
      trace w' = trace w ++ probeCalls i cfgs /\
      statusMessage w' = statusMessage w.
Proof.
  induction cfgs as [|cfg cfgs IH]; intros i lines w H.
  - exists lines, w. cbn. now rewrite app_nil_r.
  - cbn [portLoop probeCalls].
    destruct (portBody_passes env i cfg lines w) as (l0 & w0 & E0 & T0 & M0).
    { specialize (H 0%nat cfg eq_refl). now rewrite Nat.add_0_r in H. }
    destruct (IH (S i) l0 w0) as (l & w' & E & T & M).
    { intros k cfg' Hk. specialize (H (S k) cfg' Hk).
      now replace (S i + k)%nat with (i + S k)%nat by lia. }
    exists l, w'. unfold bind. rewrite E0.
    split; [exact E |]. split; [now rewrite T, T0, app_assoc | congruence].
Qed.

Lemma probeCalls_spec (cfgs : list PortCfg) :
  forall i e, In e (probeCalls i cfgs) ->
    exists k, (i <= k < i + length cfgs)%nat /\
      (e = CallCheckTcpPort k \/ e = CallCheckUdpPort k).
Proof.
  induction cfgs as [|cfg cfgs IH]; intros i e Hin; [destruct Hin |].
  cbn [probeCalls length] in *. apply in_app_or in Hin.
  destruct Hin as [Hin|Hin].
  - exists i. split; [lia |]. unfold probeCall in Hin.
    destruct (Js.or _ _) as [| |b|n|s]; try destruct Hin.
    destruct (String.eqb (toLowerCase s) "tcp");
      [destruct Hin as [<-|[]]; now left |].
    destruct (String.eqb (toLowerCase s) "udp");
      [destruct Hin as [<-|[]]; now right | destruct Hin].
  - destruct (IH _ _ Hin) as (k & Hk & He). exists k. split; [lia | exact He].
Qed.

Lemma filter_probeCalls (cfgs : list PortCfg) (i : nat) :
  List.filter isProbeCall (probeCalls i cfgs) = probeCalls i cfgs.
Proof.
  apply forallb_filter_id, forallb_forall. intros e Hin.
  destruct (probeCalls_spec _ _ _ Hin) as (k & _ & [->| ->]); reflexivity.
Qed.

Lemma filter_website_effects (tr : list Effect) :
  Forall (fun e => isWebsiteEffect e = true) tr ->
  List.filter isProbeCall tr = [].
Proof.
  induction 1 as [|e tr He _ IH]; [reflexivity |].
  cbn. rewrite IH. now destruct e.
Qed.

(** A cycle in which the loop body of a port entry throws: the website
    section is complete, the entries before that one have passed, the
    error is logged, and the report is not pushed. *)
Lemma cycle_gives_up (c : Config) (env : CycleEnv) (w : World)
    (pre post : list PortCfg) (bad : PortCfg) (extra : list Effect) :
  PORTS c = pre ++ bad :: post ->
  (forall k cfg, pre !! k = Some cfg -> passes env k cfg = true) ->
  (forall ls v, exists e v',
      portBody env (length pre) bad ls v = (Throw e, v') /\
      trace v' = trace v ++ extra /\ statusMessage v' = statusMessage v) ->
  exists new0,
    fst (doMonitoringCycle c env w) = Return tt /\
    statusMessage (exec (doMonitoringCycle c env) w) = statusMessage w /\
    trace (exec (doMonitoringCycle c env) w)
    = trace w ++ new0 ++ probeCalls 0 pre ++ extra
      ++ [ConsoleError "Fehler im Monitoring-Cycle:"] /\
    Forall (fun e => isWebsiteEffect e = true) new0.
Proof.
  intros Hports Hpre Hthrow.
  destruct (doMonitoringCycle_split c env w) as (lines & _ & E).
  destruct (websiteLoop_effects env (WEBSITES c) 0 ["📡 **Webseiten-Status:**"] w)
    as (new0 & T0 & F0).
  assert (M0 : statusMessage
                 (exec (websiteLoop env 0 (WEBSITES c)
                          ["📡 **Webseiten-Status:**"]) w)
               = statusMessage w)
    by apply websiteLoop_keepsHandle.
  change (snd (websiteLoop env 0 (WEBSITES c) ["📡 **Webseiten-Status:**"] w))
    with (exec (websiteLoop env 0 (WEBSITES c) ["📡 **Webseiten-Status:**"]) w)
    in T0.
  set (w1 := exec (websiteLoop env 0 (WEBSITES c) ["📡 **Webseiten-Status:**"]) w)
    in *.
  unfold exec. rewrite E.
  destruct (portLoop_passes env pre 0 (lines ++ ["🔌 **Port-Status:**"]) w1 Hpre)
    as (l & w2 & E2 & T2 & M2).
  destruct (Hthrow l w2) as (e & w3 & B & T3 & M3).
  assert (A : afterWebsites c env lines w1
              = (Return tt, emit (ConsoleError "Fehler im Monitoring-Cycle:") w3)).
  { unfold afterWebsites. rewrite Hports.
    assert ((0 <? length (pre ++ bad :: post))%nat = true) as ->.
    { apply Nat.ltb_lt. rewrite length_app. cbn. lia. }
    unfold tryCatch, bind at 1 2 3.
    rewrite portLoop_app. unfold bind at 1. rewrite E2.
    cbn [portLoop Nat.add]. unfold bind at 1. rewrite B. reflexivity. }
  rewrite A. cbn [fst snd]. exists new0.
  split; [reflexivity |]. split; [cbn; congruence |]. split; [| exact F0].
  cbn. rewrite T3, T2, T0, <- !app_assoc. reflexivity.
Qed.

(** A port entry whose protocol is truthy and not a string makes the
    cycle give up.  The entries before it are handled as in any cycle:
    those with protocol TCP or UDP are probed, once each and in the order
    of the configuration (they are taken to pass, that is, their probes
    resolve).  The entry itself and those after it are not probed, the
    error is logged as the last effect of the cycle, and the status message
    is neither edited nor replaced.  The cycle itself returns normally. *)
Theorem bad_protocol_suppresses_report (c : Config) (env : CycleEnv) (w : World)
    (pre post : list PortCfg) (bad : PortCfg)
    (Hports : PORTS c = pre ++ bad :: post)
    (Hbad : isBadProtocol bad = true)
    (Hpre : forall k cfg, pre !! k = Some cfg -> passes env k cfg = true) :
  let w' := exec (doMonitoringCycle c env) w in
  fst (doMonitoringCycle c env w) = Return tt /\
  statusMessage w' = statusMessage w /\
  last (trace w') = Some (ConsoleError "Fehler im Monitoring-Cycle:") /\
  (forall m x, ~ In (EditMsg m x) (newTrace w w')) /\
  List.filter isProbeCall (newTrace w w') = probeCalls 0 pre /\
  (forall k, (length pre <= k)%nat ->
     ~ In (CallCheckTcpPort k) (newTrace w w') /\
     ~ In (CallCheckUdpPort k) (newTrace w w')).
Proof.
  intros w'. subst w'.
  destruct (cycle_gives_up c env w pre post bad [] Hports Hpre)
    as (new0 & R & M & T & F0).
  { intros ls v. exists "TypeError: toLowerCase is not a function", v.
    rewrite app_nil_r. split; [| now split].
    unfold portBody, protoOf. unfold isBadProtocol in Hbad.
    destruct (Js.or (p_protocol bad) (JStr "tcp")); try discriminate;
      reflexivity. }
  cbn [app] in T.
  assert (P : List.filter isProbeCall
                (new0 ++ probeCalls 0 pre
                 ++ [ConsoleError "Fehler im Monitoring-Cycle:"])
              = probeCalls 0 pre).
  { rewrite !List.filter_app, filter_website_effects, filter_probeCalls by exact F0.
    cbn. apply app_nil_r. }
  assert (N : forall e, isProbeCall e = true -> ~ In e (probeCalls 0 pre) ->
                ~ In e (new0 ++ probeCalls 0 pre
                        ++ [ConsoleError "Fehler im Monitoring-Cycle:"])).
  { intros e He Hn Hin. apply Hn. rewrite <- P.
    apply List.filter_In. now split. }
  split; [exact R |]. split; [exact M |].
  split; [rewrite T, !app_assoc; apply last_snoc |].
  rewrite (newTrace_app _ _ _ T).
  split; [| split; [exact P |]].
  - intros m x Hin. apply in_app_or in Hin. destruct Hin as [Hin|Hin].
    + rewrite Forall_forall in F0. apply list_elem_of_In, F0 in Hin.
      discriminate.
    + apply in_app_or in Hin. destruct Hin as [Hin|[Hin|[]]]; [| discriminate].
      destruct (probeCalls_spec _ _ _ Hin) as (k & _ & [H|H]); discriminate.
  - intros k Hk. split; apply N; try reflexivity; intros Hin;
      destruct (probeCalls_spec _ _ _ Hin) as (k' & Hk' & [H|H]);
      try discriminate; injection H as ->; lia.
Qed.

Lemma bad_protocol_suppresses_report_witness :
  statusMessage (exec (doMonitoringCycle configBadPort envAllUp) (worldAfter readyOk))
  = statusMessage (worldAfter readyOk)
  /\ last (trace (exec (doMonitoringCycle configBadPort envAllUp)
                    (worldAfter readyOk)))
     = Some (ConsoleError "Fehler im Monitoring-Cycle:")
  /\ List.filter isProbeCall
       (newTrace (worldAfter readyOk)
          (exec (doMonitoringCycle configBadPort envAllUp) (worldAfter readyOk)))
     = [CallCheckTcpPort 0; CallCheckUdpPort 1].
Proof.
  destruct (bad_protocol_suppresses_report configBadPort envAllUp
              (worldAfter readyOk) [portSsh; portDns] [portUpper] portNumeric
              eq_refl eq_refl) as (_ & H1 & H2 & _ & H3 & _).
  - intros [|[|k]] cfg H; cbn in H; try discriminate; injection H as <-;
      reflexivity.
  - split; [exact H1 |]. split; [exact H2 | exact H3].
Defined.

(** A TCP entry whose probe is rejected (Node refuses its [timeoutMs] or
    its [port]) makes the cycle give up in the same way, after the probe
    was called: the entries after it are not probed, the error is logged as
    the last effect of the cycle, and the status message is neither edited
    nor replaced. *)
Theorem rejected_probe_suppresses_report (c : Config) (env : CycleEnv)
    (w : World) (pre post : list PortCfg) (bad : PortCfg)
    (Hports : PORTS c = pre ++ bad :: post)
    (Hrej : isRejectedTcp env (length pre) bad = true)
    (Hpre : forall k cfg, pre !! k = Some cfg -> passes env k cfg = true) :
  let w' := exec (doMonitoringCycle c env) w in
  fst (doMonitoringCycle c env w) = Return tt /\
  statusMessage w' = statusMessage w /\
  last (trace w') = Some (ConsoleError "Fehler im Monitoring-Cycle:") /\
  (forall m x, ~ In (EditMsg m x) (newTrace w w')) /\
  List.filter isProbeCall (newTrace w w')
  = probeCalls 0 pre ++ [CallCheckTcpPort (length pre)].
Proof.
  intros w'. subst w'.
  destruct (cycle_gives_up c env w pre post bad [CallCheckTcpPort (length pre)]
              Hports Hpre)
    as (new0 & R & M & T & F0).
  { intros ls v. unfold isRejectedTcp in Hrej. unfold portBody, protoOf.
    destruct (Js.or (p_protocol bad) (JStr "tcp")) as [| |b|n|s];
      try discriminate.
    apply andb_true_iff in Hrej. destruct Hrej as [Ht Hr].
    unfoldM. rewrite Ht. cbn.
    destruct (checkTcpPort bad (tcp_net env (length pre)))
      as [[ops [msg|err]]|]; try discriminate.
    cbn. now eexists _, _. }
  split; [exact R |]. split; [exact M |].
  split; [rewrite T, !app_assoc; apply last_snoc |].
  rewrite (newTrace_app _ _ _ T).
  split.
  - intros m x Hin. apply in_app_or in Hin. destruct Hin as [Hin|Hin].
    + rewrite Forall_forall in F0. apply list_elem_of_In, F0 in Hin.
      discriminate.
    + apply in_app_or in Hin. destruct Hin as [Hin|[Hin|[Hin|[]]]];
        try discriminate.
      destruct (probeCalls_spec _ _ _ Hin) as (k & _ & [H|H]); discriminate.
  - rewrite !List.filter_app, filter_website_effects, filter_probeCalls
      by exact F0.
    reflexivity.
Qed.

Lemma rejected_probe_suppresses_report_witness :
  statusMessage
    (exec (doMonitoringCycle configBadTimeout envBadTimeout) (worldAfter readyOk))
  = statusMessage (worldAfter readyOk)
  /\ List.filter isProbeCall
       (newTrace (worldAfter readyOk)
          (exec (doMonitoringCycle configBadTimeout envBadTimeout)
             (worldAfter readyOk)))
     = [CallCheckTcpPort 0; CallCheckTcpPort 1].
Proof.
  destruct (rejected_probe_suppresses_report configBadTimeout envBadTimeout
              (worldAfter readyOk) [portSsh] [portUpper] portNegativeTimeout
              eq_refl eq_refl) as (_ & H1 & _ & _ & H3).
  - intros [|k] cfg H; cbn in H; try discriminate; injection H as <-;
      reflexivity.
  - split; [exact H1 | exact H3].
Defined.

(** ** The keys of the store *)

Lemma set_is_Some (obj : gmap string State) (key' key : string) (s : State) :
  is_Some (Store.set obj key' s !! key) <->
  is_Some (obj !! key) \/ (key = key' /\ key <> "__proto__").
Proof.
  unfold Store.set. destruct (String.eqb key' "__proto__") eqn:P.
  - apply String.eqb_eq in P. subst key'. split; [auto |].
    intros [H|[-> H]]; [exact H | congruence].
  - apply String.eqb_neq in P.
    destruct (decide (key' = key)) as [->|N].
    + rewrite lookup_insert_eq. split; [auto | eauto].
    + rewrite lookup_insert_ne by exact N. split; [auto |].
      intros [H|[-> _]]; [exact H | congruence].
Qed.

Lemma websiteLoop_store_keys env (cfgs : list WebsiteCfg) :
  forall i lines (w : World) key,
    is_Some (lastWebsiteStates (exec (websiteLoop env i cfgs lines) w) !! key)
    <->
    is_Some (lastWebsiteStates w !! key) \/
    (exists k cfg, cfgs !! k = Some cfg /\
       key = getWebsiteKey cfg (i + k) /\ key <> "__proto__").
Proof.
  induction cfgs as [|cfg0 cfgs IH]; intros i lines w key.
  - cbn. split; [auto |]. intros [H|(k & cfg & H & _)]; [exact H | discriminate].
  - destruct (websiteBody_spec env i cfg0 lines w)
      as (new0 & w0 & E0 & _ & _ & _ & S0 & _).
    unfold exec. rewrite (exec_websiteLoop_cons _ _ _ _ _ _ _ _ E0).
    fold (exec (websiteLoop env (S i) cfgs
                  (lines ++ ["- " +:+ text (checkWebsite cfg0 (net_fetch env i))]))
            w0).
    rewrite IH, S0, set_is_Some. split.
    + intros [[H|[-> H]]|(k & cfg & Hk & -> & H)].
      * now left.
      * right. exists 0%nat, cfg0. now rewrite Nat.add_0_r.
      * right. exists (S k), cfg.
        now replace (i + S k)%nat with (S i + k)%nat by lia.
    + intros [H|([|k] & cfg & Hk & -> & H)].
      * auto.
      * cbn in Hk. injection Hk as <-. rewrite Nat.add_0_r in *. auto.
      * right. exists k, cfg. cbn in Hk.
        now replace (S i + k)%nat with (i + S k)%nat by lia.
Qed.

(** The store after a cycle has an entry under a key exactly if it had one
    before or the key is that of a configured website and is not
    "__proto__": entries are created on the first observation, never
    removed, and no other key ever appears. *)
Theorem store_keys_after_cycle (c : Config) (env : CycleEnv) (w : World)
    (key : string) :
  is_Some (lastWebsiteStates (exec (doMonitoringCycle c env) w) !! key) <->
  is_Some (lastWebsiteStates w !! key) \/
  (exists j cfg, WEBSITES c !! j = Some cfg /\
     key = getWebsiteKey cfg j /\ key <> "__proto__").
Proof.
  destruct (doMonitoringCycle_split c env w) as (lines & _ & E).
  unfold exec at 1. rewrite E, (afterWebsites_store c env lines).
  apply (websiteLoop_store_keys env (WEBSITES c) 0).
Qed.

(** ** The clean-up at start *)

Lemma filter_length_le {A} (p g : A -> bool) (l : list A) :
  (length (List.filter p (List.filter g l)) <= length (List.filter p l))%nat.
Proof.
  induction l as [|x l IH]; [reflexivity |].
  cbn. destruct (g x) eqn:G, (p x) eqn:Px; cbn; rewrite ?Px; cbn; lia.
Qed.

Lemma filter_length_lt {A} (p q : A -> bool) (l : list A) (x : A) :
  (forall y, p y = true -> q y = true) ->
  In x l -> q x = true -> p x = false ->
  (length (List.filter p l) < length (List.filter q l))%nat.
Proof.
  intros Hpq. induction l as [|y l IH]; intros Hin Hq Hp; [destruct Hin |].
  assert (Hle : (length (List.filter p l) <= length (List.filter q l))%nat).
  { clear -Hpq. induction l as [|z l IH]; [reflexivity |].
    cbn. destruct (p z) eqn:Pz.
    - rewrite (Hpq z Pz). cbn. lia.
    - destruct (q z); cbn; lia. }
  cbn. destruct Hin as [->|Hin].
  - rewrite Hq, Hp. cbn. lia.
  - specialize (IH Hin Hq Hp). destruct (p y) eqn:Py.
    + rewrite (Hpq y Py). cbn. lia.
    + destruct (q y); cbn; lia.
Qed.

(** A page only shrinks the channel: what is in the channel afterwards
    was there before. *)
Lemma deletePage_channel env botId (page : list Message) :
  forall deleted st,
    exists g,
      cl_channel (snd (deletePage env botId page deleted st))
      = List.filter g (cl_channel st).
Proof.
  induction page as [|msg page IH]; intros deleted st; cbn [deletePage].
  - exists (fun _ => true). cbn [snd].
    induction (cl_channel st) as [|x l IHl]; [reflexivity |].
    cbn. now rewrite <- IHl.
  - destruct (String.eqb (msg_author msg) botId); [| apply IH].
    destruct (cl_deleteOk env (msg_id msg)).
    2: { destruct (IH deleted
                    (clEmit (ClError "Konnte Nachricht nicht löschen:")
                       (clEmit (ClDelete (msg_id msg)) st))) as (g & Hg).
         exists g. exact Hg. }
    destruct (IH (S deleted) (removeMsg (msg_id msg)
                                (clEmit (ClDelete (msg_id msg)) st)))
      as (g & ->).
    cbn [removeMsg clEmit cl_channel].
    exists (fun m => negb (msg_id m =? msg_id msg)%N && g m).
    induction (cl_channel st) as [|x l IHl]; [reflexivity |].
    cbn. destruct (negb (msg_id x =? msg_id msg)%N); cbn; [| exact IHl].
    destruct (g x); [now rewrite IHl | exact IHl].
Qed.

Lemma fetchPage_older chan before m :
  In m (fetchPage chan before) -> In m chan /\ olderThan before m = true.
Proof.
  unfold fetchPage. intros H.
  apply list_elem_of_In in H. apply subseteq_take in H.
  apply list_elem_of_In in H. now apply List.filter_In in H.
Qed.

(** The loop ends within the fuel: every further page lies strictly below
    the oldest message of the page before. *)
Lemma sweepLoop_fuel env botId :
  forall fuel k before messages deleted st,
    (forall m, In m messages ->
       In m (cl_channel st) /\ olderThan before m = true) ->
    (length (List.filter (olderThan before) (cl_channel st)) < fuel)%nat ->
    is_Some (sweepLoop fuel env botId k messages deleted st).
Proof.
  induction fuel as [|fuel IH]; intros k before messages deleted st Hm Hf;
    [lia |].
  cbn [sweepLoop]. destruct messages as [|m0 ms] eqn:Em; [eauto |].
  rewrite <- Em in *.
  destruct (deletePage env botId messages deleted st) as [deleted' st1] eqn:D.
  destruct (cl_fetchOk env k); [| eauto].
  destruct (last messages) as [l|] eqn:L.
  2: { subst messages. now apply last_None in L. }
  cbn [fmap option_fmap option_map clEmit cl_channel].
  apply (IH _ (Some (msg_id l))).
  - intros m Hin. now apply fetchPage_older in Hin.
  - destruct (deletePage_channel env botId messages deleted st) as (g & Hg).
    rewrite D in Hg. cbn [snd] in Hg. cbn [clEmit cl_channel]. rewrite Hg.
    eapply Nat.le_lt_trans; [apply filter_length_le |].
    apply last_Some in L. destruct L as (init & L).
    assert (Hl : In l messages) by (rewrite L; apply in_or_app; right; now left).
    destruct (Hm l Hl) as [Hc Ho].
    eapply Nat.lt_le_trans with
      (m := length (List.filter (olderThan before) (cl_channel st))); [| lia].
    apply (filter_length_lt _ _ _ l); try assumption.
    + intros y Hy. cbn in Hy. apply N.ltb_lt in Hy.
      destruct before as [b|]; [| reflexivity].
      cbn in Ho |- *. apply N.ltb_lt in Ho. apply N.ltb_lt. lia.
    + cbn. apply N.ltb_irrefl.
Qed.

(** The clean-up always comes to an end, whatever the channel holds and
    whatever fails: each page lies strictly below the one before, so the
    loop needs at most one round per message of the channel. *)
Theorem deleteOldBotMessages_terminates (env : CleanupEnv) (botId : string)
    (st : CleanupState) :
  is_Some (deleteOldBotMessages env botId st).
Proof.
  unfold deleteOldBotMessages.
  assert (S : forall st3,
            is_Some (sweepLoop (S (length (cl_channel st3))) env botId 1
                       (fetchPage (cl_channel st3) None) 0 st3)).
  { intros st3. apply (sweepLoop_fuel env botId _ 1 None).
    - intros m Hin. now apply fetchPage_older in Hin.
    - eapply Nat.le_lt_trans; [apply List.filter_length_le | lia]. }
  destruct (cl_owner st) as [u|].
  - destruct (negb (cl_createDM env)); [eauto |].
    destruct (negb (cl_fetchOk env 0)); [eauto |].
    match goal with |- context [sweepLoop ?f env botId 1 ?p 0 ?s] =>
      destruct (S s) as [[[d|] st4] ->]; eauto
    end.
  - destruct (cl_fetchOwner env) as [u|]; [| eauto].
    destruct (negb (cl_createDM env)); [eauto |].
    destruct (negb (cl_fetchOk env 0)); [eauto |].
    match goal with |- context [sweepLoop ?f env botId 1 ?p 0 ?s] =>
      destruct (S s) as [[[d|] st4] ->]; eauto
    end.
Qed.

Lemma cleanupSafe_emit botId chan0 tr0 e st :
  (forall id, e <> ClDelete id) ->
  cleanupSafe botId chan0 tr0 st -> cleanupSafe botId chan0 tr0 (clEmit e st).
Proof.
  intros He (Hc & (new & T & Hd) & Hk). split; [exact Hc |]. split; [| exact Hk].
  exists (new ++ [e]). cbn. rewrite T, app_assoc. split; [reflexivity |].
  intros id Hin. apply Hd. unfold deleteCalls in *.
  rewrite omap_app in Hin. apply in_app_or in Hin.
  destruct Hin as [Hin|Hin]; [exact Hin |].
  destruct e; cbn in Hin; try (now destruct Hin).
  now destruct (He id0).
Qed.

Lemma deletePage_safe env botId chan0 tr0 (page : list Message) :
  forall deleted st,
    (forall m, In m page -> In m chan0) ->
    cleanupSafe botId chan0 tr0 st ->
    cleanupSafe botId chan0 tr0 (snd (deletePage env botId page deleted st)).
Proof.
  induction page as [|msg page IH]; intros deleted st Hp Hs; [exact Hs |].
  cbn [deletePage].
  assert (Hp' : forall m, In m page -> In m chan0)
    by (intros m Hm; apply Hp; now right).
  destruct (String.eqb (msg_author msg) botId) eqn:B; [| now apply IH].
  assert (Hs1 : cleanupSafe botId chan0 tr0 (clEmit (ClDelete (msg_id msg)) st)).
  { destruct Hs as (Hc & (new & T & Hd) & Hk). split; [exact Hc |].
    split; [| exact Hk].
    exists (new ++ [ClDelete (msg_id msg)]). cbn. rewrite T, app_assoc.
    split; [reflexivity |]. intros id Hin. unfold deleteCalls in Hin.
    rewrite omap_app in Hin. apply in_app_or in Hin.
    destruct Hin as [Hin|[<-|[]]]; [now apply Hd |].
    exists msg. repeat split; [apply Hp; now left | exact B]. }
  destruct (cl_deleteOk env (msg_id msg)).
  - apply IH; [exact Hp' |].
    destruct Hs1 as (Hc & Ht & Hk). split; [| split; [exact Ht |]].
    + intros m Hm. cbn in Hm. apply List.filter_In in Hm. now apply Hc.
    + intros m Hm Hno. cbn. apply List.filter_In. split; [now apply Hk |].
      apply negb_true_iff, N.eqb_neq. intros E.
      specialize (Hno msg (Hp msg (or_introl eq_refl)) (eq_sym E)).
      unfold isBot in Hno. congruence.
  - apply IH; [exact Hp' |]. now apply cleanupSafe_emit.
Qed.

Lemma sweepLoop_safe env botId chan0 tr0 :
  forall fuel k messages deleted st r st',
    (forall m, In m messages -> In m chan0) ->
    cleanupSafe botId chan0 tr0 st ->
    sweepLoop fuel env botId k messages deleted st = Some (r, st') ->
    cleanupSafe botId chan0 tr0 st'.
Proof.
  induction fuel as [|fuel IH]; intros k messages deleted st r st' Hm Hs E;
    [discriminate |].
  cbn [sweepLoop] in E. destruct messages as [|m0 ms] eqn:Em.
  { injection E as _ <-. exact Hs. }
  rewrite <- Em in *.
  pose proof (deletePage_safe env botId chan0 tr0 messages deleted st Hm Hs) as H1.
  destruct (deletePage env botId messages deleted st) as [deleted' st1].
  cbn [snd] in H1.
  assert (H2 : cleanupSafe botId chan0 tr0
                 (clEmit (ClFetchMessages (msg_id <$> last messages)) st1))
    by now apply cleanupSafe_emit.
  destruct (cl_fetchOk env k).
  - eapply IH; [| exact H2 | exact E].
    intros m Hin. apply fetchPage_older in Hin. destruct Hin as [Hin _].
    now apply H2.
  - injection E as _ <-. exact H2.
Qed.

(** The clean-up never deletes a message of somebody else: whatever
    happens, [msg.delete()] is only called on messages of the channel whose
    author is the bot, and every message whose id is not that of a message
    of the bot is still in the channel afterwards. *)
Theorem deleteOldBotMessages_only_bot_messages (env : CleanupEnv)
    (botId : string) (st st' : CleanupState)
    (Hrun : deleteOldBotMessages env botId st = Some st') :
  (forall id, In id (deleteCalls (drop (length (cl_trace st)) (cl_trace st'))) ->
     exists m, In m (cl_channel st) /\ msg_id m = id /\
       msg_author m = botId) /\
  (forall m, In m (cl_channel st) ->
     (forall m', In m' (cl_channel st) -> msg_id m' = msg_id m ->
        msg_author m' <> botId) ->
     In m (cl_channel st')).
Proof.
  assert (S0 : cleanupSafe botId (cl_channel st) (cl_trace st) st).
  { split; [auto |]. split; [| auto].
    exists []. rewrite app_nil_r. split; [reflexivity |]. intros id []. }
  assert (Hs : cleanupSafe botId (cl_channel st) (cl_trace st) st').
  { unfold deleteOldBotMessages in Hrun.
    assert (Hrest : forall st1,
              cleanupSafe botId (cl_channel st) (cl_trace st) st1 ->
              (if negb (cl_createDM env)
               then Some (cleanupFailed (clEmit ClCreateDM st1))
               else
                 if negb (cl_fetchOk env 0)
                 then Some (cleanupFailed
                              (clEmit (ClFetchMessages None) (clEmit ClCreateDM st1)))
                 else
                   match sweepLoop
                           (S (length (cl_channel
                                         (clEmit (ClFetchMessages None)
                                            (clEmit ClCreateDM st1)))))
                           env botId 1
                           (fetchPage
                              (cl_channel
                                 (clEmit (ClFetchMessages None)
                                    (clEmit ClCreateDM st1))) None)
                           0 (clEmit (ClFetchMessages None) (clEmit ClCreateDM st1))
                   with
                   | Some (Swept deleted, st4) => Some (clEmit (ClLog deleted) st4)
                   | Some (FetchThrew, st4) => Some (cleanupFailed st4)
                   | None => None
                   end) = Some st' ->
              cleanupSafe botId (cl_channel st) (cl_trace st) st').
    { intros st1 H1 E.
      assert (H2 : cleanupSafe botId (cl_channel st) (cl_trace st)
                     (clEmit ClCreateDM st1))
        by (apply cleanupSafe_emit; [intros ?; discriminate | exact H1]).
      assert (H3 : cleanupSafe botId (cl_channel st) (cl_trace st)
                     (clEmit (ClFetchMessages None) (clEmit ClCreateDM st1)))
        by (apply cleanupSafe_emit; [intros ?; discriminate | exact H2]).
      destruct (negb (cl_createDM env)).
      { injection E as <-. apply cleanupSafe_emit; [intros ?; discriminate | exact H2]. }
      destruct (negb (cl_fetchOk env 0)).
      { injection E as <-. apply cleanupSafe_emit; [intros ?; discriminate | exact H3]. }
      match type of E with
      | context [sweepLoop ?f env botId 1 ?p 0 ?s] =>
          destruct (sweepLoop f env botId 1 p 0 s) as [[r st4]|] eqn:L
      end; [| discriminate].
      assert (H4 : cleanupSafe botId (cl_channel st) (cl_trace st) st4).
      { eapply sweepLoop_safe; [| exact H3 | exact L].
        intros m Hin. apply fetchPage_older in Hin. destruct Hin as [Hin _].
        now apply H3. }
      destruct r; injection E as <-;
        (apply cleanupSafe_emit; [intros ?; discriminate | exact H4]). }
    destruct (cl_owner st) as [u|] eqn:O.
    - exact (Hrest st S0 Hrun).
    - destruct (cl_fetchOwner env) as [u|].
      + assert (H1 : cleanupSafe botId (cl_channel st) (cl_trace st)
                       (clEmit ClFetchOwner st))
          by (apply cleanupSafe_emit; [intros ?; discriminate | exact S0]).
        refine (Hrest _ _ Hrun). exact H1.
      + injection Hrun as <-.
        apply cleanupSafe_emit; [intros ?; discriminate |].
        apply cleanupSafe_emit; [intros ?; discriminate | exact S0]. }
  destruct Hs as (_ & (new & T & Hd) & Hk). split.
  - intros id Hin. rewrite T, drop_app_length in Hin.
    destruct (Hd id Hin) as (m & Hm & Hi & Hb).
    exists m. repeat split; try assumption. now apply String.eqb_eq.
  - intros m Hm Hno. apply Hk; [exact Hm |].
    intros m' Hm' Hi. unfold isBot. apply String.eqb_neq. now apply Hno.
Qed.

Lemma deleteOldBotMessages_only_bot_messages_witness :
  In {| msg_id := 20; msg_author := "owner" |}
     (cl_channel (afterCleanup envKeeps10 chanThree)).
Proof.
  apply (deleteOldBotMessages_only_bot_messages envKeeps10 "bot"
           (cleanupStart chanThree) (afterCleanup envKeeps10 chanThree)
           eq_refl).
  - right. now left.
  - intros m' [<-|[<-|[<-|[]]]] E; try discriminate.
Defined.

(** *** A sweep in which every fetch succeeds *)

Lemma descending_app (a b : list Message) :
  descending (a ++ b) <->
  descending a /\ descending b /\
  (forall x y, In x a -> In y b -> (msg_id y < msg_id x)%N).
Proof.
  induction a as [|m a IH]; cbn [app descending].
  - split; [intros H; repeat split; [exact H | intros x y []] | tauto].
  - rewrite IH. split.
    + intros (Hm & Ha & Hb & Hab). repeat split; try assumption.
      * intros x Hx. apply Hm, in_or_app. now left.
      * intros x y [<-|Hx] Hy; [apply Hm, in_or_app; now right | now apply Hab].
    + intros ((Hm & Ha) & Hb & Hab). repeat split; try assumption.
      * intros x Hx. apply in_app_or in Hx.
        destruct Hx as [Hx|Hx]; [now apply Hm | apply Hab; [now left | exact Hx]].
      * intros x y Hx Hy. apply Hab; [now right | exact Hy].
Qed.

Lemma filter_all {A} (p : A -> bool) (l : list A) :
  (forall x, In x l -> p x = true) -> List.filter p l = l.
Proof.
  induction l as [|x l IH]; intros H; [reflexivity |].
  cbn. rewrite (H x (or_introl eq_refl)). f_equal. apply IH.
  intros y Hy. apply H. now right.
Qed.

Lemma filter_none {A} (p : A -> bool) (l : list A) :
  (forall x, In x l -> p x = false) -> List.filter p l = [].
Proof.
  induction l as [|x l IH]; intros H; [reflexivity |].
  cbn. rewrite (H x (or_introl eq_refl)). apply IH.
  intros y Hy. apply H. now right.
Qed.

Lemma filter_In_sub {A} (p : A -> bool) (l : list A) (x : A) :
  In x (List.filter p l) -> In x l.
Proof. intros H. now apply List.filter_In in H. Qed.

(** In a descending channel the deletion of a message by its id removes
    that message and nothing else. *)
Lemma remove_in_descending (X Y : list Message) (m : Message) :
  (forall x, In x X -> (msg_id m < msg_id x)%N) ->
  (forall y, In y Y -> (msg_id y < msg_id m)%N) ->
  List.filter (fun x => negb (msg_id x =? msg_id m)%N) (X ++ m :: Y) = X ++ Y.
Proof.
  intros HX HY. rewrite List.filter_app. cbn [List.filter].
  rewrite N.eqb_refl. cbn [negb]. f_equal.
  - apply filter_all. intros x Hx. apply negb_true_iff, N.eqb_neq.
    specialize (HX x Hx). lia.
  - apply filter_all. intros y Hy. apply negb_true_iff, N.eqb_neq.
    specialize (HY y Hy). lia.
Qed.

Lemma deletePage_complete env botId (page : list Message) :
  forall D R deleted st,
    descending (D ++ page ++ R) ->
    cl_channel st = List.filter (survives env botId) D ++ page ++ R ->
    let r := deletePage env botId page deleted st in
    cl_channel (snd r) = List.filter (survives env botId) (D ++ page) ++ R /\
    fst r
    = (deleted
       + length (List.filter (fun m => negb (survives env botId m)) page))%nat /\
    deleteCalls (cl_trace (snd r))
    = deleteCalls (cl_trace st) ++ map msg_id (List.filter (isBot botId) page).
Proof.
  induction page as [|msg page IH]; intros D R deleted st Hd Hc r; subst r.
  - cbn. rewrite !app_nil_r. repeat split; [exact Hc | lia].
  - cbn [deletePage].
    assert (Hd' : descending ((D ++ [msg]) ++ page ++ R))
      by (rewrite <- app_assoc; exact Hd).
    assert (HD : D ++ msg :: page = (D ++ [msg]) ++ page)
      by (now rewrite <- app_assoc).
    rewrite HD.
    apply descending_app in Hd. destruct Hd as (_ & HdR & HDR).
    destruct HdR as [Hbelow _].
    assert (Hsplit : forall b : bool,
              survives env botId msg = b ->
              List.filter (survives env botId) (D ++ [msg])
              = List.filter (survives env botId) D ++ (if b then [msg] else [])).
    { intros b Hb. rewrite List.filter_app. cbn [List.filter]. now rewrite Hb. }
    destruct (String.eqb (msg_author msg) botId) eqn:B.
    + assert (Hbot : isBot botId msg = true) by exact B.
      destruct (cl_deleteOk env (msg_id msg)) eqn:Ok.
      * assert (Hsurv : survives env botId msg = false)
          by (unfold survives; now rewrite Hbot, Ok).
        edestruct (IH (D ++ [msg]) R (S deleted)
                     (removeMsg (msg_id msg) (clEmit (ClDelete (msg_id msg)) st)))
          as (H1 & H2 & H3); [exact Hd' | |].
        { cbn [removeMsg clEmit cl_channel]. rewrite Hc, <- app_comm_cons.
          rewrite remove_in_descending.
          - rewrite (Hsplit false Hsurv). now rewrite app_nil_r.
          - intros x Hx. apply filter_In_sub in Hx.
            apply (HDR x msg Hx). now left.
          - exact Hbelow. }
        rewrite H1, H2, H3. cbn [removeMsg clEmit cl_trace List.filter].
        rewrite Hsurv, Hbot. cbn [negb length map].
        split; [reflexivity |]. split; [lia |].
        unfold deleteCalls. rewrite omap_app. cbn. now rewrite <- app_assoc.
      * assert (Hsurv : survives env botId msg = true)
          by (unfold survives; now rewrite Hbot, Ok).
        edestruct (IH (D ++ [msg]) R deleted
                     (clEmit (ClError "Konnte Nachricht nicht löschen:")
                        (clEmit (ClDelete (msg_id msg)) st)))
          as (H1 & H2 & H3); [exact Hd' | |].
        { cbn [clEmit cl_channel]. rewrite Hc, (Hsplit true Hsurv).
          now rewrite <- app_assoc. }
        rewrite H1, H2, H3. cbn [clEmit cl_trace List.filter].
        rewrite Hsurv, Hbot. cbn [negb length map].
        split; [reflexivity |]. split; [reflexivity |].
        unfold deleteCalls. rewrite !omap_app. cbn.
        now rewrite app_nil_r, <- app_assoc.
    + assert (Hbot : isBot botId msg = false) by exact B.
      assert (Hsurv : survives env botId msg = true)
        by (unfold survives; now rewrite Hbot).
      edestruct (IH (D ++ [msg]) R deleted st) as (H1 & H2 & H3); [exact Hd' | |].
      { rewrite Hc, (Hsplit true Hsurv). now rewrite <- app_assoc. }
      rewrite H1, H2, H3. cbn [List.filter].
      rewrite Hsurv, Hbot. repeat split.
Qed.

Lemma deleteCalls_snoc (tr : list CleanupEffect) (e : CleanupEffect) :
  (forall id, e <> ClDelete id) -> deleteCalls (tr ++ [e]) = deleteCalls tr.
Proof.
  intros He. unfold deleteCalls. rewrite omap_app.
  destruct e; cbn; try apply app_nil_r. now destruct (He id).
Qed.

Lemma sweepLoop_complete env botId :
  (forall k, cl_fetchOk env k = true) ->
  forall fuel k D R deleted st,
    descending (D ++ R) ->
    cl_channel st = List.filter (survives env botId) D ++ R ->
    (length R < fuel)%nat ->
    exists st',
      sweepLoop fuel env botId k (take 100 R) deleted st
      = Some (Swept (deleted
                     + length (List.filter
                                 (fun m => negb (survives env botId m)) R)), st') /\
      cl_channel st' = List.filter (survives env botId) (D ++ R) /\
      deleteCalls (cl_trace st')
      = deleteCalls (cl_trace st) ++ map msg_id (List.filter (isBot botId) R).
Proof.
  intros Hf. induction fuel as [|fuel IH]; intros k D R deleted st Hd Hc Hl;
    [lia |].
  destruct R as [|r0 R0] eqn:ER.
  - exists st. cbn. rewrite !app_nil_r in *. rewrite Nat.add_0_r. now repeat split.
  - rewrite <- ER in *.
    assert (Hsplit : R = take 100 R ++ drop 100 R) by (now rewrite take_drop).
    set (page := take 100 R) in *. set (tail := drop 100 R) in *.
    assert (HR : forall f : Message -> bool,
              List.filter f R = List.filter f page ++ List.filter f tail).
    { intros f. rewrite <- List.filter_app. f_equal. exact Hsplit. }
    assert (Hpage : exists init l, page = init ++ [l]).
    { destruct (last page) as [l|] eqn:L.
      - apply last_Some in L. destruct L as (init & L). eauto.
      - apply last_None in L. subst page. rewrite ER in L. discriminate. }
    destruct Hpage as (init & l & Hpage).
    assert (Hlen : (length tail < fuel)%nat).
    { assert (length page + length tail = length R)%nat
        by (rewrite <- length_app, <- Hsplit; reflexivity).
      assert (0 < length page)%nat
        by (rewrite Hpage, length_app; cbn; lia).
      lia. }
    assert (Hd1 : descending (D ++ page ++ tail)) by (now rewrite <- Hsplit).
    assert (Hc1 : cl_channel st
                  = List.filter (survives env botId) D ++ page ++ tail)
      by (now rewrite <- Hsplit).
    destruct (deletePage_complete env botId page D tail deleted st Hd1 Hc1)
      as (P1 & P2 & P3).
    cbn [sweepLoop].
    destruct page as [|p0 ps] eqn:EP.
    { destruct init; discriminate. }
    rewrite <- EP in *.
    destruct (deletePage env botId page deleted st) as [deleted' st1].
    cbn [fst snd] in P1, P2, P3. rewrite Hf.
    assert (Hlast : last page = Some l) by (rewrite Hpage; apply last_snoc).
    rewrite Hlast. cbn [fmap option_fmap option_map].
    assert (Hnext : fetchPage
                      (cl_channel (clEmit (ClFetchMessages (Some (msg_id l))) st1))
                      (Some (msg_id l))
                    = take 100 tail).
    { unfold fetchPage. cbn [clEmit cl_channel]. rewrite P1.
      rewrite List.filter_app. f_equal.
      assert (Hd2 : descending ((D ++ init) ++ l :: tail)).
      { rewrite <- app_assoc. rewrite Hpage in Hd1.
        now rewrite <- !app_assoc in Hd1. }
      apply descending_app in Hd2. destruct Hd2 as (_ & [Ht _] & Hab).
      rewrite filter_none, filter_all; [reflexivity | |].
      - intros y Hy. cbn. apply N.ltb_lt. now apply Ht.
      - intros x Hx. apply filter_In_sub in Hx. cbn. apply N.ltb_ge.
        rewrite Hpage, app_assoc in Hx. apply in_app_or in Hx.
        destruct Hx as [Hx|[<-|[]]]; [| lia].
        specialize (Hab x l Hx (or_introl eq_refl)). lia. }
    rewrite Hnext.
    destruct (IH (S k) (D ++ page) tail deleted'
                (clEmit (ClFetchMessages (Some (msg_id l))) st1))
      as (st' & E & C & T).
    { now rewrite <- app_assoc. }
    { exact P1. }
    { exact Hlen. }
    assert (HT : deleteCalls (cl_trace st1 ++ [ClFetchMessages (Some (msg_id l))])
                 = deleteCalls (cl_trace st1)).
    { unfold deleteCalls. rewrite omap_app. cbn. apply app_nil_r. }
    exists st'. rewrite E, C, T, P2.
    cbn [clEmit cl_trace]. rewrite HT, P3.
    rewrite !List.filter_app, !HR, length_app, map_app, <- !app_assoc.
    split; [do 3 f_equal; lia |]. split; reflexivity.
Qed.

(** When the owner is available, the DM channel opens and every fetch of a
    page succeeds, the clean-up visits the whole channel, however many
    pages of 100 it has: it calls [msg.delete()] once on every message of
    the bot, newest first, and on no other; afterwards the channel holds
    the messages of other authors and the messages of the bot whose
    deletion failed, and the count logged at the end is the number of
    messages deleted.  A deletion that fails does not stop the sweep. *)
Theorem deleteOldBotMessages_sweeps_channel (env : CleanupEnv) (botId : string)
    (st : CleanupState)
    (Hreach : cleanupReachable env st)
    (Hdesc : descending (cl_channel st)) :
  exists st',
    deleteOldBotMessages env botId st = Some st' /\
    cl_channel st' = List.filter (survives env botId) (cl_channel st) /\
    deleteCalls (cl_trace st')
    = deleteCalls (cl_trace st)
      ++ map msg_id (List.filter (isBot botId) (cl_channel st)) /\
    last (cl_trace st')
    = Some (ClLog (length (List.filter
                             (fun m => negb (survives env botId m))
                             (cl_channel st)))).
Proof.
  destruct Hreach as (Ho & Hdm & Hf).
  unfold deleteOldBotMessages.
  assert (Hrest : forall st1,
            cl_channel st1 = cl_channel st ->
            exists st',
              (if negb (cl_createDM env)
               then Some (cleanupFailed (clEmit ClCreateDM st1))
               else
                 if negb (cl_fetchOk env 0)
                 then Some (cleanupFailed
                              (clEmit (ClFetchMessages None) (clEmit ClCreateDM st1)))
                 else
                   match sweepLoop
                           (S (length (cl_channel
                                         (clEmit (ClFetchMessages None)
                                            (clEmit ClCreateDM st1)))))
                           env botId 1
                           (fetchPage
                              (cl_channel
                                 (clEmit (ClFetchMessages None)
                                    (clEmit ClCreateDM st1))) None)
                           0 (clEmit (ClFetchMessages None) (clEmit ClCreateDM st1))
                   with
                   | Some (Swept deleted, st4) => Some (clEmit (ClLog deleted) st4)
                   | Some (FetchThrew, st4) => Some (cleanupFailed st4)
                   | None => None
                   end) = Some st' /\
              cl_channel st' = List.filter (survives env botId) (cl_channel st) /\
              deleteCalls (cl_trace st')
              = deleteCalls (cl_trace st1)
                ++ map msg_id (List.filter (isBot botId) (cl_channel st)) /\
              last (cl_trace st')
              = Some (ClLog (length (List.filter
                                       (fun m => negb (survives env botId m))
                                       (cl_channel st))))).
  { intros st1 Hc. rewrite Hdm, Hf. cbn [negb clEmit cl_channel].
    assert (Hp : fetchPage (cl_channel st1) None = take 100 (cl_channel st1)).
    { unfold fetchPage. now rewrite filter_all. }
    rewrite Hp.
    destruct (sweepLoop_complete env botId Hf (S (length (cl_channel st1))) 1
                [] (cl_channel st1) 0
                (clEmit (ClFetchMessages None) (clEmit ClCreateDM st1)))
      as (st4 & E & C & T).
    { cbn [app]. now rewrite Hc. }
    { reflexivity. }
    { lia. }
    rewrite E. eexists. split; [reflexivity |].
    cbn [clEmit cl_channel cl_trace app Nat.add] in *.
    rewrite C, Hc. split; [reflexivity |]. split.
    - rewrite deleteCalls_snoc by (intros ?; discriminate). rewrite T.
      now rewrite !deleteCalls_snoc, Hc by (intros ?; discriminate).
    - apply last_snoc. }
  destruct (cl_owner st) as [u|] eqn:O.
  - apply Hrest. reflexivity.
  - destruct (cl_fetchOwner env) as [u|]; [| destruct Ho; congruence].
    match goal with |- context [clEmit ClCreateDM ?s] =>
      destruct (Hrest s eq_refl) as (st' & E & C & T & L)
    end.
    exists st'. split; [exact E |]. split; [exact C |]. split; [| exact L].
    rewrite T. cbn [clEmit cl_trace].
    now rewrite deleteCalls_snoc by (intros ?; discriminate).
Qed.

Lemma deleteOldBotMessages_sweeps_channel_witness :
  cl_channel (afterCleanup envKeeps10 chanThree)
  = [{| msg_id := 20; msg_author := "owner" |};
     {| msg_id := 10; msg_author := "bot" |}]
  /\ deleteCalls (cl_trace (afterCleanup envKeeps10 chanThree)) = [30%N; 10%N].
Proof.
  destruct (deleteOldBotMessages_sweeps_channel envKeeps10 "bot"
              (cleanupStart chanThree)) as (st' & E & C & T & _).
  - split; [right; discriminate |]. split; reflexivity.
  - cbn. split; [| split; [| split; [| exact I]]]; intros x H;
      repeat (destruct H as [<-|H]; [cbn; lia |]); destruct H.
  - unfold afterCleanup. rewrite E. unfold default. cbn [from_option id].
    rewrite C, T. split; reflexivity.
Defined.

(** * Timer calls and the length of a cycle *)

Lemma elapsed_nonneg (lat : nat -> Z) (tr : list Effect) :
  (forall p, 0 <= lat p) -> forall p, 0 <= elapsed lat p tr.
Proof.
  intros Hlat. induction tr as [|e tr IH]; intros p; cbn [elapsed]; [lia |].
  specialize (IH (S p)). specialize (Hlat p). destruct (isAwaited e); lia.
Qed.

Lemma timerDelay_pos (c : Config) : 1 <= timerDelay c.
Proof.
  unfold timerDelay.
  destruct (1 <=? CHECK_INTERVAL_MS c) eqn:E; cbn [andb]; [| lia].
  apply Z.leb_le in E. destruct (CHECK_INTERVAL_MS c <=? 2147483647); lia.
Qed.

(** A computation that starts by recording [e] and goes on with effects
    of any kind has [e] as its first effect. *)
Lemma bind_emit_head {A} (P : Effect -> Prop) (e : Effect) (k : unit -> M A) :
  (forall a, emitsOnly P (k a)) ->
  forall w, exists tl,
    trace (snd ((x <- act (emit e) ;; k x) w)) = trace w ++ e :: tl.
Proof.
  intros Hk w. unfold bind, act. destruct (Hk tt (emit e w)) as (tl & T & _).
  exists tl. rewrite T. cbn. now rewrite <- app_assoc.
Qed.

(** A cycle over at least one website begins with the check of the first
    website. *)
Lemma cycle_first_effect (c : Config) (env : CycleEnv) (w : World) :
  WEBSITES c <> [] ->
  exists tl,
    newTrace w (exec (doMonitoringCycle c env) w) = CallCheckWebsite 0 :: tl.
Proof.
  intros Hne. destruct (WEBSITES c) as [|cfg rest] eqn:W; [congruence |].
  destruct (doMonitoringCycle_after_websites c env w) as (tl2 & T & _).
  rewrite W in T.
  assert (H : exists tl,
            trace (exec (websiteLoop env 0 (cfg :: rest)
                           ["📡 **Webseiten-Status:**"]) w)
            = trace w ++ CallCheckWebsite 0 :: tl).
  { unfold exec. cbn [websiteLoop]. unfold bind at 1.
    destruct (websiteBody_spec env 0 cfg ["📡 **Webseiten-Status:**"] w)
      as (new0 & w0 & E0 & _).
    assert (H0 : exists tl, trace (snd (websiteBody env 0 cfg
                                          ["📡 **Webseiten-Status:**"] w))
                            = trace w ++ CallCheckWebsite 0 :: tl).
    { unfold websiteBody, sendWebsiteProblemAlert, sendWebsiteRecoveryAlert,
        fetchOwnerOrReturn, sendOrLog, usersFetch, ownerSend.
      apply (bind_emit_head (fun e => isWebsiteEffect e = true)).
      intros _. apply emitsOnly_bind; [auto with emits |]. intros st.
      apply emitsOnly_bind.
      { destruct (isNewProblem _ _); [| auto with emits].
        apply emitsOnly_bind; [auto with emits |]. intros _.
        apply emitsOnly_bind; [auto 10 with emits |]. intros go.
        destruct (negb go); auto 10 with emits. }
      intros _. apply emitsOnly_bind.
      { destruct (isRecovery _ _); [| auto with emits].
        apply emitsOnly_bind; [auto with emits |]. intros _.
        apply emitsOnly_bind; [auto 10 with emits |]. intros go.
        destruct (negb go); auto 10 with emits. }
      intros _. auto with emits. }
    destruct H0 as (tl0 & T0). rewrite E0 in T0 |- *. cbn [snd] in T0.
    destruct (websiteLoop_effects env rest 1
                (["📡 **Webseiten-Status:**"]
                 ++ ["- " +:+ text (checkWebsite cfg (net_fetch env 0%nat))]) w0)
      as (new1 & T1 & _).
    exists (tl0 ++ new1). rewrite T1, T0, <- app_assoc. reflexivity. }
  destruct H as (tl & H). exists (tl ++ tl2).
  apply newTrace_app. rewrite T, H, <- app_assoc. reflexivity.
Qed.

(** C2, as the code has it: the timer makes its calls one delay apart,
    however long a cycle takes, so a slow cycle does not push out the next
    start.  For a cycle that is called in the world [w] while no other is
    running: it is still running at the next call exactly when it never
    ends or its awaited calls take longer than the delay; it is so, for
    instance, whenever the check of the first website alone takes longer
    than the delay.  A cycle whose awaited calls take at most the delay has
    ended when the next begins.  The first cycle is awaited by the handler
    before the timer is started ([setInterval] is called at its end): it
    has ended before every call of the timer. *)
Theorem timer_calls_do_not_wait (c : Config) (env : CycleEnv)
    (lat : nat -> Z) (w : World) (t0 : Z) (k : nat)
    (Hlat : forall p, 0 <= lat p) :
  let new := newTrace w (exec (doMonitoringCycle c env) w) in
  timerCall c t0 (S k) = timerCall c t0 k + timerDelay c /\
  (overlapsNext c env lat w t0 k <->
     fst (doMonitoringCycle c env w) = Pending
     \/ timerDelay c < elapsed lat 0 new) /\
  (WEBSITES c <> [] -> timerDelay c < lat 0%nat ->
     overlapsNext c env lat w t0 k) /\
  (forall fin, cycleEnd c env lat w (timerCall c t0 k) = Some fin ->
     elapsed lat 0 new <= timerDelay c ->
     fin <= timerCall c t0 (S k)) /\
  (forall start fin n, cycleEnd c env lat w start = Some fin ->
     start <= fin /\ fin < timerCall c fin (S n)).
Proof.
  intros new.
  pose proof (timerDelay_pos c) as Hd.
  pose proof (elapsed_nonneg lat new Hlat 0) as He.
  assert (Hnext : timerCall c t0 (S k) = timerCall c t0 k + timerDelay c)
    by (unfold timerCall; lia).
  assert (Hiff : overlapsNext c env lat w t0 k <->
                 fst (doMonitoringCycle c env w) = Pending
                 \/ timerDelay c < elapsed lat 0 new).
  { unfold overlapsNext, cycleEnd. rewrite Hnext. subst new. unfold exec.
    destruct (doMonitoringCycle c env w) as [[[]|e|] w'];
      cbn [runningAt fst snd].
    - split; [intros H; right; lia | intros [H|H]; [discriminate | lia]].
    - split; [intros H; right; lia | intros [H|H]; [discriminate | lia]].
    - split; [now left | trivial]. }
  split; [exact Hnext |]. split; [exact Hiff |]. split; [| split].
  - intros Hne Hslow. apply Hiff. right.
    destruct (cycle_first_effect c env w Hne) as (tl & T).
    fold new in T. rewrite T. cbn [elapsed isAwaited].
    pose proof (elapsed_nonneg lat tl Hlat 1). lia.
  - intros fin E Hfast. unfold cycleEnd in E. subst new. unfold exec in *.
    destruct (doMonitoringCycle c env w) as [[[]|e|] w']; cbn [snd] in *;
      try discriminate; injection E as <-; lia.
  - intros start fin n E. unfold cycleEnd in E. subst new. unfold exec in *.
    unfold timerCall.
    destruct (doMonitoringCycle c env w) as [[[]|e|] w']; cbn [snd] in *;
      try discriminate; injection E as <-; nia.
Qed.

Lemma timer_calls_do_not_wait_witness :
  timerCall configEverySecond 0 2 = timerCall configEverySecond 0 1 + 1000 /\
  overlapsNext configEverySecond envAllUp latSlowFetch
    (onReady configEverySecond readyOk [envAllUp]) 0 1.
Proof.
  assert (Hlat : forall p, 0 <= latSlowFetch p) by (intros [|p]; cbn; lia).
  pose proof (timer_calls_do_not_wait configEverySecond envAllUp latSlowFetch
                (onReady configEverySecond readyOk [envAllUp]) 0 1 Hlat) as H.
  destruct H as (Hnext & _ & Hslow & _).
  split; [exact Hnext |]. apply Hslow; [discriminate | reflexivity].
Defined.

(** C2 (counterexample): with an interval of one second and a website
    whose check takes two seconds, the timer makes its first call at 1000
    and its second at 2000, while the cycle of the first call runs until
    3100: the second cycle starts while the first is still running, and its
    start is not pushed out. *)
Lemma second_cycle_starts_during_first :
  let w := onReady configEverySecond readyOk [envAllUp] in
  timerCall configEverySecond 0 1 = 1000 /\
  timerCall configEverySecond 0 2 = 2000 /\
  cycleEnd configEverySecond envAllUp latSlowFetch w 1000 = Some 3100 /\
  overlapsNext configEverySecond envAllUp latSlowFetch w 0 1.
Proof. vm_compute. repeat split. Qed.
